(** * Greaseweazle host tools: the utility functions of the control script
      ([scripts/greaseweazle/tools/util.py]).

    The development embeds [util.py] in Rocq:
    - Python strings, as far as the code looks at their code points
      ([str.upper], the character classes of [re]);
    - the pure scoring heuristic ([valid_ser_id], [score_port]);
    - the port locator ([find_port], [port_info]);
    - the mode switcher and the mode check ([usb_reopen], [usb_mode_check],
      [usb_open]), written in a small state-and-exception monad over a
      world that records every action performed on the host;
    - the command-line helpers ([drive_letter], [range_str], [split_opts],
      [with_drive_selected]) and [TrackSet]. *)

From Stdlib Require Import ZArith NArith Bool List String Ascii Lia.
From Stdlib Require Import DecimalString.
From Stdlib Require Import Sorted Permutation.
Import ListNotations.
Open Scope string_scope.
Open Scope Z_scope.

(** ** Python strings

    A Python [str] is a sequence of Unicode code points.  A [string] holds
    the UTF-8 encoding of one, a lone surrogate being encoded like any other
    code point, so that equality, concatenation, [startswith] and [split]
    on ASCII separators are the same operations on the bytes.  What Python
    defines code point by code point ([str.upper], the classes [\d] and [.]
    of [re], the digits [int] reads) goes through [decode]. *)

(** The six value bits of a continuation byte [10xxxxxx]. *)
Definition cont_bits (b : ascii) : option N :=
  let n := N_of_ascii b in
  if ((0x80 <=? n) && (n <? 0xC0))%N then Some (n - 0x80)%N else None.

(** The code point that starts at the byte [b0], with [r] behind it, and
    the number of bytes of [r] that belong to it.  A byte that starts no
    well-formed sequence (a stray continuation byte, a truncated or
    overlong sequence, a value above U+10FFFF) stands for no text; it is
    read as U+FFFD, alone. *)
Definition first_cp (b0 : ascii) (r : string) : N * nat :=
  let n0 := N_of_ascii b0 in
  let stray := (0xFFFD%N, O) in
  if (n0 <? 0x80)%N then (n0, O)
  else if (n0 <? 0xC0)%N then stray
  else if (n0 <? 0xE0)%N then
    match r with
    | String b1 _ =>
        match cont_bits b1 with
        | Some x1 =>
            let c := ((n0 - 0xC0) * 0x40 + x1)%N in
            if (0x80 <=? c)%N then (c, 1%nat) else stray
        | None => stray
        end
    | EmptyString => stray
    end
  else if (n0 <? 0xF0)%N then
    match r with
    | String b1 (String b2 _) =>
        match cont_bits b1, cont_bits b2 with
        | Some x1, Some x2 =>
            let c := (((n0 - 0xE0) * 0x40 + x1) * 0x40 + x2)%N in
            if (0x800 <=? c)%N then (c, 2%nat) else stray
        | _, _ => stray
        end
    | _ => stray
    end
  else if (n0 <? 0xF8)%N then
    match r with
    | String b1 (String b2 (String b3 _)) =>
        match cont_bits b1, cont_bits b2, cont_bits b3 with
        | Some x1, Some x2, Some x3 =>
            let c :=
              ((((n0 - 0xF0) * 0x40 + x1) * 0x40 + x2) * 0x40 + x3)%N in
            if ((0x10000 <=? c) && (c <? 0x110000))%N then (c, 3%nat)
            else stray
        | _, _, _ => stray
        end
    | _ => stray
    end
  else stray.

(** The code points of [s], once [skip] bytes that belong to a code point
    already read have been passed. *)
Fixpoint decode_from (skip : nat) (s : string) : list N :=
  match s with
  | EmptyString => []
  | String b r =>
      match skip with
      | S k => decode_from k r
      | O => let (c, n) := first_cp b r in c :: decode_from n r
      end
  end.

(** The code points of the [str] that [s] encodes. *)
Definition decode (s : string) : list N := decode_from 0 s.

(** The UTF-8 encoding of one code point. *)
Definition encode_cp (c : N) : string :=
  (if c <? 0x80 then String (ascii_of_N c) EmptyString
   else if c <? 0x800 then
     String (ascii_of_N (0xC0 + c / 0x40))
       (String (ascii_of_N (0x80 + c mod 0x40)) EmptyString)
   else if c <? 0x10000 then
     String (ascii_of_N (0xE0 + c / 0x1000))
       (String (ascii_of_N (0x80 + (c / 0x40) mod 0x40))
          (String (ascii_of_N (0x80 + c mod 0x40)) EmptyString))
   else
     String (ascii_of_N (0xF0 + c / 0x40000))
       (String (ascii_of_N (0x80 + (c / 0x1000) mod 0x40))
          (String (ascii_of_N (0x80 + (c / 0x40) mod 0x40))
             (String (ascii_of_N (0x80 + c mod 0x40)) EmptyString))))%N.

Fixpoint encode (l : list N) : string :=
  match l with
  | [] => EmptyString
  | c :: r => encode_cp c ++ encode r
  end.

(** The case mappings of [str.upper] outside ASCII, as Python 3.11 has them
    (Unicode 14.0.0): [upper_special] lists the code points whose uppercase
    form is made of several code points or is an ASCII letter, with that
    form; [upper_runs] lists the others by runs [(first, last, stride,
    image of first)]: the code points [first], [first + stride], ... up to
    [last] are mapped to the image of [first] shifted by their distance to
    [first]. *)
Definition upper_special : list (N * list N) :=
  [(0xDF, [0x53; 0x53]); (0x131, [0x49]); (0x149, [0x2BC; 0x4E]);
   (0x17F, [0x53]); (0x1F0, [0x4A; 0x30C]); (0x390, [0x399; 0x308; 0x301]);
   (0x3B0, [0x3A5; 0x308; 0x301]); (0x587, [0x535; 0x552]);
   (0x1E96, [0x48; 0x331]); (0x1E97, [0x54; 0x308]);
   (0x1E98, [0x57; 0x30A]); (0x1E99, [0x59; 0x30A]);
   (0x1E9A, [0x41; 0x2BE]); (0x1F50, [0x3A5; 0x313]);
   (0x1F52, [0x3A5; 0x313; 0x300]); (0x1F54, [0x3A5; 0x313; 0x301]);
   (0x1F56, [0x3A5; 0x313; 0x342]); (0x1F80, [0x1F08; 0x399]);
   (0x1F81, [0x1F09; 0x399]); (0x1F82, [0x1F0A; 0x399]);
   (0x1F83, [0x1F0B; 0x399]); (0x1F84, [0x1F0C; 0x399]);
   (0x1F85, [0x1F0D; 0x399]); (0x1F86, [0x1F0E; 0x399]);
   (0x1F87, [0x1F0F; 0x399]); (0x1F88, [0x1F08; 0x399]);
   (0x1F89, [0x1F09; 0x399]); (0x1F8A, [0x1F0A; 0x399]);
   (0x1F8B, [0x1F0B; 0x399]); (0x1F8C, [0x1F0C; 0x399]);
   (0x1F8D, [0x1F0D; 0x399]); (0x1F8E, [0x1F0E; 0x399]);
   (0x1F8F, [0x1F0F; 0x399]); (0x1F90, [0x1F28; 0x399]);
   (0x1F91, [0x1F29; 0x399]); (0x1F92, [0x1F2A; 0x399]);
   (0x1F93, [0x1F2B; 0x399]); (0x1F94, [0x1F2C; 0x399]);
   (0x1F95, [0x1F2D; 0x399]); (0x1F96, [0x1F2E; 0x399]);
   (0x1F97, [0x1F2F; 0x399]); (0x1F98, [0x1F28; 0x399]);
   (0x1F99, [0x1F29; 0x399]); (0x1F9A, [0x1F2A; 0x399]);
   (0x1F9B, [0x1F2B; 0x399]); (0x1F9C, [0x1F2C; 0x399]);
   (0x1F9D, [0x1F2D; 0x399]); (0x1F9E, [0x1F2E; 0x399]);
   (0x1F9F, [0x1F2F; 0x399]); (0x1FA0, [0x1F68; 0x399]);
   (0x1FA1, [0x1F69; 0x399]); (0x1FA2, [0x1F6A; 0x399]);
   (0x1FA3, [0x1F6B; 0x399]); (0x1FA4, [0x1F6C; 0x399]);
   (0x1FA5, [0x1F6D; 0x399]); (0x1FA6, [0x1F6E; 0x399]);
   (0x1FA7, [0x1F6F; 0x399]); (0x1FA8, [0x1F68; 0x399]);
   (0x1FA9, [0x1F69; 0x399]); (0x1FAA, [0x1F6A; 0x399]);
   (0x1FAB, [0x1F6B; 0x399]); (0x1FAC, [0x1F6C; 0x399]);
   (0x1FAD, [0x1F6D; 0x399]); (0x1FAE, [0x1F6E; 0x399]);
   (0x1FAF, [0x1F6F; 0x399]); (0x1FB2, [0x1FBA; 0x399]);
   (0x1FB3, [0x391; 0x399]); (0x1FB4, [0x386; 0x399]);
   (0x1FB6, [0x391; 0x342]); (0x1FB7, [0x391; 0x342; 0x399]);
   (0x1FBC, [0x391; 0x399]); (0x1FC2, [0x1FCA; 0x399]);
   (0x1FC3, [0x397; 0x399]); (0x1FC4, [0x389; 0x399]);
   (0x1FC6, [0x397; 0x342]); (0x1FC7, [0x397; 0x342; 0x399]);
   (0x1FCC, [0x397; 0x399]); (0x1FD2, [0x399; 0x308; 0x300]);
   (0x1FD3, [0x399; 0x308; 0x301]); (0x1FD6, [0x399; 0x342]);
   (0x1FD7, [0x399; 0x308; 0x342]); (0x1FE2, [0x3A5; 0x308; 0x300]);
   (0x1FE3, [0x3A5; 0x308; 0x301]); (0x1FE4, [0x3A1; 0x313]);
   (0x1FE6, [0x3A5; 0x342]); (0x1FE7, [0x3A5; 0x308; 0x342]);
   (0x1FF2, [0x1FFA; 0x399]); (0x1FF3, [0x3A9; 0x399]);
   (0x1FF4, [0x38F; 0x399]); (0x1FF6, [0x3A9; 0x342]);
   (0x1FF7, [0x3A9; 0x342; 0x399]); (0x1FFC, [0x3A9; 0x399]);
   (0xFB00, [0x46; 0x46]); (0xFB01, [0x46; 0x49]); (0xFB02, [0x46; 0x4C]);
   (0xFB03, [0x46; 0x46; 0x49]); (0xFB04, [0x46; 0x46; 0x4C]);
   (0xFB05, [0x53; 0x54]); (0xFB06, [0x53; 0x54]);
   (0xFB13, [0x544; 0x546]); (0xFB14, [0x544; 0x535]);
   (0xFB15, [0x544; 0x53B]); (0xFB16, [0x54E; 0x546]);
   (0xFB17, [0x544; 0x53D])]%N.

Definition upper_runs : list (N * N * N * N) :=
  [(0xB5, 0xB5, 1, 0x39C); (0xE0, 0xF6, 1, 0xC0); (0xF8, 0xFE, 1, 0xD8);
   (0xFF, 0xFF, 1, 0x178); (0x101, 0x12F, 2, 0x100);
   (0x133, 0x137, 2, 0x132); (0x13A, 0x148, 2, 0x139);
   (0x14B, 0x177, 2, 0x14A); (0x17A, 0x17E, 2, 0x179);
   (0x180, 0x180, 1, 0x243); (0x183, 0x185, 2, 0x182);
   (0x188, 0x188, 1, 0x187); (0x18C, 0x18C, 1, 0x18B);
   (0x192, 0x192, 1, 0x191); (0x195, 0x195, 1, 0x1F6);
   (0x199, 0x199, 1, 0x198); (0x19A, 0x19A, 1, 0x23D);
   (0x19E, 0x19E, 1, 0x220); (0x1A1, 0x1A5, 2, 0x1A0);
   (0x1A8, 0x1A8, 1, 0x1A7); (0x1AD, 0x1AD, 1, 0x1AC);
   (0x1B0, 0x1B0, 1, 0x1AF); (0x1B4, 0x1B6, 2, 0x1B3);
   (0x1B9, 0x1B9, 1, 0x1B8); (0x1BD, 0x1BD, 1, 0x1BC);
   (0x1BF, 0x1BF, 1, 0x1F7); (0x1C5, 0x1C5, 1, 0x1C4);
   (0x1C6, 0x1C6, 1, 0x1C4); (0x1C8, 0x1C8, 1, 0x1C7);
   (0x1C9, 0x1C9, 1, 0x1C7); (0x1CB, 0x1CB, 1, 0x1CA);
   (0x1CC, 0x1CC, 1, 0x1CA); (0x1CE, 0x1DC, 2, 0x1CD);
   (0x1DD, 0x1DD, 1, 0x18E); (0x1DF, 0x1EF, 2, 0x1DE);
   (0x1F2, 0x1F2, 1, 0x1F1); (0x1F3, 0x1F3, 1, 0x1F1);
   (0x1F5, 0x1F5, 1, 0x1F4); (0x1F9, 0x21F, 2, 0x1F8);
   (0x223, 0x233, 2, 0x222); (0x23C, 0x23C, 1, 0x23B);
   (0x23F, 0x240, 1, 0x2C7E); (0x242, 0x242, 1, 0x241);
   (0x247, 0x24F, 2, 0x246); (0x250, 0x250, 1, 0x2C6F);
   (0x251, 0x251, 1, 0x2C6D); (0x252, 0x252, 1, 0x2C70);
   (0x253, 0x253, 1, 0x181); (0x254, 0x254, 1, 0x186);
   (0x256, 0x257, 1, 0x189); (0x259, 0x259, 1, 0x18F);
   (0x25B, 0x25B, 1, 0x190); (0x25C, 0x25C, 1, 0xA7AB);
   (0x260, 0x260, 1, 0x193); (0x261, 0x261, 1, 0xA7AC);
   (0x263, 0x263, 1, 0x194); (0x265, 0x265, 1, 0xA78D);
   (0x266, 0x266, 1, 0xA7AA); (0x268, 0x268, 1, 0x197);
   (0x269, 0x269, 1, 0x196); (0x26A, 0x26A, 1, 0xA7AE);
   (0x26B, 0x26B, 1, 0x2C62); (0x26C, 0x26C, 1, 0xA7AD);
   (0x26F, 0x26F, 1, 0x19C); (0x271, 0x271, 1, 0x2C6E);
   (0x272, 0x272, 1, 0x19D); (0x275, 0x275, 1, 0x19F);
   (0x27D, 0x27D, 1, 0x2C64); (0x280, 0x280, 1, 0x1A6);
   (0x282, 0x282, 1, 0xA7C5); (0x283, 0x283, 1, 0x1A9);
   (0x287, 0x287, 1, 0xA7B1); (0x288, 0x288, 1, 0x1AE);
   (0x289, 0x289, 1, 0x244); (0x28A, 0x28B, 1, 0x1B1);
   (0x28C, 0x28C, 1, 0x245); (0x292, 0x292, 1, 0x1B7);
   (0x29D, 0x29D, 1, 0xA7B2); (0x29E, 0x29E, 1, 0xA7B0);
   (0x345, 0x345, 1, 0x399); (0x371, 0x373, 2, 0x370);
   (0x377, 0x377, 1, 0x376); (0x37B, 0x37D, 1, 0x3FD);
   (0x3AC, 0x3AC, 1, 0x386); (0x3AD, 0x3AF, 1, 0x388);
   (0x3B1, 0x3C1, 1, 0x391); (0x3C2, 0x3C2, 1, 0x3A3);
   (0x3C3, 0x3CB, 1, 0x3A3); (0x3CC, 0x3CC, 1, 0x38C);
   (0x3CD, 0x3CE, 1, 0x38E); (0x3D0, 0x3D0, 1, 0x392);
   (0x3D1, 0x3D1, 1, 0x398); (0x3D5, 0x3D5, 1, 0x3A6);
   (0x3D6, 0x3D6, 1, 0x3A0); (0x3D7, 0x3D7, 1, 0x3CF);
   (0x3D9, 0x3EF, 2, 0x3D8); (0x3F0, 0x3F0, 1, 0x39A);
   (0x3F1, 0x3F1, 1, 0x3A1); (0x3F2, 0x3F2, 1, 0x3F9);
   (0x3F3, 0x3F3, 1, 0x37F); (0x3F5, 0x3F5, 1, 0x395);
   (0x3F8, 0x3F8, 1, 0x3F7); (0x3FB, 0x3FB, 1, 0x3FA);
   (0x430, 0x44F, 1, 0x410); (0x450, 0x45F, 1, 0x400);
   (0x461, 0x481, 2, 0x460); (0x48B, 0x4BF, 2, 0x48A);
   (0x4C2, 0x4CE, 2, 0x4C1); (0x4CF, 0x4CF, 1, 0x4C0);
   (0x4D1, 0x52F, 2, 0x4D0); (0x561, 0x586, 1, 0x531);
   (0x10D0, 0x10FA, 1, 0x1C90); (0x10FD, 0x10FF, 1, 0x1CBD);
   (0x13F8, 0x13FD, 1, 0x13F0); (0x1C80, 0x1C80, 1, 0x412);
   (0x1C81, 0x1C81, 1, 0x414); (0x1C82, 0x1C82, 1, 0x41E);
   (0x1C83, 0x1C84, 1, 0x421); (0x1C85, 0x1C85, 1, 0x422);
   (0x1C86, 0x1C86, 1, 0x42A); (0x1C87, 0x1C87, 1, 0x462);
   (0x1C88, 0x1C88, 1, 0xA64A); (0x1D79, 0x1D79, 1, 0xA77D);
   (0x1D7D, 0x1D7D, 1, 0x2C63); (0x1D8E, 0x1D8E, 1, 0xA7C6);
   (0x1E01, 0x1E95, 2, 0x1E00); (0x1E9B, 0x1E9B, 1, 0x1E60);
   (0x1EA1, 0x1EFF, 2, 0x1EA0); (0x1F00, 0x1F07, 1, 0x1F08);
   (0x1F10, 0x1F15, 1, 0x1F18); (0x1F20, 0x1F27, 1, 0x1F28);
   (0x1F30, 0x1F37, 1, 0x1F38); (0x1F40, 0x1F45, 1, 0x1F48);
   (0x1F51, 0x1F57, 2, 0x1F59); (0x1F60, 0x1F67, 1, 0x1F68);
   (0x1F70, 0x1F71, 1, 0x1FBA); (0x1F72, 0x1F75, 1, 0x1FC8);
   (0x1F76, 0x1F77, 1, 0x1FDA); (0x1F78, 0x1F79, 1, 0x1FF8);
   (0x1F7A, 0x1F7B, 1, 0x1FEA); (0x1F7C, 0x1F7D, 1, 0x1FFA);
   (0x1FB0, 0x1FB1, 1, 0x1FB8); (0x1FBE, 0x1FBE, 1, 0x399);
   (0x1FD0, 0x1FD1, 1, 0x1FD8); (0x1FE0, 0x1FE1, 1, 0x1FE8);
   (0x1FE5, 0x1FE5, 1, 0x1FEC); (0x214E, 0x214E, 1, 0x2132);
   (0x2170, 0x217F, 1, 0x2160); (0x2184, 0x2184, 1, 0x2183);
   (0x24D0, 0x24E9, 1, 0x24B6); (0x2C30, 0x2C5F, 1, 0x2C00);
   (0x2C61, 0x2C61, 1, 0x2C60); (0x2C65, 0x2C65, 1, 0x23A);
   (0x2C66, 0x2C66, 1, 0x23E); (0x2C68, 0x2C6C, 2, 0x2C67);
   (0x2C73, 0x2C73, 1, 0x2C72); (0x2C76, 0x2C76, 1, 0x2C75);
   (0x2C81, 0x2CE3, 2, 0x2C80); (0x2CEC, 0x2CEE, 2, 0x2CEB);
   (0x2CF3, 0x2CF3, 1, 0x2CF2); (0x2D00, 0x2D25, 1, 0x10A0);
   (0x2D27, 0x2D27, 1, 0x10C7); (0x2D2D, 0x2D2D, 1, 0x10CD);
   (0xA641, 0xA66D, 2, 0xA640); (0xA681, 0xA69B, 2, 0xA680);
   (0xA723, 0xA72F, 2, 0xA722); (0xA733, 0xA76F, 2, 0xA732);
   (0xA77A, 0xA77C, 2, 0xA779); (0xA77F, 0xA787, 2, 0xA77E);
   (0xA78C, 0xA78C, 1, 0xA78B); (0xA791, 0xA793, 2, 0xA790);
   (0xA794, 0xA794, 1, 0xA7C4); (0xA797, 0xA7A9, 2, 0xA796);
   (0xA7B5, 0xA7C3, 2, 0xA7B4); (0xA7C8, 0xA7CA, 2, 0xA7C7);
   (0xA7D1, 0xA7D1, 1, 0xA7D0); (0xA7D7, 0xA7D9, 2, 0xA7D6);
   (0xA7F6, 0xA7F6, 1, 0xA7F5); (0xAB53, 0xAB53, 1, 0xA7B3);
   (0xAB70, 0xABBF, 1, 0x13A0); (0xFF41, 0xFF5A, 1, 0xFF21);
   (0x10428, 0x1044F, 1, 0x10400); (0x104D8, 0x104FB, 1, 0x104B0);
   (0x10597, 0x105BB, 2, 0x10570); (0x10598, 0x105A0, 2, 0x10571);
   (0x105A4, 0x105B0, 2, 0x1057D); (0x105B4, 0x105B8, 2, 0x1058D);
   (0x105BC, 0x105BC, 1, 0x10595); (0x10CC0, 0x10CF2, 1, 0x10C80);
   (0x118C0, 0x118DF, 1, 0x118A0); (0x16E60, 0x16E7F, 1, 0x16E40);
   (0x1E922, 0x1E943, 1, 0x1E900)]%N.

(** The uppercase form of one code point. *)
Definition upper_cp (c : N) : list N :=
  if (c <? 0x80)%N then
    if ((0x61 <=? c) && (c <=? 0x7A))%N then [(c - 0x20)%N] else [c]
  else
    match List.find (fun e => (fst e =? c)%N) upper_special with
    | Some e => snd e
    | None =>
        match List.find
                (fun e : N * N * N * N =>
                   let '(lo, hi, stride, _) := e in
                   ((lo <=? c) && (c <=? hi)
                    && ((c - lo) mod stride =? 0))%N)
                upper_runs with
        | Some (lo, _, _, image) => [(image + (c - lo))%N]
        | None => [c]
        end
    end.

(** [s.upper()] *)
Definition upper (s : string) : string :=
  encode (flat_map upper_cp (decode s)).

(** [s.startswith(p)] *)
Definition startswith (s p : string) : bool := String.prefix p s.

(** ** Python values used by the scoring code *)

(** An attribute that is either [None] or a string ([manufacturer],
    [product], [serial_number], [location]).  Python truthiness: [None] and
    the empty string are false, everything else is true. *)
Definition truthy (o : option string) : bool :=
  match o with
  | None => false
  | Some s => negb (s =? EmptyString)%string
  end.

(** [a == b] on two attributes that are each [None] or a string. *)
Definition attr_eqb (a b : option string) : bool :=
  match a, b with
  | None, None => true
  | Some s, Some t => (s =? t)%string
  | _, _ => false
  end.

(** [a == n] on an attribute that is [None] or an integer, against an
    integer literal. *)
Definition id_eqb (a : option Z) (n : Z) : bool :=
  match a with
  | None => false
  | Some v => v =? n
  end.

(** ** [serial.tools.list_ports] records *)

(** One entry of [comports()].  pyserial fills [vid], [pid],
    [serial_number], [location], [manufacturer] and [product] for USB
    devices only; every other port leaves them [None]. *)
Record ListPortInfo : Type := mkPort {
  device : string;
  manufacturer : option string;
  product : option string;
  vid : option Z;
  pid : option Z;
  serial_number : option string;
  location : option string
}.

(** ** The scorer *)

(** [valid_ser_id(ser_id)]:
    [ser_id and ser_id.upper().startswith("GW")], read as a truth value. *)
Definition valid_ser_id (ser_id : option string) : bool :=
  match ser_id with
  | None => false
  | Some s => negb (s =? EmptyString)%string && startswith (upper s) "GW"
  end.

(** The four tests of the [if]/[elif] chain of [score_port]. *)
Definition is_gw_strings (x : ListPortInfo) : bool :=
  attr_eqb (manufacturer x) (Some "Keir Fraser")
  && attr_eqb (product x) (Some "Greaseweazle").

Definition is_gw_ids (x : ListPortInfo) : bool :=
  id_eqb (vid x) 0x1209 && id_eqb (pid x) 0x4d69.

Definition is_test_ids (x : ListPortInfo) : bool :=
  id_eqb (vid x) 0x1209 && id_eqb (pid x) 0x0001.

Definition is_board_vendor (x : ListPortInfo) : bool :=
  id_eqb (vid x) 0x2E8A || id_eqb (vid x) 0x239A.

(** Lines 218-229: the score after the identity chain. *)
Definition base_score (x : ListPortInfo) : Z :=
  if is_gw_strings x then 20
  else if is_gw_ids x then 20
  else if is_test_ids x then 10
  else if is_board_vendor x then 5
  else 0.

(** Lines 230-238: the serial rule, applied to the running score. *)
Definition serial_rule (x : ListPortInfo) (old_port : option ListPortInfo)
    (score : Z) : Z :=
  if (0 <? score) && valid_ser_id (serial_number x) then
    match old_port with
    | None => 20
    | Some o =>
        if negb (valid_ser_id (serial_number o)) then 20
        else if attr_eqb (serial_number x) (serial_number o) then 30
        else 0
    end
  else score.

(** Lines 239-245: the location filter, applied to the running score. *)
Definition location_rule (x : ListPortInfo) (old_port : option ListPortInfo)
    (score : Z) : Z :=
  match old_port with
  | None => score
  | Some o =>
      if truthy (location o) then
        if negb (truthy (location x))
           || negb (attr_eqb (location x) (location o))
        then 0 else score
      else score
  end.

(** [score_port(x, old_port=None)] *)
Definition score_port (x : ListPortInfo) (old_port : option ListPortInfo) : Z :=
  let score := base_score x in
  let score := serial_rule x old_port score in
  let score := location_rule x old_port score in
  score.

(** ** Exceptions, actions and the world *)

(** The exceptions that cross the functions below.  [SerialException] is
    pyserial's; [struct_error] is [struct.error]; [TypeError] is raised by a
    [%] format applied to a value of the wrong type; [SystemExit] is what
    [sys.exit] raises; [Fatal] is [error.Fatal]; any other exception of a
    collaborator (such as a command error of the device) is an
    [OtherException]. *)
Inductive exn : Type :=
| SerialException (msg : string)
| struct_error
| TypeError (msg : string)
| Fatal (msg : string)
| SystemExit (status : Z)
| OtherException (name : string).

(** An open channel, [serial.Serial(devicename)]. *)
Record Serial : Type := mkSerial { port : string }.

(** What the constructor of [USB.Unit] reads from the device. *)
Record UnitInfo : Type := mkInfo {
  i_major : Z;
  i_minor : Z;
  i_hw_model : Z;
  i_hw_submodel : Z;
  i_update_mode : bool;
  i_update_jumpered : bool;
  i_update_needed : bool
}.

Module USB.
(** A [USB.Unit] with the attributes [util.py] reads and writes. *)
Record Unit : Type := mkUnit {
  ser : Serial;
  major : Z;
  minor : Z;
  hw_model : Z;
  hw_submodel : Z;
  update_mode : bool;
  update_jumpered : bool;
  update_needed : bool;
  port_info : option ListPortInfo;
  jumperless_update : bool;
  can_mode_switch : bool
}.
End USB.

(** Every action on the host or on the device leaves an event. *)
Inductive event : Type :=
| EvSwitchFwMode (s : Serial) (mode : Z)
| EvClose (s : Serial)
| EvSleep
| EvComports
| EvOpen (devicename : string)
| EvUnit (s : Serial)
| EvPrint (line : string).

(** The world is the history of events, the most recent first. *)
Definition World : Type := list event.

Inductive result (A : Type) : Type :=
| Ok (a : A)
| Raise (e : exn).
Arguments Ok {A} a.
Arguments Raise {A} e.

(** The collaborators: what the host and the device answer, given
    everything that has happened so far. *)
Record Host : Type := mkHost {
  (** [serial.tools.list_ports.comports()] *)
  host_comports : World -> list ListPortInfo;
  (** whether [serial.Serial(devicename)] opens; it raises
      [SerialException] otherwise *)
  host_can_open : World -> string -> bool;
  (** the query made by the constructor of [USB.Unit] *)
  host_query : World -> Serial -> result UnitInfo;
  (** [usb.switch_fw_mode(mode)]: [None] when the command returns *)
  host_switch : World -> Serial -> Z -> option exn;
  (** [platform.system()] and [platform.release()] *)
  platform_system : string;
  platform_release : string
}.

(** ** A state and exception monad *)

Definition M (A : Type) : Type := World -> result A * World.

Definition ret {A} (a : A) : M A := fun w => (Ok a, w).

Definition raise {A} (e : exn) : M A := fun w => (Raise e, w).

Definition bind {A B} (m : M A) (k : A -> M B) : M B :=
  fun w =>
    match m w with
    | (Ok a, w') => k a w'
    | (Raise e, w') => (Raise e, w')
    end.

Declare Scope py_scope.
Delimit Scope py_scope with py.
Notation "x <- m ;; k" := (bind m (fun x => k))
  (at level 100, m at next level, right associativity) : py_scope.
Notation "m ;; k" := (bind m (fun _ => k))
  (at level 100, right associativity) : py_scope.
Open Scope py_scope.

(** [emit e] records one event. *)
Definition emit (e : event) : M unit := fun w => (Ok tt, e :: w).

(** [try: m  except serial.SerialException: pass], telling the [else]
    branch ([Some]) from the handler ([None]). *)
Definition try_serial {A} (m : M A) : M (option A) :=
  fun w =>
    match m w with
    | (Ok a, w') => (Ok (Some a), w')
    | (Raise (SerialException _), w') => (Ok None, w')
    | (Raise e, w') => (Raise e, w')
    end.

(** [try: m  except (serial.SerialException, struct.error): pass] *)
Definition try_serial_struct (m : M unit) : M unit :=
  fun w =>
    match m w with
    | (Ok _, w') => (Ok tt, w')
    | (Raise (SerialException _), w') => (Ok tt, w')
    | (Raise struct_error, w') => (Ok tt, w')
    | (Raise e, w') => (Raise e, w')
    end.

(** [print(line)] *)
Definition print (line : string) : M unit := emit (EvPrint line).

(** [sys.exit(status)] *)
Definition sys_exit {A} (status : Z) : M A := raise (SystemExit status).

(** Modelled from the spec: [error.check] of [greaseweazle/error.py], which
    is not among the sources.  The row of the mode-check table that uses it
    says the operation "fails fatally" when the predicate does not hold;
    the failure carries the description. *)
Definition error_check (pred : bool) (desc : string) : M unit :=
  if pred then ret tt else raise (Fatal desc).

(** ** Text helpers for the diagnostics *)

Definition dquote : string := String (ascii_of_nat 34) EmptyString.
Definition newline : string := String (ascii_of_nat 10) EmptyString.

(** ["%u" % n] *)
Definition str_of_int (n : Z) : string := NilZero.string_of_int (Z.to_int n).

(** [("RXI-TXO" if usb.hw_model != 1 else "DCLK-GND")] *)
Definition update_pins (usb : USB.Unit) : string :=
  if negb (USB.hw_model usb =? 1) then "RXI-TXO" else "DCLK-GND".

(** ** The locator *)

(** The argument of [logging.debug] in the loop of [find_port] is built
    with ["%s (%04X / %04X) with score of %d" % (x, x.vid, x.pid, score)]
    before [logging.debug] is entered; [%X] accepts integers only.  The text
    goes to the debug log and is not observed further. *)
Definition debug_line (x : ListPortInfo) (score : Z) : result unit :=
  match vid x, pid x with
  | Some _, Some _ => Ok tt
  | _, _ => Raise (TypeError "%X format: an integer is required, not NoneType")
  end.

(** The [for] loop of [find_port], over one enumeration. *)
Fixpoint find_port_loop (old_port : option ListPortInfo)
    (ports : list ListPortInfo) (best_score : Z)
    (best_port : option ListPortInfo) : result (Z * option ListPortInfo) :=
  match ports with
  | [] => Ok (best_score, best_port)
  | x :: rest =>
      let score := score_port x old_port in
      match debug_line x score with
      | Raise e => Raise e
      | Ok _ =>
          if best_score <? score
          then find_port_loop old_port rest score (Some x)
          else find_port_loop old_port rest best_score best_port
      end
  end.

(** The body of [find_port] once [comports()] has answered [ports]. *)
Definition select_port (old_port : option ListPortInfo)
    (ports : list ListPortInfo) : result string :=
  match find_port_loop old_port ports 0 None with
  | Raise e => Raise e
  | Ok (_, Some best_port) => Ok (device best_port)
  | Ok (_, None) =>
      Raise (SerialException "Cannot find the Greaseweazle device")
  end.

Section Program.

Variable H : Host.

(** [serial.tools.list_ports.comports()] *)
Definition comports : M (list ListPortInfo) :=
  fun w => (Ok (host_comports H w), EvComports :: w).

(** [serial.Serial(devicename)] *)
Definition serial_Serial (devicename : string) : M Serial :=
  fun w =>
    (if host_can_open H w devicename
     then Ok (mkSerial devicename)
     else Raise (SerialException "could not open port"),
     EvOpen devicename :: w).

(** [USB.Unit(ser)], as far as the device query goes. *)
Definition USB_Unit (s : Serial) : M UnitInfo :=
  fun w => (host_query H w s, EvUnit s :: w).

(** [usb.switch_fw_mode(mode)] *)
Definition switch_fw_mode (usb : USB.Unit) (mode : Z) : M unit :=
  fun w =>
    (match host_switch H w (USB.ser usb) mode with
     | None => Ok tt
     | Some e => Raise e
     end,
     EvSwitchFwMode (USB.ser usb) mode :: w).

(** [ser.close()] *)
Definition close (s : Serial) : M unit := emit (EvClose s).

(** [time.sleep(0.5)] *)
Definition sleep_half : M unit := emit EvSleep.

(** [find_port(old_port=None)] *)
Definition find_port (old_port : option ListPortInfo) : M string :=
  ports <- comports ;;
  match select_port old_port ports with
  | Ok devicename => ret devicename
  | Raise e => raise e
  end.

(** [port_info(devname)] *)
Definition port_info (devname : string) : M (option ListPortInfo) :=
  ports <- comports ;;
  ret (List.find (fun x => (device x =? devname)%string) ports).

(** The record a fresh [USB.Unit] becomes once [port_info],
    [jumperless_update] and [can_mode_switch] have been assigned. *)
Definition make_unit (s : Serial) (i : UnitInfo)
    (pinfo : option ListPortInfo) (jumperless can_switch : bool)
    : USB.Unit :=
  USB.mkUnit s (i_major i) (i_minor i) (i_hw_model i) (i_hw_submodel i)
    (i_update_mode i) (i_update_jumpered i) (i_update_needed i)
    pinfo jumperless can_switch.

(** One iteration of the [for] loop of [usb_reopen]: [Some new_usb] when
    the iteration returns, [None] when it falls through to the next. *)
Definition reopen_attempt (usb : USB.Unit) : M (option USB.Unit) :=
  sleep_half ;;
  r <- try_serial (devicename <- find_port (USB.port_info usb) ;;
                   new_ser <- serial_Serial devicename ;;
                   ret (devicename, new_ser)) ;;
  match r with
  | None => ret None
  | Some (devicename, new_ser) =>
      i <- USB_Unit new_ser ;;
      pinfo <- port_info devicename ;;
      ret (Some (make_unit new_ser i pinfo
                   (USB.jumperless_update usb) (USB.can_mode_switch usb)))
  end.

(** [for i in range(n): ...] followed by the final [raise]. *)
Fixpoint reopen_loop (n : nat) (usb : USB.Unit) : M USB.Unit :=
  match n with
  | O => raise (SerialException "Could not reopen port after mode switch")
  | S k =>
      r <- reopen_attempt usb ;;
      match r with
      | Some new_usb => ret new_usb
      | None => reopen_loop k usb
      end
  end.

(** [mode = { False: 1, True: 0 }] *)
Definition mode_of (is_update : bool) : Z := if is_update then 0 else 1.

(** [usb_reopen(usb, is_update)] *)
Definition usb_reopen (usb : USB.Unit) (is_update : bool) : M USB.Unit :=
  try_serial_struct (switch_fw_mode usb (mode_of is_update)) ;;
  close (USB.ser usb) ;;
  reopen_loop 10 usb.

(** [print_update_instructions(usb)] *)
Definition print_update_instructions (usb : USB.Unit) : M unit :=
  print "To perform an Update:" ;;
  (if negb (USB.jumperless_update usb) then
     print " - Disconnect from USB" ;;
     print (" - Install the Update Jumper at pins " ++ update_pins usb) ;;
     print " - Reconnect to USB"
   else ret tt) ;;
  print (" - Run " ++ dquote ++ "gw update" ++ dquote
         ++ " to download and install latest firmware").

(** Lines 309-317: the device is in update mode and stays there. *)
Definition fail_in_update_mode (usb : USB.Unit) : M USB.Unit :=
  print "ERROR: Greaseweazle is in Firmware Update Mode" ;;
  print (" - The only available action is " ++ dquote ++ "gw update"
         ++ dquote) ;;
  (if USB.update_jumpered usb then
     print (" - For normal operation disconnect from USB and remove "
            ++ "the Update Jumper at pins " ++ update_pins usb)
   else
     print " - Main firmware is erased: You *must* perform an update!") ;;
  sys_exit 1.

(** Lines 326-328. *)
Definition fail_not_in_update_mode (usb : USB.Unit) : M USB.Unit :=
  print "ERROR: Greaseweazle is not in Firmware Update Mode" ;;
  print_update_instructions usb ;;
  sys_exit 1.

(** Lines 331-334. *)
Definition fail_unsupported (usb : USB.Unit) : M USB.Unit :=
  print ("ERROR: Greaseweazle firmware v" ++ str_of_int (USB.major usb)
         ++ "." ++ str_of_int (USB.minor usb) ++ " is unsupported") ;;
  print_update_instructions usb ;;
  sys_exit 1.

(** The description handed to [error.check] at lines 322-324. *)
Definition not_switched_msg : string :=
  "Greaseweazle did not change to Firmware Update Mode as requested."
  ++ newline
  ++ "If the problem persists, install the Update Jumper at pins RXI-TXO.".

(** [usb_mode_check(usb, is_update)] *)
Definition usb_mode_check (usb : USB.Unit) (is_update : bool)
    : M USB.Unit :=
  if USB.update_mode usb && negb is_update then
    if USB.can_mode_switch usb then
      usb' <- usb_reopen usb is_update ;;
      if negb (USB.update_mode usb') then ret usb'
      else fail_in_update_mode usb'
    else fail_in_update_mode usb
  else if is_update && negb (USB.update_mode usb) then
    if USB.can_mode_switch usb then
      usb' <- usb_reopen usb is_update ;;
      error_check (USB.update_mode usb') not_switched_msg ;;
      ret usb'
    else fail_not_in_update_mode usb
  else if negb (USB.update_mode usb) && USB.update_needed usb then
    fail_unsupported usb
  else ret usb.

(** [is_win7] of [usb_open] *)
Definition is_win7 : bool :=
  (platform_system H =? "Windows")%string
  && (platform_release H =? "7")%string.

(** Lines 341-350 of [usb_open]: the session before the mode check. *)
Definition open_unit (devicename : option string) : M USB.Unit :=
  devicename <- match devicename with
                | None => find_port None
                | Some d => ret d
                end ;;
  s <- serial_Serial devicename ;;
  i <- USB_Unit s ;;
  pinfo <- port_info devicename ;;
  let jumperless :=
    negb ((i_hw_model i =? 1) && (i_hw_submodel i =? 0)) && negb is_win7 in
  let can_switch :=
    jumperless && negb (i_update_mode i && i_update_jumpered i) in
  ret (make_unit s i pinfo jumperless can_switch).

(** [usb_open(devicename, is_update=False, mode_check=True)] *)
Definition usb_open (devicename : option string) (is_update : bool)
    (mode_check : bool) : M USB.Unit :=
  usb <- open_unit devicename ;;
  if mode_check then usb_mode_check usb is_update else ret usb.

End Program.

(** ** Predicates used to state the properties *)

(** The location filter lets the candidate through: the previous port has
    no bus location, or the candidate has one and it is the same. *)
Definition location_passes (x o : ListPortInfo) : bool :=
  negb (truthy (location o))
  || (truthy (location x) && attr_eqb (location x) (location o)).

(** One of the four identity tests of the scorer holds. *)
Definition recognized (x : ListPortInfo) : bool :=
  is_gw_strings x || is_gw_ids x || is_test_ids x || is_board_vendor x.

(** ** Sample ports *)

(** A Greaseweazle as enumerated on Linux. *)
Definition gw_port : ListPortInfo :=
  mkPort "/dev/ttyACM0" (Some "Keir Fraser") (Some "Greaseweazle")
         (Some 0x1209) (Some 0x4d69) (Some "GW0123456789") (Some "1-1").

(** The same unit seen on another bus location. *)
Definition gw_port_moved : ListPortInfo :=
  mkPort "/dev/ttyACM1" (Some "Keir Fraser") (Some "Greaseweazle")
         (Some 0x1209) (Some 0x4d69) (Some "GW0123456789") (Some "1-2").

(** A previous port that reported a location but no serial identifier. *)
Definition old_port_no_serial : ListPortInfo :=
  mkPort "/dev/ttyACM0" (Some "Keir Fraser") (Some "Greaseweazle")
         (Some 0x1209) (Some 0x4d69) None (Some "1-1").

(** A second Greaseweazle, with its own serial identifier. *)
Definition other_gw_port : ListPortInfo :=
  mkPort "/dev/ttyACM2" (Some "Keir Fraser") (Some "Greaseweazle")
         (Some 0x1209) (Some 0x4d69) (Some "GW9999999999") (Some "1-1").

(** A board on the old shared test PID, without serial identifier. *)
Definition test_pid_port : ListPortInfo :=
  mkPort "/dev/ttyACM3" None None (Some 0x1209) (Some 0x0001) None None.

(** A Raspberry Pi Pico running something. *)
Definition pico_port : ListPortInfo :=
  mkPort "/dev/ttyACM4" (Some "Raspberry Pi") (Some "Pico")
         (Some 0x2E8A) (Some 0x000A) (Some "E660583883") (Some "1-3").

(** An FTDI adapter: a USB port the scorer does not know. *)
Definition ftdi_port : ListPortInfo :=
  mkPort "/dev/ttyUSB0" (Some "FTDI") (Some "FT232R USB UART")
         (Some 0x0403) (Some 0x6001) (Some "A50285BI") (Some "1-4").

(** A motherboard serial port: not a USB device, so pyserial leaves every
    USB attribute [None]. *)
Definition builtin_port : ListPortInfo :=
  mkPort "/dev/ttyS0" None None None None None None.

(** The Greaseweazle after a re-enumeration: new device path, same serial
    identifier, same bus location. *)
Definition gw_port_renamed : ListPortInfo :=
  mkPort "/dev/ttyACM1" (Some "Keir Fraser") (Some "Greaseweazle")
         (Some 0x1209) (Some 0x4d69) (Some "GW0123456789") (Some "1-1").

(** A serial identifier in small letters whose second letter is U+1E98, a
    w with a ring above: its uppercase form is W followed by the combining
    ring U+030A. *)
Definition ringed_serial : string :=
  String "g" (String (ascii_of_nat 225) (String (ascii_of_nat 186)
    (String (ascii_of_nat 152) "1"))).

(** A Greaseweazle that reports this serial identifier. *)
Definition ringed_port : ListPortInfo :=
  mkPort "/dev/ttyACM0" (Some "Keir Fraser") (Some "Greaseweazle")
         (Some 0x1209) (Some 0x4d69) (Some ringed_serial) None.

(** ** Observations on a history *)

(** Number of [time.sleep(0.5)] calls. *)
Fixpoint sleeps (w : World) : nat :=
  match w with
  | [] => O
  | EvSleep :: r => S (sleeps r)
  | _ :: r => sleeps r
  end.

(** The printed lines, the most recent first. *)
Fixpoint printed (w : World) : list string :=
  match w with
  | [] => []
  | EvPrint line :: r => line :: printed r
  | _ :: r => printed r
  end.

(** The world in which the retry loop of [usb_reopen] starts: the
    mode-change command has been issued and the channel closed. *)
Definition loop_entry (usb : USB.Unit) (is_update : bool) (w : World)
    : World :=
  EvClose (USB.ser usb) :: EvSwitchFwMode (USB.ser usb) (mode_of is_update)
  :: w.

(** [attempts_fail H usb n w w']: from [w], [n] successive iterations of the
    retry loop fall through to the next one, leaving the world [w']. *)
Inductive attempts_fail (H : Host) (usb : USB.Unit)
    : nat -> World -> World -> Prop :=
| attempts_fail_O : forall w, attempts_fail H usb O w w
| attempts_fail_S : forall n w w' w'',
    reopen_attempt H usb w = (Ok None, w') ->
    attempts_fail H usb n w' w'' ->
    attempts_fail H usb (S n) w w''.

(** The port carries a vendor ID and a product ID, as USB ports do. *)
Definition has_ids (x : ListPortInfo) : bool :=
  match vid x, pid x with
  | Some _, Some _ => true
  | _, _ => false
  end.

(** The outcome [out] of a computation started in [w] is a call of
    [sys.exit(1)] after at least one line has been printed, and nothing
    else has happened. *)
Definition exits_with_diagnostic {A} (out : result A * World) (w : World)
    : Prop :=
  fst out = Raise (SystemExit 1)
  /\ exists lines, lines <> [] /\ snd out = (map EvPrint lines ++ w)%list.

(** ** Simulated hosts *)

(** A host whose enumeration never changes; the device is in normal mode. *)
Definition static_host (ports : list ListPortInfo) : Host :=
  mkHost (fun _ => ports)
         (fun _ d => existsb (fun x => (device x =? d)%string) ports)
         (fun _ _ => Ok (mkInfo 1 3 4 0 false false false))
         (fun _ _ _ => None)
         "Linux" "6.1".

(** The mode most recently requested with [switch_fw_mode], if any. *)
Fixpoint last_switch (w : World) : option Z :=
  match w with
  | [] => None
  | EvSwitchFwMode _ mode :: _ => Some mode
  | _ :: r => last_switch r
  end.

(** Number of sleeps since the channel was last closed; [None] when it
    never was. *)
Fixpoint sleeps_since_close (w : World) : option nat :=
  match w with
  | [] => None
  | EvClose _ :: _ => Some O
  | EvSleep :: r => option_map S (sleeps_since_close r)
  | _ :: r => sleeps_since_close r
  end.

(** A host with one Greaseweazle and one FTDI adapter.  The device starts
    in update mode when [initial_update]; when [obeys] it reboots into the
    requested mode on [switch_fw_mode], dropping the line before it
    replies, and is back under a new path after [absent_for] polls. *)
Definition sim_host (initial_update obeys : bool) (absent_for : nat) : Host :=
  mkHost
    (fun w =>
       match sleeps_since_close w with
       | None => [ftdi_port; gw_port]
       | Some n =>
           if Nat.leb absent_for n then [ftdi_port; gw_port_renamed]
           else [ftdi_port]
       end)
    (fun w d =>
       match sleeps_since_close w with
       | None => (d =? "/dev/ttyACM0")%string
       | Some n => Nat.leb absent_for n && (d =? "/dev/ttyACM1")%string
       end)
    (fun w _ =>
       let upd :=
         match last_switch w with
         | Some mode => if obeys then mode =? 0 else initial_update
         | None => initial_update
         end in
       Ok (mkInfo 1 3 4 0 upd false false))
    (fun _ _ _ =>
       Some (SerialException
               "device reports readiness to read but returned no data"))
    "Linux" "6.1".

(** A session on the simulated device, in update mode. *)
Definition unit_in_update_mode : USB.Unit :=
  USB.mkUnit (mkSerial "/dev/ttyACM0") 1 3 4 0 true false false
             (Some gw_port) true true.

(** A session on the simulated device, in normal mode. *)
Definition unit_in_normal_mode : USB.Unit :=
  USB.mkUnit (mkSerial "/dev/ttyACM0") 1 3 4 0 false false false
             (Some gw_port) true true.

(** A session on a device held in update mode by the update jumper. *)
Definition unit_jumpered : USB.Unit :=
  USB.mkUnit (mkSerial "/dev/ttyACM0") 1 3 4 0 true true false
             (Some gw_port) true false.

(** A session on an F1 board running firmware that needs an update. *)
Definition unit_outdated : USB.Unit :=
  USB.mkUnit (mkSerial "/dev/ttyACM0") 0 24 1 0 false false true
             (Some gw_port) false false.

(** A host whose device answers the mode-change command with a failure
    response, which [USB.Unit] raises as a command error. *)
Definition refusing_host : Host :=
  mkHost (fun _ => [ftdi_port; gw_port])
         (fun _ d => (d =? "/dev/ttyACM0")%string)
         (fun _ _ => Ok (mkInfo 1 3 4 0 true false false))
         (fun _ _ _ => Some (OtherException "CmdError"))
         "Linux" "6.1".

(** A host like [sim_host] whose device obeys at once, and whose main
    firmware is so old that every query answers [update_needed]. *)
Definition outdated_host : Host :=
  mkHost
    (fun w =>
       match sleeps_since_close w with
       | None => [ftdi_port; gw_port]
       | Some _ => [ftdi_port; gw_port_renamed]
       end)
    (fun w d =>
       match sleeps_since_close w with
       | None => (d =? "/dev/ttyACM0")%string
       | Some _ => (d =? "/dev/ttyACM1")%string
       end)
    (fun w _ =>
       let upd :=
         match last_switch w with
         | Some mode => mode =? 0
         | None => true
         end in
       Ok (mkInfo 0 24 4 0 upd false true))
    (fun _ _ _ =>
       Some (SerialException
               "device reports readiness to read but returned no data"))
    "Linux" "6.1".

(** A session on that device, in update mode. *)
Definition unit_outdated_in_update_mode : USB.Unit :=
  USB.mkUnit (mkSerial "/dev/ttyACM0") 0 24 4 0 true false true
             (Some gw_port) true true.

(** ** The command-line helpers of [util.py] *)

(** [s.split(sep)] for a one-character separator: the piece before the
    first separator, and the pieces after it. *)
Fixpoint split_char (sep : ascii) (s : string) : string * list string :=
  match s with
  | EmptyString => (EmptyString, [])
  | String c r =>
      let (h, t) := split_char sep r in
      if Ascii.eqb c sep then (EmptyString, h :: t) else (String c h, t)
  end.

Definition split (sep : ascii) (s : string) : list string :=
  let (h, t) := split_char sep s in h :: t.

(** [s.split('::')]: separators are found from the left and do not
    overlap. *)
Fixpoint split_dcolon_pieces (s : string) : string * list string :=
  match s with
  | EmptyString => (EmptyString, [])
  | String c r =>
      match r with
      | String c' r' =>
          if Ascii.eqb c ":" && Ascii.eqb c' ":" then
            let (h, t) := split_dcolon_pieces r' in (EmptyString, h :: t)
          else
            let (h, t) := split_dcolon_pieces r in (String c h, t)
      | EmptyString => (String c EmptyString, [])
      end
  end.

(** [USB.BusType], as far as [drive_letter] names it. *)
Inductive BusType : Type := IBMPC | Shugart.

(** A dict with string keys, in insertion order. *)
Fixpoint dict_get {V} (d : list (string * V)) (k : string) : option V :=
  match d with
  | [] => None
  | (k', v) :: r => if (k' =? k)%string then Some v else dict_get r k
  end.

(** [d[k] = v]: an existing key keeps its place. *)
Fixpoint dict_set {V} (d : list (string * V)) (k : string) (v : V)
    : list (string * V) :=
  match d with
  | [] => [(k, v)]
  | (k', v') :: r =>
      if (k' =? k)%string then (k', v) :: r else (k', v') :: dict_set r k v
  end.

(** The [types] table of [drive_letter]. *)
Definition drive_types : list (string * (BusType * Z)) :=
  [("A", (IBMPC, 0)); ("B", (IBMPC, 1));
   ("0", (Shugart, 0)); ("1", (Shugart, 1)); ("2", (Shugart, 2))].

(** [drive_letter(letter)]; [inr] is the [argparse.ArgumentTypeError]
    with its message. *)
Definition drive_letter (letter : string) : (BusType * Z) + string :=
  match dict_get drive_types (upper letter) with
  | Some v => inl v
  | None => inr ("invalid drive letter: '" ++ letter ++ "'")
  end.

(** The text added for the pair [p] of [range_str], without the comma:
    ['%d' % p[0]] when both ends are equal, ['%d-%d' % p] otherwise. *)
Definition fmt_run (p : Z * Z) : string :=
  if fst p =? snd p then str_of_int (fst p)
  else str_of_int (fst p) ++ "-" ++ str_of_int (snd p).

(** The [for] loop of [range_str], on the pair [p] and the text [str]. *)
Fixpoint range_str_loop (l : list Z) (p : option (Z * Z)) (str : string)
    : option (Z * Z) * string :=
  match l with
  | [] => (p, str)
  | i :: r =>
      match p with
      | Some (a, b) =>
          if i =? b + 1 then range_str_loop r (Some (a, i)) str
          else range_str_loop r (Some (i, i)) (str ++ fmt_run (a, b) ++ ",")
      | None => range_str_loop r (Some (i, i)) str
      end
  end.

(** [range_str(l)] *)
Definition range_str (l : list Z) : string :=
  match l with
  | [] => "<none>"
  | _ =>
      let (p, str) := range_str_loop l None EmptyString in
      match p with
      | Some q => str ++ fmt_run q
      | None => str
      end
  end.

(** The value of an option of [split_opts]: a string, or [True]. *)
Inductive opt_value : Type :=
| OptStr (val : string)
| OptTrue.

(** The [try]/[except ValueError] of [split_opts]: [opt, val = y.split('=')]
    succeeds when there are exactly two pieces. *)
Definition split_opt (y : string) : string * opt_value :=
  match split "=" y with
  | [opt; val] => (opt, OptStr val)
  | _ => (y, OptTrue)
  end.

(** The inner [for y in x] loop of [split_opts]. *)
Definition add_opts (opts : list (string * opt_value)) (x : list string)
    : list (string * opt_value) :=
  fold_left (fun opts y =>
               let (opt, val) := split_opt y in
               if truthy (Some opt) then dict_set opts opt val else opts)
            x opts.

(** [split_opts(seq)] *)
Definition split_opts (seq : string) : string * list (string * opt_value) :=
  let (name, parts) := split_dcolon_pieces seq in
  (name, fold_left add_opts (map (split ":") parts) []).

(** ** [with_drive_selected] *)

Module Drive.

(** What the drive commands and the callee can raise. *)
Inductive exn : Type :=
| KeyboardInterrupt
| Error (name : string).

(** The calls made on [usb], and the bare [print()]. *)
Inductive event : Type :=
| SetBusType (bus : BusType)
| Select (unit : Z)
| Motor (unit : Z) (on : bool)
| Reset
| Deselect
| PrintNewline
| Callee (note : string).

(** The history of calls, the most recent first. *)
Definition World : Type := list event.

(** A computation: [None] when it returns, [Some e] when it raises. *)
Definition Cmd : Type := World -> option exn * World.

(** What each command of the device answers, given the calls so far. *)
Record Device : Type := mkDevice {
  answer : World -> event -> option exn
}.

(** One call on the device. *)
Definition call (D : Device) (e : event) : Cmd :=
  fun w => (answer D w e, e :: w).

(** [c1; c2] *)
Definition seq (c1 c2 : Cmd) : Cmd :=
  fun w =>
    match c1 w with
    | (None, w') => c2 w'
    | (Some e, w') => (Some e, w')
    end.

(** [try: body  except KeyboardInterrupt: handler; raise  finally: cleanup] *)
Definition try_interrupt_finally (body handler cleanup : Cmd) : Cmd :=
  fun w =>
    let (pending, w1) :=
      match body w with
      | (Some KeyboardInterrupt, w') =>
          match handler w' with
          | (None, w'') => (Some KeyboardInterrupt, w'')
          | (Some e, w'') => (Some e, w'')
          end
      | other => other
      end in
    match cleanup w1 with
    | (None, w2) => (pending, w2)
    | (Some e, w2) => (Some e, w2)
    end.

(** The body of the [try] of [with_drive_selected]: select the drive,
    start the motor ([_kwargs.pop('motor', True)]), call [fn]. *)
Definition body (D : Device) (fn : Cmd) (unit : Z) (motor : option bool)
    : Cmd :=
  seq (call D (Select unit))
      (seq (call D (Motor unit (match motor with
                                | Some m => m
                                | None => true
                                end)))
           fn).

(** [with_drive_selected(fn, usb, args, *_args, **_kwargs)], with
    [args.drive = (bus, unit)], [motor] the keyword argument of that name if
    there is one, and [fn] the callee applied to its arguments. *)
Definition with_drive_selected (D : Device) (fn : Cmd)
    (drive : BusType * Z) (motor : option bool) : Cmd :=
  seq (call D (SetBusType (fst drive)))
      (try_interrupt_finally
         (body D fn (snd drive) motor)
         (seq (fun w => (None, PrintNewline :: w)) (call D Reset))
         (seq (call D (Motor (snd drive) false)) (call D Deselect))).

(** What the [except KeyboardInterrupt] clause makes of the outcome [r] of
    the body in the world [wb]: the exception then pending, and the world
    after [print()] and [usb.reset()] where the clause ran. *)
Definition handled (D : Device) (r : option exn) (wb : World)
    : option exn * World :=
  match r with
  | Some KeyboardInterrupt =>
      (match answer D (PrintNewline :: wb) Reset with
       | Some e => Some e
       | None => Some KeyboardInterrupt
       end,
       Reset :: PrintNewline :: wb)
  | _ => (r, wb)
  end.

(** A device whose commands all return. *)
Definition steady : Device := mkDevice (fun _ _ => None).

(** A callee that reads a track and returns. *)
Definition read_track : Cmd := fun w => (None, Callee "read" :: w).

(** A callee interrupted from the keyboard while it reads. *)
Definition read_interrupted : Cmd :=
  fun w => (Some KeyboardInterrupt, Callee "read" :: w).

End Drive.

(** ** [TrackSet] *)

(** The code points Python counts as decimal digits (general category Nd
    of Unicode 14.0.0) come in runs of ten, from the digit zero to the
    digit nine of a script; [decimal_zeros] lists the zeros. *)
Definition decimal_zeros : list N :=
  [0x30; 0x660; 0x6F0; 0x7C0; 0x966; 0x9E6; 0xA66; 0xAE6; 0xB66; 0xBE6;
   0xC66; 0xCE6; 0xD66; 0xDE6; 0xE50; 0xED0; 0xF20; 0x1040; 0x1090; 0x17E0;
   0x1810; 0x1946; 0x19D0; 0x1A80; 0x1A90; 0x1B50; 0x1BB0; 0x1C40; 0x1C50;
   0xA620; 0xA8D0; 0xA900; 0xA9D0; 0xA9F0; 0xAA50; 0xABF0; 0xFF10; 0x104A0;
   0x10D30; 0x11066; 0x110F0; 0x11136; 0x111D0; 0x112F0; 0x11450; 0x114D0;
   0x11650; 0x116C0; 0x11730; 0x118E0; 0x11950; 0x11C50; 0x11D50; 0x11DA0;
   0x16A60; 0x16AC0; 0x16B50; 0x1D7CE; 0x1D7D8; 0x1D7E2; 0x1D7EC; 0x1D7F6;
   0x1E140; 0x1E2F0; 0x1E950; 0x1FBF0]%N.

(** The value of a decimal digit: what [int] reads it as.  [\d] matches the
    code points that have one. *)
Definition decimal_value (c : N) : option Z :=
  match List.find (fun z => ((z <=? c) && (c <? z + 10))%N) decimal_zeros with
  | Some z => Some (Z.of_N (c - z))
  | None => None
  end.

(** What a pattern ending in [$] has to match in full: [$] stands at the
    end of the string, or just before a newline that ends it. *)
Fixpoint chop_newline (s : string) : string :=
  match s with
  | EmptyString => EmptyString
  | String c r =>
      match r with
      | EmptyString =>
          if Ascii.eqb c (ascii_of_nat 10) then EmptyString else s
      | _ => String c (chop_newline r)
      end
  end.

(** [(\d\d?)] at the start of the code points [l], followed by [int] on
    the group: the integer read and the code points that follow. *)
Definition take_cyl (l : list N) : option (Z * list N) :=
  match l with
  | [] => None
  | a :: r =>
      match decimal_value a with
      | None => None
      | Some da =>
          match r with
          | b :: r' =>
              match decimal_value b with
              | Some db => Some (10 * da + db, r')
              | None => Some (da, r)
              end
          | [] => Some (da, r)
          end
      end
  end.

(** [([01])] at the start of [l], followed by [int] on the group. *)
Definition take_head (l : list N) : option (Z * list N) :=
  match l with
  | [] => None
  | a :: r =>
      if ((a =? 0x30) || (a =? 0x31))%N then Some (Z.of_N (a - 0x30), r)
      else None
  end.

(** [re.match('(N)(-(N))?$', text)] for [N] read by [take], followed by
    the assignment of [s, e]: group 1 twice when group 3 is missing. *)
Definition match_range (take : list N -> option (Z * list N))
    (text : string) : option (Z * Z) :=
  match take (decode (chop_newline text)) with
  | None => None
  | Some (s, []) => Some (s, s)
  | Some (s, c :: r) =>
      if (c =? 0x2D)%N then
        match take r with
        | Some (e, []) => Some (s, e)
        | _ => None
        end
      else None
  end.

(** [for c in range(s, e+1): flags[c] = True], on the flags from index [i]
    on.  The ranges read by the two patterns end below the length of the
    flags, so that no assignment is out of range. *)
Fixpoint mark (flags : list bool) (i s e : Z) : list bool :=
  match flags with
  | [] => []
  | b :: r => ((s <=? i) && (i <=? e) || b)%bool :: mark r (i + 1) s e
  end.

(** [for c in range(len(flags)): if flags[c]: l.append(c)], from index [i]
    on. *)
Fixpoint marked (flags : list bool) (i : Z) : list Z :=
  match flags with
  | [] => []
  | b :: r => if b then i :: marked r (i + 1) else marked r (i + 1)
  end.

(** The loop over [v.split(',')]; [None] is [ValueError]. *)
Fixpoint mark_ranges (take : list N -> option (Z * list N))
    (texts : list string) (flags : list bool) : option (list bool) :=
  match texts with
  | [] => Some flags
  | t :: r =>
      match match_range take t with
      | None => None
      | Some (s, e) => mark_ranges take r (mark flags 0 s e)
      end
  end.

(** [re.match('h([01]).off$', k)] followed by [int] on the group: the head
    number.  The dot of the pattern is any one code point but a newline. *)
Definition match_hoff (k : string) : option Z :=
  match decode (chop_newline k) with
  | [h; d; x; o; f; f'] =>
      if ((h =? 0x68) && ((d =? 0x30) || (d =? 0x31)) && negb (x =? 0x0A)
          && (o =? 0x6F) && (f =? 0x66) && (f' =? 0x66))%N
      then Some (Z.of_N (d - 0x30)) else None
  | _ => None
  end.

(** [re.match('([+-][\d])$', v)] followed by [int(m.group(1))]. *)
Definition match_offset (v : string) : option Z :=
  match decode (chop_newline v) with
  | [sg; d] =>
      match decimal_value d with
      | Some n =>
          if (sg =? 0x2B)%N then Some n
          else if (sg =? 0x2D)%N then Some (- n)
          else None
      | None => None
      end
  | _ => None
  end.

(** The place of the index [i] in a list of length [len]: Python counts
    negative indices from the end; [None] is [IndexError]. *)
Definition list_index (len : nat) (i : Z) : option nat :=
  if (0 <=? i) && (i <? Z.of_nat len) then Some (Z.to_nat i)
  else if (- Z.of_nat len <=? i) && (i <? 0)
       then Some (Z.to_nat (Z.of_nat len + i))
       else None.

(** [l[i]] *)
Definition list_get (l : list Z) (i : Z) : option Z :=
  match list_index (List.length l) i with
  | Some n => nth_error l n
  | None => None
  end.

Fixpoint replace_nth (l : list Z) (n : nat) (v : Z) : list Z :=
  match l, n with
  | [], _ => []
  | _ :: r, O => v :: r
  | a :: r, S k => a :: replace_nth r k v
  end.

(** [l[i] = v] *)
Definition list_set (l : list Z) (i : Z) (v : Z) : option (list Z) :=
  match list_index (List.length l) i with
  | Some n => Some (replace_nth l n v)
  | None => None
  end.

(** The attributes of a [TrackSet]. *)
Record TrackSet : Type := mkTrackSet {
  cyls : list Z;
  heads : list Z;
  h_off : list Z;
  step : Z;
  trackspec : string
}.

(** What the methods of [TrackSet] raise. *)
Inductive track_exn : Type := ValueError | IndexError.

Definition set_cyls (ts : TrackSet) (l : list Z) : TrackSet :=
  mkTrackSet l (heads ts) (h_off ts) (step ts) (trackspec ts).

Definition set_heads (ts : TrackSet) (l : list Z) : TrackSet :=
  mkTrackSet (cyls ts) l (h_off ts) (step ts) (trackspec ts).

Definition set_h_off (ts : TrackSet) (l : list Z) : TrackSet :=
  mkTrackSet (cyls ts) (heads ts) l (step ts) (trackspec ts).

Definition set_step (ts : TrackSet) (n : Z) : TrackSet :=
  mkTrackSet (cyls ts) (heads ts) (h_off ts) n (trackspec ts).

Definition set_trackspec (ts : TrackSet) (s : string) : TrackSet :=
  mkTrackSet (cyls ts) (heads ts) (h_off ts) (step ts) s.

(** The state [TrackSet.__init__] sets up before it reads the trackspec. *)
Definition empty_trackset : TrackSet :=
  mkTrackSet [] [] (repeat 0 2) 1 EmptyString.

(** ['+' if x >= 0 else ''] *)
Definition plus_sign (x : Z) : string :=
  if 0 <=? x then "+" else EmptyString.

(** The loop of [TrackSet.__str__] over [h_off], from index [i] on. *)
Fixpoint str_h_off (l : list Z) (i : Z) : string :=
  match l with
  | [] => EmptyString
  | x :: r =>
      (if negb (x =? 0)
       then ":h" ++ str_of_int i ++ ".off=" ++ plus_sign x ++ str_of_int x
       else EmptyString)
      ++ str_h_off r (i + 1)
  end.

(** [TrackSet.__str__] *)
Definition TrackSet_str (ts : TrackSet) : string :=
  "c=" ++ range_str (cyls ts)
  ++ ":h=" ++ range_str (heads ts)
  ++ str_h_off (h_off ts) 0
  ++ (if negb (step ts =? 1) then ":step=" ++ str_of_int (step ts)
      else EmptyString).

(** Tuples [(pc, h, c)] compare lexicographically. *)
Definition track_leb (a b : Z * Z * Z) : bool :=
  let '(pa, ha, ca) := a in
  let '(pb, hb, cb) := b in
  (pa <? pb) || ((pa =? pb) && ((ha <? hb) || ((ha =? hb) && (ca <=? cb)))).

Fixpoint insert_track (a : Z * Z * Z) (l : list (Z * Z * Z))
    : list (Z * Z * Z) :=
  match l with
  | [] => [a]
  | b :: r => if track_leb a b then a :: l else b :: insert_track a r
  end.

(** [l.sort()] on tuples of integers: the order is total and equal tuples
    are indistinguishable, so the sorted list does not depend on the
    sorting method. *)
Fixpoint sort_tracks (l : list (Z * Z * Z)) : list (Z * Z * Z) :=
  match l with
  | [] => []
  | a :: r => insert_track a (sort_tracks r)
  end.

(** The inner loop of [TrackIter.__init__] for the cylinder [c]. *)
Fixpoint tracks_of_cyl (ts : TrackSet) (c : Z) (hs : list Z)
    : option (list (Z * Z * Z)) :=
  match hs with
  | [] => Some []
  | h :: r =>
      match list_get (h_off ts) h with
      | None => None
      | Some off =>
          match tracks_of_cyl ts c r with
          | None => None
          | Some l => Some ((c * step ts + off, h, c) :: l)
          end
      end
  end.

(** The outer loop of [TrackIter.__init__]. *)
Fixpoint tracks_of (ts : TrackSet) (cs : list Z)
    : option (list (Z * Z * Z)) :=
  match cs with
  | [] => Some []
  | c :: r =>
      match tracks_of_cyl ts c (heads ts) with
      | None => None
      | Some l1 =>
          match tracks_of ts r with
          | None => None
          | Some l2 => Some (l1 ++ l2)%list
          end
      end
  end.

(** [TrackIter(ts)]: the tuples [(physical_cyl, head, cyl)] in the order
    [__next__] hands them out; [None] is [IndexError]. *)
Definition TrackIter (ts : TrackSet) : option (list (Z * Z * Z)) :=
  match tracks_of ts (cyls ts) with
  | None => None
  | Some l => Some (sort_tracks l)
  end.

Section Trackspec.

(** [int(v)] on an arbitrary string, [None] for [ValueError].  Python's
    integer syntax (sign, surrounding white space, underscores) is left to
    this parameter: what follows holds whatever it answers. *)
Variable int_of_str : string -> option Z.

(** One turn of the loop of [update_from_trackspec], on the piece [x]. *)
Definition update_part (ts : TrackSet) (x : string)
    : option track_exn * TrackSet :=
  match split "=" x with
  | [k; v] =>
      if (k =? "c")%string then
        match mark_ranges take_cyl (split "," v) (repeat false 100) with
        | None => (Some ValueError, ts)
        | Some flags => (None, set_cyls ts (marked flags 0))
        end
      else if (k =? "h")%string then
        match mark_ranges take_head (split "," v) (repeat false 2) with
        | None => (Some ValueError, ts)
        | Some flags => (None, set_heads ts (marked flags 0))
        end
      else
        match match_hoff k with
        | Some h =>
            match match_offset v with
            | None => (Some ValueError, ts)
            | Some off =>
                match list_set (h_off ts) h off with
                | None => (Some IndexError, ts)
                | Some l => (None, set_h_off ts l)
                end
            end
        | None =>
            if (k =? "step")%string then
              match int_of_str v with
              | None => (Some ValueError, ts)
              | Some n =>
                  if n <=? 0 then (Some ValueError, set_step ts n)
                  else (None, set_step ts n)
              end
            else (Some ValueError, ts)
        end
  | _ => (Some ValueError, ts)
  end.

(** The loop of [update_from_trackspec]. *)
Fixpoint update_parts (ts : TrackSet) (parts : list string)
    : option track_exn * TrackSet :=
  match parts with
  | [] => (None, ts)
  | x :: r =>
      match update_part ts x with
      | (None, ts') => update_parts ts' r
      | raised => raised
      end
  end.

(** [TrackSet.update_from_trackspec(trackspec)]: the exception raised, if
    any, and the attributes the object is left with. *)
Definition update_from_trackspec (ts : TrackSet) (spec : string)
    : option track_exn * TrackSet :=
  update_parts (set_trackspec ts (trackspec ts ++ spec)) (split ":" spec).

(** [TrackSet(trackspec)] *)
Definition new_TrackSet (spec : string) : option track_exn * TrackSet :=
  update_from_trackspec empty_trackset spec.

End Trackspec.

(** The attributes of a [TrackSet] that [update_from_trackspec] keeps in
    shape: cylinders and heads in increasing order, cylinders from 0 to 99,
    heads 0 and 1, a one-digit offset for each of the two heads. *)
Definition good_geometry (ts : TrackSet) : Prop :=
  StronglySorted Z.lt (cyls ts)
  /\ Forall (fun c => 0 <= c <= 99) (cyls ts)
  /\ StronglySorted Z.lt (heads ts)
  /\ Forall (fun h => 0 <= h <= 1) (heads ts)
  /\ List.length (h_off ts) = 2%nat
  /\ Forall (fun x => -9 <= x <= 9) (h_off ts).

(** An [int] that reads the digits of a cylinder number, for examples. *)
Definition int_of_digits (s : string) : option Z :=
  match take_cyl (decode s) with
  | Some (n, []) => Some n
  | _ => None
  end.

(** ** Shapes of inputs used to state the properties *)

(** The byte is one of the ASCII digits, the digits [%d] prints. *)
Definition ascii_digit (c : ascii) : bool :=
  (Nat.leb 48 (nat_of_ascii c) && Nat.leb (nat_of_ascii c) 57)%bool.

(** The value of an ASCII digit. *)
Definition digit_value (c : ascii) : Z := Z.of_nat (nat_of_ascii c - 48).

(** The digit three of the Arabic script, U+0663, in UTF-8. *)
Definition arabic_three : string :=
  String (ascii_of_nat 217) (String (ascii_of_nat 163) EmptyString).

(** The [n] consecutive integers from [a] on. *)
Fixpoint zrun (a : Z) (n : nat) : list Z :=
  match n with
  | O => []
  | S k => a :: zrun (a + 1) k
  end.

(** Number of occurrences of the character [c] in [s]. *)
Fixpoint count_char (c : ascii) (s : string) : nat :=
  match s with
  | EmptyString => O
  | String a r => (if Ascii.eqb a c then 1 else 0) + count_char c r
  end.

(** ['::' in s] *)
Fixpoint has_dcolon (s : string) : bool :=
  match s with
  | EmptyString => false
  | String c r =>
      match r with
      | String c' _ => (Ascii.eqb c ":" && Ascii.eqb c' ":") || has_dcolon r
      | EmptyString => false
      end
  end.

(** The runs of consecutive integers of a list: [runs_from a b l] when the
    run in progress goes from [a] to [b] and [l] is still to be read. *)
Fixpoint runs_from (a b : Z) (l : list Z) : list (Z * Z) :=
  match l with
  | [] => [(a, b)]
  | i :: r =>
      if i =? b + 1 then runs_from a i r else (a, b) :: runs_from i i r
  end.

(** A first piece followed by further pieces, each behind a colon. *)
Fixpoint colon_join (x : string) (pieces : list string) : string :=
  match pieces with
  | [] => x
  | p :: r => x ++ ":" ++ colon_join p r
  end.

(** The piece [TrackSet.__str__] prints for the offset [x] of head [i],
    without its colon. *)
Definition offset_piece (i x : Z) : string :=
  "h" ++ str_of_int i ++ ".off=" ++ plus_sign x ++ str_of_int x.

(** The pieces [TrackSet.__str__] prints after the heads: one for each
    non-zero offset of the two heads, one for a step other than 1. *)
Definition extra_pieces (x0 x1 st : Z) : list string :=
  List.app (if x0 =? 0 then [] else [offset_piece 0 x0])
    (List.app (if x1 =? 0 then [] else [offset_piece 1 x1])
       (if st =? 1 then [] else ["step=" ++ str_of_int st])).

(** * Properties *)

(** ** Python strings *)

Lemma first_cp_ascii (b : ascii) (r : string) :
  (N_of_ascii b <? 0x80)%N = true -> first_cp b r = (N_of_ascii b, O).
Proof. intro A. unfold first_cp. cbv zeta. now rewrite A. Qed.

(** Only an ASCII byte is read as a code point below U+0080. *)
Lemma first_cp_small (b : ascii) (r : string) :
  (fst (first_cp b r) < 0x80)%N ->
  (N_of_ascii b <? 0x80)%N = true /\ first_cp b r = (N_of_ascii b, O).
Proof.
  unfold first_cp. cbv zeta.
  destruct (N_of_ascii b <? 0x80)%N eqn:A; [now split|].
  repeat match goal with
         | |- context [if ?c then _ else _] => destruct c eqn:?
         | |- context [match ?x with _ => _ end] => destruct x
         end;
    cbn [fst]; intro L;
    repeat match goal with
           | E : (_ && _)%bool = true |- _ =>
               apply andb_true_iff in E as [? ?]
           | E : (_ <=? _)%N = true |- _ => apply N.leb_le in E
           end;
    lia.
Qed.

Lemma decode_cons_ascii (b : ascii) (r : string) :
  (N_of_ascii b <? 0x80)%N = true ->
  decode (String b r) = N_of_ascii b :: decode r.
Proof.
  intro A. unfold decode. cbn [decode_from]. now rewrite (first_cp_ascii b r A).
Qed.

Lemma decode_nil (s : string) : decode s = [] -> s = EmptyString.
Proof.
  destruct s as [|b r]; [reflexivity|]. unfold decode. cbn [decode_from].
  destruct (first_cp b r). discriminate.
Qed.

Lemma decode_single_ascii (s : string) (c : N) :
  decode s = [c] -> (c < 0x80)%N -> s = String (ascii_of_N c) EmptyString.
Proof.
  destruct s as [|b r]; [discriminate|]. unfold decode. cbn [decode_from].
  destruct (first_cp b r) as [c' n] eqn:F. intros E L.
  injection E as -> E.
  destruct (first_cp_small b r) as [_ F']; [now rewrite F|].
  rewrite F' in F. injection F as <- <-.
  rewrite (decode_nil r E), ascii_N_embedding. reflexivity.
Qed.

Lemma encode_cp_cases (c : N) :
  ((c < 0x80)%N /\ encode_cp c = String (ascii_of_N c) EmptyString)
  \/ exists b1 b2 r, encode_cp c = String b1 (String b2 r).
Proof.
  unfold encode_cp. destruct (N.ltb_spec c 0x80); [now left|].
  right. destruct (c <? 0x800)%N; [eauto|].
  destruct (c <? 0x10000)%N; eauto.
Qed.

Lemma encode_nil (l : list N) : encode l = EmptyString -> l = [].
Proof.
  destruct l as [|c r]; [reflexivity|]. cbn [encode].
  destruct (encode_cp_cases c) as [[_ ->] | (b1 & b2 & t & ->)]; discriminate.
Qed.

Lemma encode_single_byte (l : list N) (k : ascii) :
  encode l = String k EmptyString ->
  exists c, l = [c] /\ (c < 0x80)%N /\ k = ascii_of_N c.
Proof.
  destruct l as [|c r]; [discriminate|]. cbn [encode].
  destruct (encode_cp_cases c) as [[L ->] | (b1 & b2 & t & ->)];
    [|discriminate].
  cbn [append]. intro E. injection E as <- E.
  rewrite (encode_nil r E). eauto.
Qed.

(** What the tables of [str.upper] hold: every uppercase form has at least
    one code point; the forms listed in [upper_special] are no single
    ASCII code point other than I and S; the forms given by [upper_runs]
    are outside ASCII. *)
Lemma upper_special_forms :
  forallb (fun e : N * list N =>
             match snd e with
             | [] => false
             | [c] => ((c =? 0x49) || (c =? 0x53))%N
             | _ => true
             end) upper_special = true.
Proof. vm_compute. reflexivity. Qed.

Lemma upper_runs_forms :
  forallb (fun e : N * N * N * N =>
             let '(_, _, _, image) := e in (0x80 <=? image)%N)
          upper_runs = true.
Proof. vm_compute. reflexivity. Qed.

Lemma upper_cp_cases (c : N) :
  ((c < 0x80)%N
   /\ upper_cp c
      = [if ((0x61 <=? c) && (c <=? 0x7A))%N then (c - 0x20)%N else c])
  \/ ((0x80 <= c)%N
      /\ ((exists l, In (c, l) upper_special /\ upper_cp c = l)
          \/ (exists u, (0x80 <= u)%N /\ upper_cp c = [u]))).
Proof.
  unfold upper_cp. destruct (N.ltb_spec c 0x80) as [L | G].
  - left. split; [exact L|].
    now destruct ((0x61 <=? c) && (c <=? 0x7A))%N.
  - right. split; [exact G|].
    destruct (find (fun e => (fst e =? c)%N) upper_special) as [[k l]|] eqn:F.
    + left. apply find_some in F as [I E]. cbn [fst] in E.
      apply N.eqb_eq in E. subst k. eauto.
    + right.
      destruct (find _ upper_runs) as [[[[lo hi] st] image]|] eqn:R.
      * apply find_some in R as [I _].
        pose proof upper_runs_forms as T. rewrite forallb_forall in T.
        specialize (T _ I). cbn in T. apply N.leb_le in T.
        exists (image + (c - lo))%N. split; [lia | reflexivity].
      * eauto.
Qed.

Lemma upper_cp_nonempty (c : N) : upper_cp c <> [].
Proof.
  destruct (upper_cp_cases c)
    as [[_ ->] | [_ [(l & I & ->) | (u & _ & ->)]]]; try discriminate.
  pose proof upper_special_forms as T. rewrite forallb_forall in T.
  specialize (T _ I). cbn [snd] in T. now destruct l.
Qed.

Lemma flat_map_single {A B} (f : A -> list B) (l : list A) (y : B) :
  (forall x, f x <> []) ->
  flat_map f l = [y] -> exists x, l = [x] /\ f x = [y].
Proof.
  intros Ne E. destruct l as [|x r]; [discriminate|]. cbn [flat_map] in E.
  destruct (f x) as [|a t] eqn:Fx; [now destruct (Ne x)|].
  injection E as -> E. apply app_eq_nil in E as [-> E].
  destruct r as [|x' r'].
  - exists x. now split.
  - cbn [flat_map] in E. apply app_eq_nil in E as [E _].
    now destruct (Ne x').
Qed.

(** ** Basic facts on attributes *)

Lemma attr_eqb_eq (a b : option string) : attr_eqb a b = true <-> a = b.
Proof.
  destruct a as [s|], b as [t|]; simpl; split; intro E;
    try discriminate; try reflexivity.
  - apply String.eqb_eq in E. now subst.
  - injection E as ->. apply String.eqb_refl.
Qed.

Lemma attr_eqb_neq (a b : option string) : attr_eqb a b = false <-> a <> b.
Proof.
  split.
  - intros E F. apply attr_eqb_eq in F. congruence.
  - intro N. destruct (attr_eqb a b) eqn:E; [|reflexivity].
    apply attr_eqb_eq in E. contradiction.
Qed.

Lemma base_score_values (x : ListPortInfo) :
  base_score x = 0 \/ base_score x = 5 \/ base_score x = 10
  \/ base_score x = 20.
Proof.
  unfold base_score.
  destruct (is_gw_strings x), (is_gw_ids x), (is_test_ids x),
    (is_board_vendor x); auto.
Qed.

Lemma base_score_recognized (x : ListPortInfo) :
  recognized x = true <-> 0 < base_score x.
Proof.
  unfold recognized, base_score.
  destruct (is_gw_strings x), (is_gw_ids x), (is_test_ids x),
    (is_board_vendor x); simpl; split; intro; try lia; try discriminate;
    reflexivity.
Qed.

Lemma location_rule_passes (x o : ListPortInfo) (score : Z) :
  location_passes x o = true -> location_rule x (Some o) score = score.
Proof.
  unfold location_passes, location_rule.
  destruct (truthy (location o)), (truthy (location x)),
    (attr_eqb (location x) (location o)); simpl; intro E;
    try discriminate; reflexivity.
Qed.

Lemma location_rule_rejects (x o : ListPortInfo) (score : Z) :
  location_passes x o = false -> location_rule x (Some o) score = 0.
Proof.
  unfold location_passes, location_rule.
  destruct (truthy (location o)), (truthy (location x)),
    (attr_eqb (location x) (location o)); simpl; intro E;
    try discriminate; reflexivity.
Qed.

Lemma location_rule_le (x : ListPortInfo) (old : option ListPortInfo)
    (score : Z) :
  0 <= score -> 0 <= location_rule x old score <= score.
Proof.
  intro P. unfold location_rule. destruct old as [o|]; [|lia].
  destruct (truthy (location o)); [|lia].
  destruct (negb (truthy (location x))
            || negb (attr_eqb (location x) (location o))); lia.
Qed.

(** ** The scorer *)

(** C1, as the claim states it, fails on a reopen whose anchor carries a
    location: a candidate with a known identity and a valid serial
    identifier scores 0, not 20, against a previous port without serial
    identifier but on another bus location, and 0, not 30, against a
    previous port with the same serial identifier on another location. *)
Lemma score_port_serial_rule_counterexample :
  0 < base_score gw_port_moved
  /\ valid_ser_id (serial_number gw_port_moved) = true
  /\ valid_ser_id (serial_number old_port_no_serial) = false
  /\ score_port gw_port_moved (Some old_port_no_serial) <> 20
  /\ valid_ser_id (serial_number gw_port) = true
  /\ serial_number gw_port = serial_number gw_port_moved
  /\ score_port gw_port_moved (Some gw_port) <> 30.
Proof. vm_compute. repeat split; congruence. Qed.

(** C1 (amended): for a candidate whose base identity score is positive and
    whose serial identifier is valid, [score_port] returns 20 when no
    previous port is supplied; against a previous port whose location
    filter lets the candidate through it returns 20 when the previous
    serial identifier is not valid and 30 when it equals the candidate's;
    and it returns 0 whenever the two valid serial identifiers differ,
    whatever the base score and the locations. *)
Theorem score_port_serial_rule (x : ListPortInfo)
    (old_port : option ListPortInfo) :
  0 < base_score x ->
  valid_ser_id (serial_number x) = true ->
  match old_port with
  | None => score_port x None = 20
  | Some o =>
      (valid_ser_id (serial_number o) = true ->
       serial_number x <> serial_number o ->
       score_port x (Some o) = 0)
      /\ (location_passes x o = true ->
          valid_ser_id (serial_number o) = false ->
          score_port x (Some o) = 20)
      /\ (location_passes x o = true ->
          valid_ser_id (serial_number o) = true ->
          serial_number x = serial_number o ->
          score_port x (Some o) = 30)
  end.
Proof.
  intros B V. unfold score_port, serial_rule.
  apply Z.ltb_lt in B. rewrite B, V. simpl.
  destruct old_port as [o|]; [|reflexivity].
  repeat split.
  - intros Vo N. rewrite Vo. simpl.
    apply attr_eqb_neq in N. rewrite N.
    destruct (truthy (location o)); [|reflexivity].
    destruct (negb (truthy (location x))
              || negb (attr_eqb (location x) (location o))); reflexivity.
  - intros L Vo. rewrite Vo. simpl. now apply location_rule_passes.
  - intros L Vo E. rewrite Vo. simpl.
    apply attr_eqb_eq in E. rewrite E. now apply location_rule_passes.
Qed.

Lemma score_port_serial_rule_witness :
  score_port gw_port None = 20
  /\ score_port gw_port (Some other_gw_port) = 0
  /\ score_port gw_port (Some ringed_port) = 0
  /\ score_port gw_port (Some old_port_no_serial) = 20
  /\ score_port gw_port (Some gw_port) = 30.
Proof.
  assert (B : 0 < base_score gw_port) by (vm_compute; reflexivity).
  assert (V : valid_ser_id (serial_number gw_port) = true) by reflexivity.
  split; [exact (score_port_serial_rule gw_port None B V)|].
  split.
  { apply (score_port_serial_rule gw_port (Some other_gw_port) B V);
      [reflexivity | discriminate]. }
  split.
  { apply (score_port_serial_rule gw_port (Some ringed_port) B V);
      [reflexivity | discriminate]. }
  split.
  - apply (score_port_serial_rule gw_port (Some old_port_no_serial) B V);
      reflexivity.
  - apply (score_port_serial_rule gw_port (Some gw_port) B V);
      reflexivity.
Defined.

(** C2: against a previous port that carries a non-empty bus location, a
    candidate without location, or on another location, scores 0 whatever
    its identity and serial signals; and when the locations are equal the
    score is exactly what the identity and serial rules gave, so that the
    match adds nothing (the filter never raises a score). *)
Theorem score_port_location_filter (x o : ListPortInfo) :
  truthy (location o) = true ->
  (truthy (location x) = false \/ location x <> location o ->
   score_port x (Some o) = 0)
  /\ (location x = location o ->
      score_port x (Some o) = serial_rule x (Some o) (base_score x))
  /\ score_port x (Some o) <= serial_rule x (Some o) (base_score x).
Proof.
  intro T. unfold score_port. repeat split.
  - intros [F | N]; apply location_rule_rejects; unfold location_passes;
      rewrite T; simpl.
    + now rewrite F.
    + apply attr_eqb_neq in N. rewrite N. apply andb_false_r.
  - intro E. apply location_rule_passes. unfold location_passes.
    rewrite E, T. simpl.
    replace (attr_eqb (location o) (location o)) with true
      by (symmetry; now apply attr_eqb_eq).
    reflexivity.
  - apply location_rule_le. unfold serial_rule.
    destruct (base_score_values x) as [E | [E | [E | E]]]; rewrite E;
      simpl; destruct (valid_ser_id (serial_number x)); try lia;
      destruct (valid_ser_id (serial_number o)); simpl; try lia;
      destruct (attr_eqb (serial_number x) (serial_number o)); lia.
Qed.

Lemma score_port_location_filter_witness :
  score_port gw_port_moved (Some gw_port) = 0
  /\ score_port gw_port (Some gw_port)
     = serial_rule gw_port (Some gw_port) (base_score gw_port)
  /\ score_port test_pid_port (Some gw_port) = 0.
Proof.
  assert (T : truthy (location gw_port) = true) by reflexivity.
  split; [|split].
  - apply (score_port_location_filter gw_port_moved gw_port T).
    right. discriminate.
  - apply (score_port_location_filter gw_port gw_port T). reflexivity.
  - apply (score_port_location_filter test_pid_port gw_port T).
    left. reflexivity.
Defined.



(** C10: a candidate whose own serial identifier is absent or not valid is
    never subjected to the serial rule: its score is its base identity
    score passed through the location filter alone, also against a
    previous port with a valid serial identifier; where the filter lets it
    through the score is the base score itself. *)
Theorem score_port_without_serial (x : ListPortInfo)
    (old_port : option ListPortInfo) :
  valid_ser_id (serial_number x) = false ->
  score_port x old_port = location_rule x old_port (base_score x)
  /\ (old_port = None -> score_port x old_port = base_score x)
  /\ (forall o, old_port = Some o -> location_passes x o = true ->
      score_port x old_port = base_score x).
Proof.
  intro V.
  assert (E : score_port x old_port
              = location_rule x old_port (base_score x)).
  { unfold score_port, serial_rule. rewrite V, andb_false_r. reflexivity. }
  split; [exact E|]. split.
  - intros ->. exact E.
  - intros o -> L. rewrite E. now apply location_rule_passes.
Qed.

Lemma score_port_without_serial_witness :
  score_port old_port_no_serial (Some gw_port)
  = base_score old_port_no_serial
  /\ base_score old_port_no_serial = 20
  /\ valid_ser_id (serial_number gw_port) = true.
Proof.
  split; [|split; reflexivity].
  refine (proj2 (proj2 (score_port_without_serial old_port_no_serial
                          (Some gw_port) _)) gw_port _ _); reflexivity.
Defined.

(** ** The locator *)

(** On an enumeration whose ports all carry vendor and product IDs the loop
    of [find_port] ends, and either nothing beat the incoming best score or
    the best port is the first one of maximal score. *)
Lemma find_port_loop_usb (old : option ListPortInfo)
    (ports : list ListPortInfo) :
  Forall (fun x => has_ids x = true) ports ->
  forall best_score best_port,
  exists best_score' best_port',
    find_port_loop old ports best_score best_port
    = Ok (best_score', best_port')
    /\ (((forall x, In x ports -> score_port x old <= best_score)
         /\ best_score' = best_score /\ best_port' = best_port)
        \/ (exists l1 p l2,
              ports = (l1 ++ p :: l2)%list
              /\ best_port' = Some p
              /\ best_score' = score_port p old
              /\ best_score < score_port p old
              /\ (forall y, In y l1 -> score_port y old < score_port p old)
              /\ (forall y, In y l2 -> score_port y old <= score_port p old))).
Proof.
  induction 1 as [|x rest Hx Hrest IH]; intros bs bp.
  - exists bs, bp. split; [reflexivity|]. left.
    split; [intros ? []|]. now split.
  - cbn [find_port_loop]. unfold debug_line. unfold has_ids in Hx.
    destruct (vid x); [|discriminate]. destruct (pid x); [|discriminate].
    destruct (bs <? score_port x old) eqn:C.
    + apply Z.ltb_lt in C.
      destruct (IH (score_port x old) (Some x))
        as (bs' & bp' & E & [(A & -> & ->) | (l1 & p & l2 & -> & -> & -> & Lt & B1 & B2)]).
      * exists (score_port x old), (Some x). split; [exact E|]. right.
        exists [], x, rest. repeat split; auto. intros ? [].
      * exists (score_port p old), (Some p). split; [exact E|]. right.
        exists (x :: l1), p, l2. repeat split; auto; try lia.
        intros y [<- | I]; [lia | now apply B1].
    + apply Z.ltb_ge in C.
      destruct (IH bs bp)
        as (bs' & bp' & E & [(A & -> & ->) | (l1 & p & l2 & -> & -> & -> & Lt & B1 & B2)]).
      * exists bs, bp. split; [exact E|]. left. split; [|now split].
        intros y [<- | I]; [lia | now apply A].
      * exists (score_port p old), (Some p). split; [exact E|]. right.
        exists (x :: l1), p, l2. repeat split; auto.
        intros y [<- | I]; [lia | now apply B1].
Qed.

(** What [find_port] does with an enumeration of USB ports: it fails with
    "Cannot find the Greaseweazle device" exactly when no port scores above
    0, and otherwise answers the device path of the first port of maximal
    score. *)
Lemma select_port_usb (old : option ListPortInfo)
    (ports : list ListPortInfo) :
  Forall (fun x => has_ids x = true) ports ->
  ((forall x, In x ports -> score_port x old <= 0)
   /\ select_port old ports
      = Raise (SerialException "Cannot find the Greaseweazle device"))
  \/ (exists l1 p l2,
        ports = (l1 ++ p :: l2)%list
        /\ select_port old ports = Ok (device p)
        /\ 0 < score_port p old
        /\ (forall y, In y l1 -> score_port y old < score_port p old)
        /\ (forall y, In y l2 -> score_port y old <= score_port p old)).
Proof.
  intro U. unfold select_port.
  destruct (find_port_loop_usb old ports U 0 None)
    as (bs & bp & E & [(A & -> & ->) | (l1 & p & l2 & -> & -> & -> & Lt & B1 & B2)]);
    rewrite E.
  - left. now split.
  - right. exists l1, p, l2. repeat split; auto.
Qed.

(** A port without vendor or product ID anywhere in the enumeration makes
    the loop raise [TypeError], whatever the other ports score. *)
Lemma select_port_non_usb (old : option ListPortInfo)
    (ports : list ListPortInfo) :
  Exists (fun x => has_ids x = false) ports ->
  select_port old ports
  = Raise (TypeError "%X format: an integer is required, not NoneType").
Proof.
  intro X. unfold select_port.
  assert (L : forall bs bp,
             find_port_loop old ports bs bp
             = Raise (TypeError
                        "%X format: an integer is required, not NoneType")).
  { induction ports as [|x rest IH]; intros bs bp.
    - inversion X.
    - cbn [find_port_loop]. unfold debug_line.
      destruct (has_ids x) eqn:I.
      + assert (X' : Exists (fun x => has_ids x = false) rest)
          by (inversion X; subst; [congruence | assumption]).
        unfold has_ids in I.
        destruct (vid x); [|discriminate]. destruct (pid x); [|discriminate].
        destruct (bs <? score_port x old); now apply IH.
      + unfold has_ids in I.
        destruct (vid x); [destruct (pid x); [discriminate|]|]; reflexivity. }
  now rewrite L.
Qed.

(** C4 (the code departs from the claim): with a Greaseweazle enumerated
    first and a motherboard serial port after it, a candidate scores 20 but
    [find_port] neither returns its device path nor fails with "Cannot find
    the Greaseweazle device": the debug line of the second port raises
    [TypeError]. *)
Theorem find_port_non_usb_port_raises :
  score_port gw_port None = 20
  /\ score_port builtin_port None = 0
  /\ find_port (static_host [gw_port; builtin_port]) None []
     = (Raise (TypeError "%X format: an integer is required, not NoneType"),
        [EvComports])
  /\ find_port (static_host [gw_port]) None []
     = (Ok "/dev/ttyACM0", [EvComports]).
Proof. repeat split. Qed.

(** ** The mode switcher *)

Section Reopen.

Variable H : Host.

(** One iteration of the retry loop, case by case. *)
Lemma reopen_attempt_cases (usb : USB.Unit) (w : World) :
  let w1 := EvSleep :: w in
  let w2 := EvComports :: w1 in
  match select_port (USB.port_info usb) (host_comports H w1) with
  | Raise (SerialException _) => reopen_attempt H usb w = (Ok None, w2)
  | Raise e => reopen_attempt H usb w = (Raise e, w2)
  | Ok d =>
      let w3 := EvOpen d :: w2 in
      let w4 := EvUnit (mkSerial d) :: w3 in
      if host_can_open H w2 d then
        match host_query H w3 (mkSerial d) with
        | Ok i =>
            reopen_attempt H usb w
            = (Ok (Some (make_unit (mkSerial d) i
                           (List.find (fun x => (device x =? d)%string)
                                      (host_comports H w4))
                           (USB.jumperless_update usb)
                           (USB.can_mode_switch usb))),
               EvComports :: w4)
        | Raise e => reopen_attempt H usb w = (Raise e, w4)
        end
      else reopen_attempt H usb w = (Ok None, w3)
  end.
Proof.
  unfold reopen_attempt, bind, sleep_half, emit, try_serial, find_port,
    comports, serial_Serial, USB_Unit, port_info, ret, raise, bind.
  cbn zeta.
  destruct (select_port (USB.port_info usb) (host_comports H (EvSleep :: w)))
    as [d | e].
  - destruct (host_can_open H (EvComports :: EvSleep :: w) d);
      [|reflexivity].
    destruct (host_query H (EvOpen d :: EvComports :: EvSleep :: w)
                (mkSerial d)); reflexivity.
  - destruct e; reflexivity.
Qed.

(** Each iteration sleeps exactly once. *)
Lemma reopen_attempt_sleeps (usb : USB.Unit) (w : World) :
  sleeps (snd (reopen_attempt H usb w)) = S (sleeps w).
Proof.
  pose proof (reopen_attempt_cases usb w) as C. cbn zeta in C.
  destruct (select_port (USB.port_info usb) (host_comports H (EvSleep :: w)))
    as [d | e].
  - destruct (host_can_open H (EvComports :: EvSleep :: w) d).
    + destruct (host_query H (EvOpen d :: EvComports :: EvSleep :: w)
                  (mkSerial d)); rewrite C; reflexivity.
    + rewrite C. reflexivity.
  - destruct e; rewrite C; reflexivity.
Qed.

(** Each iteration only adds to the history. *)
Lemma reopen_attempt_extends (usb : USB.Unit) (w : World) :
  exists delta, snd (reopen_attempt H usb w) = (delta ++ w)%list.
Proof.
  pose proof (reopen_attempt_cases usb w) as C. cbn zeta in C.
  destruct (select_port (USB.port_info usb) (host_comports H (EvSleep :: w)))
    as [d | e].
  - destruct (host_can_open H (EvComports :: EvSleep :: w) d).
    + destruct (host_query H (EvOpen d :: EvComports :: EvSleep :: w)
                  (mkSerial d)); rewrite C; cbn [snd].
      * now exists [EvComports; EvUnit (mkSerial d); EvOpen d; EvComports;
                    EvSleep].
      * now exists [EvUnit (mkSerial d); EvOpen d; EvComports; EvSleep].
    + rewrite C. now exists [EvOpen d; EvComports; EvSleep].
  - destruct e; rewrite C; now exists [EvComports; EvSleep].
Qed.

Lemma reopen_loop_step (n : nat) (usb : USB.Unit) (w : World) :
  reopen_loop H (S n) usb w
  = match reopen_attempt H usb w with
    | (Ok (Some new_usb), w') => (Ok new_usb, w')
    | (Ok None, w') => reopen_loop H n usb w'
    | (Raise e, w') => (Raise e, w')
    end.
Proof.
  cbn [reopen_loop]. unfold bind at 1.
  destruct (reopen_attempt H usb w) as [[[u|]|e] w']; reflexivity.
Qed.

(** The loop sleeps at most once per allowed iteration. *)
Lemma reopen_loop_sleeps (n : nat) (usb : USB.Unit) :
  forall w, (sleeps (snd (reopen_loop H n usb w)) <= sleeps w + n)%nat.
Proof.
  induction n as [|n IH]; intro w.
  - cbn. lia.
  - rewrite reopen_loop_step.
    pose proof (reopen_attempt_sleeps usb w) as S1.
    destruct (reopen_attempt H usb w) as [[[u|]|e] w']; cbn [snd] in *;
      try lia.
    specialize (IH w'). lia.
Qed.

Lemma reopen_loop_extends (n : nat) (usb : USB.Unit) :
  forall w, exists delta, snd (reopen_loop H n usb w) = (delta ++ w)%list.
Proof.
  induction n as [|n IH]; intro w.
  - now exists [].
  - rewrite reopen_loop_step.
    destruct (reopen_attempt_extends usb w) as [d1 E1].
    destruct (reopen_attempt H usb w) as [[[u|]|e] w']; cbn [snd] in *;
      try (now exists d1).
    destruct (IH w') as [d2 E2]. exists (d2 ++ d1)%list.
    now rewrite E2, E1, app_assoc.
Qed.

(** The three ways the loop can end: an iteration returns a session
    after fewer than [n] have fallen through; all [n] fall through and
    the loop times out; or an iteration raises. *)
Lemma reopen_loop_cases (n : nat) (usb : USB.Unit) :
  forall w,
    (exists k w1 w2 u,
        (k < n)%nat /\ attempts_fail H usb k w w1
        /\ reopen_attempt H usb w1 = (Ok (Some u), w2)
        /\ reopen_loop H n usb w = (Ok u, w2))
    \/ (exists w1,
           attempts_fail H usb n w w1
           /\ reopen_loop H n usb w
              = (Raise (SerialException
                          "Could not reopen port after mode switch"), w1))
    \/ (exists k w1 w2 e,
           (k < n)%nat /\ attempts_fail H usb k w w1
           /\ reopen_attempt H usb w1 = (Raise e, w2)
           /\ reopen_loop H n usb w = (Raise e, w2)).
Proof.
  induction n as [|n IH]; intro w.
  - right. left. exists w. split; [constructor | reflexivity].
  - rewrite reopen_loop_step.
    destruct (reopen_attempt H usb w) as [[[u|]|e] w'] eqn:A.
    + left. exists O, w, w', u. repeat split; [lia | constructor | exact A].
    + destruct (IH w')
        as [(k & w1 & w2 & u & L & F & S1 & E)
           | [(w1 & F & E) | (k & w1 & w2 & e & L & F & S1 & E)]].
      * left. exists (S k), w1, w2, u.
        repeat split; [lia | econstructor; eauto | exact S1 | exact E].
      * right. left. exists w1. split; [econstructor; eauto | exact E].
      * right. right. exists (S k), w1, w2, e.
        repeat split; [lia | econstructor; eauto | exact S1 | exact E].
    + right. right. exists O, w, w', e.
      repeat split; [lia | constructor | exact A].
Qed.

(** After [k] iterations that fell through, the loop is where a loop
    with [k] fewer iterations would start. *)
Lemma reopen_loop_after_failures (k n : nat) (usb : USB.Unit)
    (w w1 : World) :
  attempts_fail H usb k w w1 ->
  reopen_loop H (k + n) usb w = reopen_loop H n usb w1.
Proof.
  induction 1 as [|k w w' w'' A F IH]; [reflexivity|].
  cbn [Nat.add]. rewrite reopen_loop_step, A. exact IH.
Qed.

(** [usb_reopen] once the mode-change command has returned or raised:
    a swallowed outcome leads to the close and the loop, anything else
    leaves at once. *)
Lemma usb_reopen_unfold (usb : USB.Unit) (is_update : bool) (w : World) :
  usb_reopen H usb is_update w
  = match host_switch H w (USB.ser usb) (mode_of is_update) with
    | None | Some (SerialException _) | Some struct_error =>
        reopen_loop H 10 usb (loop_entry usb is_update w)
    | Some e =>
        (Raise e, EvSwitchFwMode (USB.ser usb) (mode_of is_update) :: w)
    end.
Proof.
  unfold usb_reopen, bind, try_serial_struct, switch_fw_mode, close, emit,
    loop_entry.
  destruct (host_switch H w (USB.ser usb) (mode_of is_update)) as [[]|];
    reflexivity.
Qed.

End Reopen.

(** An iteration that returns a session opened the device the locator
    chose with the old session's port as anchor, and hands the old
    session's two capability flags to the new one. *)
Lemma reopen_attempt_success (H : Host) (usb u : USB.Unit) (w w' : World) :
  reopen_attempt H usb w = (Ok (Some u), w') ->
  exists d i pinfo,
    select_port (USB.port_info usb) (host_comports H (EvSleep :: w)) = Ok d
    /\ host_can_open H (EvComports :: EvSleep :: w) d = true
    /\ u = make_unit (mkSerial d) i pinfo
             (USB.jumperless_update usb) (USB.can_mode_switch usb).
Proof.
  intro A. pose proof (reopen_attempt_cases H usb w) as C. cbn zeta in C.
  destruct (select_port (USB.port_info usb) (host_comports H (EvSleep :: w)))
    as [d | e].
  - destruct (host_can_open H (EvComports :: EvSleep :: w) d) eqn:O.
    + destruct (host_query H (EvOpen d :: EvComports :: EvSleep :: w)
                  (mkSerial d)) as [i | e]; rewrite C in A.
      * injection A as <- <-. eauto 6.
      * discriminate.
    + rewrite C in A. discriminate.
  - destruct e; rewrite C in A; discriminate.
Qed.

Lemma usb_reopen_flags (H : Host) (usb u : USB.Unit) (is_update : bool)
    (w w' : World) :
  usb_reopen H usb is_update w = (Ok u, w') ->
  USB.jumperless_update u = USB.jumperless_update usb
  /\ USB.can_mode_switch u = USB.can_mode_switch usb.
Proof.
  rewrite usb_reopen_unfold. intro R.
  assert (L : reopen_loop H 10 usb (loop_entry usb is_update w) = (Ok u, w')).
  { destruct (host_switch H w (USB.ser usb) (mode_of is_update)) as [[]|];
      solve [exact R | discriminate R]. }
  clear R.
  destruct (reopen_loop_cases H 10 usb (loop_entry usb is_update w))
    as [(k & w1 & w2 & u1 & _ & _ & A & E)
       | [(w1 & _ & E) | (k & w1 & w2 & e & _ & _ & _ & E)]];
    rewrite E in L; try discriminate.
  injection L as -> ->.
  destruct (reopen_attempt_success H usb u w1 w' A) as (d & i & p & _ & _ & ->).
  split; reflexivity.
Qed.

(** C6: once the mode-change command is behind, the retry loop sleeps, and
    so iterates, at most 10 times; an iteration whose locator finds no
    device, or whose channel does not open, falls through to the next one;
    the first iteration that opens the channel chosen with the old
    session's port as anchor ends the loop with its session; and when all
    10 iterations fall through, [usb_reopen] fails with "Could not reopen
    port after mode switch". *)
Theorem usb_reopen_retry_loop (H : Host) (usb : USB.Unit) (is_update : bool)
    (w : World) :
  host_switch H w (USB.ser usb) (mode_of is_update) = None
  \/ (exists msg, host_switch H w (USB.ser usb) (mode_of is_update)
                  = Some (SerialException msg))
  \/ host_switch H w (USB.ser usb) (mode_of is_update) = Some struct_error ->
  let w0 := loop_entry usb is_update w in
  (sleeps (snd (usb_reopen H usb is_update w)) <= sleeps w + 10)%nat
  /\ (forall w1 msg,
         select_port (USB.port_info usb) (host_comports H (EvSleep :: w1))
         = Raise (SerialException msg) ->
         reopen_attempt H usb w1 = (Ok None, EvComports :: EvSleep :: w1))
  /\ (forall w1 d,
         select_port (USB.port_info usb) (host_comports H (EvSleep :: w1))
         = Ok d ->
         host_can_open H (EvComports :: EvSleep :: w1) d = false ->
         reopen_attempt H usb w1
         = (Ok None, EvOpen d :: EvComports :: EvSleep :: w1))
  /\ (forall k w1 w2 u,
         (k < 10)%nat -> attempts_fail H usb k w0 w1 ->
         reopen_attempt H usb w1 = (Ok (Some u), w2) ->
         usb_reopen H usb is_update w = (Ok u, w2)
         /\ exists d,
             select_port (USB.port_info usb)
                         (host_comports H (EvSleep :: w1)) = Ok d
             /\ USB.ser u = mkSerial d)
  /\ (forall w1,
         attempts_fail H usb 10 w0 w1 ->
         usb_reopen H usb is_update w
         = (Raise (SerialException "Could not reopen port after mode switch"),
            w1))
  /\ ((exists k w1 w2 u,
          (k < 10)%nat /\ attempts_fail H usb k w0 w1
          /\ reopen_attempt H usb w1 = (Ok (Some u), w2)
          /\ usb_reopen H usb is_update w = (Ok u, w2))
      \/ (exists w1,
             attempts_fail H usb 10 w0 w1
             /\ usb_reopen H usb is_update w
                = (Raise (SerialException
                            "Could not reopen port after mode switch"), w1))
      \/ (exists k w1 w2 e,
             (k < 10)%nat /\ attempts_fail H usb k w0 w1
             /\ reopen_attempt H usb w1 = (Raise e, w2)
             /\ usb_reopen H usb is_update w = (Raise e, w2))).
Proof.
  intros Sw w0.
  assert (U : usb_reopen H usb is_update w = reopen_loop H 10 usb w0).
  { rewrite usb_reopen_unfold.
    destruct Sw as [-> | [[msg ->] | ->]]; reflexivity. }
  rewrite U. split.
  { pose proof (reopen_loop_sleeps H 10 usb w0) as B.
    replace (sleeps w0) with (sleeps w) in B by reflexivity. exact B. }
  split.
  { intros w1 msg E. pose proof (reopen_attempt_cases H usb w1) as C.
    cbn zeta in C. now rewrite E in C. }
  split.
  { intros w1 d E O. pose proof (reopen_attempt_cases H usb w1) as C.
    cbn zeta in C. now rewrite E, O in C. }
  split.
  { intros k w1 w2 u L F A. split.
    - replace 10%nat with (k + S (9 - k))%nat by lia.
      rewrite (reopen_loop_after_failures H k (S (9 - k)) usb w0 w1 F).
      now rewrite reopen_loop_step, A.
    - destruct (reopen_attempt_success H usb u w1 w2 A)
        as (d & i & p & E & _ & ->).
      exists d. now split. }
  split.
  { intros w1 F.
    replace 10%nat with (10 + 0)%nat at 1 by lia.
    now rewrite (reopen_loop_after_failures H 10 0 usb w0 w1 F). }
  exact (reopen_loop_cases H 10 usb w0).
Qed.

Lemma usb_reopen_retry_loop_witness :
  (exists u w2,
      usb_reopen (sim_host true true 2) unit_in_update_mode false []
      = (Ok u, w2)
      /\ USB.ser u = mkSerial "/dev/ttyACM1")
  /\ (exists w1,
         usb_reopen (sim_host true true 20) unit_in_update_mode false []
         = (Raise (SerialException "Could not reopen port after mode switch"),
            w1)).
Proof.
  split.
  - destruct (usb_reopen_retry_loop (sim_host true true 2)
                unit_in_update_mode false []
                (or_intror (or_introl (ex_intro _ _ eq_refl))))
      as (_ & _ & _ & First & _).
    destruct (First 1%nat
                [EvComports; EvSleep; EvClose (mkSerial "/dev/ttyACM0");
                 EvSwitchFwMode (mkSerial "/dev/ttyACM0") 1]
                (snd (reopen_attempt (sim_host true true 2)
                        unit_in_update_mode
                        [EvComports; EvSleep;
                         EvClose (mkSerial "/dev/ttyACM0");
                         EvSwitchFwMode (mkSerial "/dev/ttyACM0") 1]))
                (make_unit (mkSerial "/dev/ttyACM1")
                   (mkInfo 1 3 4 0 false false false)
                   (Some gw_port_renamed) true true))
      as [E _].
    + lia.
    + econstructor; [vm_compute; reflexivity | constructor].
    + vm_compute; reflexivity.
    + eexists. eexists. split; [exact E | reflexivity].
  - destruct (usb_reopen_retry_loop (sim_host true true 20)
                unit_in_update_mode false []
                (or_intror (or_introl (ex_intro _ _ eq_refl))))
      as (_ & _ & _ & _ & Exhaust & _).
    eexists. apply Exhaust.
    do 10 (econstructor; [vm_compute; reflexivity|]). constructor.
Defined.

Lemma sleeps_app (d v : World) :
  sleeps (d ++ v)%list = (sleeps d + sleeps v)%nat.
Proof.
  induction d as [|e d IH]; [reflexivity|].
  destruct e; cbn; rewrite IH; reflexivity.
Qed.

(** C7, as the claim states it, fails on a failure response of the
    device: the command error that [switch_fw_mode] then raises is neither
    a [SerialException] nor a [struct.error], so that [usb_reopen] lets it
    through, and neither closes the channel nor enters the retry loop. *)
Lemma usb_reopen_switch_failure_counterexample :
  host_switch refusing_host [] (USB.ser unit_in_update_mode) (mode_of false)
  = Some (OtherException "CmdError")
  /\ usb_reopen refusing_host unit_in_update_mode false []
     = (Raise (OtherException "CmdError"),
        [EvSwitchFwMode (mkSerial "/dev/ttyACM0") 1])
  /\ ~ In (EvClose (USB.ser unit_in_update_mode))
          (snd (usb_reopen refusing_host unit_in_update_mode false []))
  /\ sleeps (snd (usb_reopen refusing_host unit_in_update_mode false []))
     = O.
Proof.
  split; [reflexivity|]. split; [reflexivity|]. split; [|reflexivity].
  cbn. intros [E | []]. discriminate E.
Qed.

(** Any other exception of the mode-change command leaves [usb_reopen] at
    once, before the channel is closed. *)
Lemma usb_reopen_other_exception (H : Host) (usb : USB.Unit)
    (is_update : bool) (w : World) (e : exn) :
  host_switch H w (USB.ser usb) (mode_of is_update) = Some e ->
  (forall msg, e <> SerialException msg) -> e <> struct_error ->
  usb_reopen H usb is_update w
  = (Raise e, EvSwitchFwMode (USB.ser usb) (mode_of is_update) :: w).
Proof.
  intros E N1 N2. rewrite usb_reopen_unfold, E.
  destruct e; try reflexivity.
  - now destruct (N1 msg).
  - now destruct N2.
Qed.

(** C7 (amended): when the mode-change command raises [SerialException]
    (an I/O error, the line dropped) or [struct.error] (a short reply),
    exactly as when it returns, [usb_reopen] swallows the outcome: it
    closes the old channel right after the command and its result is that
    of the retry loop started from there.  Any other exception of the
    command, a failure response of the device included, is not swallowed:
    it reaches the caller with the channel still open and the retry loop
    not entered. *)
Theorem usb_reopen_swallows_switch_failure (H : Host) (usb : USB.Unit)
    (is_update : bool) (w : World) :
  (host_switch H w (USB.ser usb) (mode_of is_update) = None
   \/ (exists msg, host_switch H w (USB.ser usb) (mode_of is_update)
                   = Some (SerialException msg))
   \/ host_switch H w (USB.ser usb) (mode_of is_update) = Some struct_error ->
   usb_reopen H usb is_update w
   = reopen_loop H 10 usb (loop_entry usb is_update w)
   /\ (exists delta,
          snd (usb_reopen H usb is_update w)
          = (delta ++ EvClose (USB.ser usb)
                   :: EvSwitchFwMode (USB.ser usb) (mode_of is_update)
                   :: w)%list)
   /\ (sleeps w < sleeps (snd (usb_reopen H usb is_update w)))%nat)
  /\ (forall e,
         host_switch H w (USB.ser usb) (mode_of is_update) = Some e ->
         (forall msg, e <> SerialException msg) -> e <> struct_error ->
         usb_reopen H usb is_update w
         = (Raise e, EvSwitchFwMode (USB.ser usb) (mode_of is_update) :: w)).
Proof.
  split; [|intros e E N1 N2; now apply usb_reopen_other_exception].
  intro Sw.
  assert (U : usb_reopen H usb is_update w
              = reopen_loop H 10 usb (loop_entry usb is_update w)).
  { rewrite usb_reopen_unfold.
    destruct Sw as [-> | [[msg ->] | ->]]; reflexivity. }
  split; [exact U|]. rewrite U. split.
  - apply reopen_loop_extends.
  - rewrite reopen_loop_step.
    pose proof (reopen_attempt_sleeps H usb (loop_entry usb is_update w)) as A.
    change (sleeps (loop_entry usb is_update w)) with (sleeps w) in A.
    destruct (reopen_attempt H usb (loop_entry usb is_update w))
      as [[[u|]|e] w'] eqn:E; cbn [snd] in *; try lia.
    destruct (reopen_loop_extends H 9 usb w') as [delta ->].
    rewrite sleeps_app. lia.
Qed.

Lemma usb_reopen_swallows_switch_failure_witness :
  host_switch (sim_host true true 2) [] (USB.ser unit_in_update_mode)
              (mode_of false)
  = Some (SerialException
            "device reports readiness to read but returned no data")
  /\ usb_reopen (sim_host true true 2) unit_in_update_mode false []
     = reopen_loop (sim_host true true 2) 10 unit_in_update_mode
         [EvClose (mkSerial "/dev/ttyACM0");
          EvSwitchFwMode (mkSerial "/dev/ttyACM0") 1]
  /\ usb_reopen refusing_host unit_in_update_mode true []
     = (Raise (OtherException "CmdError"),
        [EvSwitchFwMode (mkSerial "/dev/ttyACM0") 0]).
Proof.
  split; [reflexivity|]. split.
  - destruct (usb_reopen_swallows_switch_failure (sim_host true true 2)
                unit_in_update_mode false []) as [Swallowed _].
    apply Swallowed. right. left. eexists. reflexivity.
  - destruct (usb_reopen_swallows_switch_failure refusing_host
                unit_in_update_mode true []) as [_ Other].
    apply (Other (OtherException "CmdError"));
      [reflexivity | discriminate | discriminate].
Defined.

(** C8: a switch to update mode followed by a switch back to normal mode,
    each ending with a reopened session, leaves [jumperless_update] and
    [can_mode_switch] as they were on the original session. *)
Theorem usb_reopen_round_trip (H : Host) (usb u1 u2 : USB.Unit)
    (w w1 w2 : World) :
  usb_reopen H usb true w = (Ok u1, w1) ->
  usb_reopen H u1 false w1 = (Ok u2, w2) ->
  USB.jumperless_update u2 = USB.jumperless_update usb
  /\ USB.can_mode_switch u2 = USB.can_mode_switch usb.
Proof.
  intros R1 R2.
  destruct (usb_reopen_flags H usb u1 true w w1 R1) as [J1 C1].
  destruct (usb_reopen_flags H u1 u2 false w1 w2 R2) as [J2 C2].
  split; congruence.
Qed.

Lemma usb_reopen_round_trip_witness :
  exists u1 w1 u2 w2,
    usb_reopen (sim_host false true 2) unit_in_normal_mode true []
    = (Ok u1, w1)
    /\ usb_reopen (sim_host false true 2) u1 false w1 = (Ok u2, w2)
    /\ USB.update_mode u1 = true
    /\ USB.update_mode u2 = false
    /\ serial_number gw_port_renamed = serial_number gw_port
    /\ USB.jumperless_update u2 = USB.jumperless_update unit_in_normal_mode
    /\ USB.can_mode_switch u2 = USB.can_mode_switch unit_in_normal_mode.
Proof.
  destruct (usb_reopen (sim_host false true 2) unit_in_normal_mode true [])
    as [[u1|e1] w1] eqn:E1; [|vm_compute in E1; discriminate E1].
  destruct (usb_reopen (sim_host false true 2) u1 false w1)
    as [[u2|e2] w2] eqn:E2.
  - exists u1, w1, u2, w2.
    pose proof (usb_reopen_round_trip _ _ _ _ _ _ _ E1 E2) as [J C].
    vm_compute in E1. injection E1 as <- <-.
    vm_compute in E2. injection E2 as <- <-.
    repeat split; try reflexivity; assumption.
  - vm_compute in E1. injection E1 as <- <-.
    vm_compute in E2. discriminate E2.
Defined.

(** ** The mode check *)

Section ModeCheck.

Variable H : Host.

Lemma print_update_instructions_prints (usb : USB.Unit) (w : World) :
  exists lines,
    lines <> []
    /\ print_update_instructions usb w
       = (Ok tt, (map EvPrint lines ++ w)%list).
Proof.
  unfold print_update_instructions, bind, print, emit, ret.
  destruct (negb (USB.jumperless_update usb)).
  - refine (ex_intro _ [_; _; _; _; _] (conj _ eq_refl)). discriminate.
  - refine (ex_intro _ [_; _] (conj _ eq_refl)). discriminate.
Qed.

Lemma fail_in_update_mode_exits (usb : USB.Unit) (w : World) :
  exits_with_diagnostic (fail_in_update_mode usb w) w.
Proof.
  unfold exits_with_diagnostic, fail_in_update_mode, bind, print, emit,
    sys_exit, raise.
  destruct (USB.update_jumpered usb); (split; [reflexivity|]);
    refine (ex_intro _ [_; _; _] (conj _ eq_refl)); discriminate.
Qed.

Lemma fail_not_in_update_mode_exits (usb : USB.Unit) (w : World) :
  exits_with_diagnostic (fail_not_in_update_mode usb w) w.
Proof.
  unfold exits_with_diagnostic, fail_not_in_update_mode, bind.
  set (line := "ERROR: Greaseweazle is not in Firmware Update Mode").
  change (print line w) with (Ok tt, EvPrint line :: w).
  cbn beta iota.
  destruct (print_update_instructions_prints usb (EvPrint line :: w))
    as (lines & N & E).
  rewrite E. cbn [fst snd sys_exit raise].
  split; [reflexivity|].
  exists (lines ++ [line])%list.
  split; [now destruct lines|].
  now rewrite map_app, <- app_assoc.
Qed.

Lemma fail_unsupported_exits (usb : USB.Unit) (w : World) :
  exits_with_diagnostic (fail_unsupported usb w) w.
Proof.
  unfold exits_with_diagnostic, fail_unsupported, bind.
  set (line := ("ERROR: Greaseweazle firmware v" ++ _)%string).
  change (print line w) with (Ok tt, EvPrint line :: w).
  cbn beta iota.
  destruct (print_update_instructions_prints usb (EvPrint line :: w))
    as (lines & N & E).
  rewrite E. cbn [fst snd sys_exit raise].
  split; [reflexivity|].
  exists (lines ++ [line])%list.
  split; [now destruct lines|].
  now rewrite map_app, <- app_assoc.
Qed.

(** The four quadrants of [usb_mode_check]. *)
Lemma usb_mode_check_update_update (usb : USB.Unit) (w : World) :
  USB.update_mode usb = true ->
  usb_mode_check H usb true w = (Ok usb, w).
Proof. intro U. unfold usb_mode_check. rewrite U. reflexivity. Qed.

Lemma usb_mode_check_normal_normal (usb : USB.Unit) (w : World) :
  USB.update_mode usb = false ->
  usb_mode_check H usb false w
  = if USB.update_needed usb then fail_unsupported usb w else (Ok usb, w).
Proof.
  intro U. unfold usb_mode_check. rewrite U. cbn [andb negb].
  now destruct (USB.update_needed usb).
Qed.

Lemma usb_mode_check_update_normal (usb : USB.Unit) (w : World) :
  USB.update_mode usb = true ->
  usb_mode_check H usb false w
  = if USB.can_mode_switch usb then
      match usb_reopen H usb false w with
      | (Ok u', w') =>
          if USB.update_mode u' then fail_in_update_mode u' w'
          else (Ok u', w')
      | (Raise e, w') => (Raise e, w')
      end
    else fail_in_update_mode usb w.
Proof.
  intro U. unfold usb_mode_check. rewrite U. cbn [andb negb].
  destruct (USB.can_mode_switch usb); [|reflexivity].
  unfold bind at 1.
  destruct (usb_reopen H usb false w) as [[u'|e] w']; [|reflexivity].
  now destruct (USB.update_mode u').
Qed.

Lemma usb_mode_check_normal_update (usb : USB.Unit) (w : World) :
  USB.update_mode usb = false ->
  usb_mode_check H usb true w
  = if USB.can_mode_switch usb then
      match usb_reopen H usb true w with
      | (Ok u', w') =>
          if USB.update_mode u' then (Ok u', w')
          else (Raise (Fatal not_switched_msg), w')
      | (Raise e, w') => (Raise e, w')
      end
    else fail_not_in_update_mode usb w.
Proof.
  intro U. unfold usb_mode_check. rewrite U. cbn [andb negb].
  destruct (USB.can_mode_switch usb); [|reflexivity].
  unfold bind at 1.
  destruct (usb_reopen H usb true w) as [[u'|e] w']; [|reflexivity].
  now destruct (USB.update_mode u').
Qed.

Lemma exits_not_ok {A} (m : result A * World) (w w' : World) (a : A) :
  exits_with_diagnostic m w -> m <> (Ok a, w').
Proof. intros [F _] ->. discriminate F. Qed.

(** C5 (amended): [usb_mode_check] returns the session as it is when mode
    and operation agree and no update is needed; it prints a diagnostic
    and exits with status 1 when they disagree and the device cannot
    switch mode, when a switch towards normal mode leaves the device in
    update mode, and when a normal operation meets a session in normal
    mode whose firmware needs an update; when a switch towards update mode
    leaves the device in normal mode it fails through [error.check] with
    the "did not change to Firmware Update Mode" message, printing nothing
    itself; a switch that lands in the requested mode, on firmware that
    needs no update when the operation is a normal one, returns the new
    session; and no session is ever returned in a mode other than the
    requested one. *)
Theorem usb_mode_check_table (usb : USB.Unit) (is_update : bool)
    (w : World) :
  (USB.update_mode usb = is_update ->
   (is_update = false -> USB.update_needed usb = false) ->
   usb_mode_check H usb is_update w = (Ok usb, w))
  /\ (USB.update_mode usb <> is_update ->
      USB.can_mode_switch usb = false ->
      exits_with_diagnostic (usb_mode_check H usb is_update w) w)
  /\ (USB.update_mode usb = true -> is_update = false ->
      USB.can_mode_switch usb = true ->
      forall u' w',
        usb_reopen H usb is_update w = (Ok u', w') ->
        USB.update_mode u' = true ->
        exits_with_diagnostic (usb_mode_check H usb is_update w) w')
  /\ (USB.update_mode usb = false -> is_update = true ->
      USB.can_mode_switch usb = true ->
      forall u' w',
        usb_reopen H usb is_update w = (Ok u', w') ->
        USB.update_mode u' = false ->
        usb_mode_check H usb is_update w
        = (Raise (Fatal not_switched_msg), w'))
  /\ (USB.update_mode usb = false -> is_update = false ->
      USB.update_needed usb = true ->
      exits_with_diagnostic (usb_mode_check H usb is_update w) w)
  /\ (USB.update_mode usb <> is_update ->
      USB.can_mode_switch usb = true ->
      forall u' w',
        usb_reopen H usb is_update w = (Ok u', w') ->
        USB.update_mode u' = is_update ->
        (is_update = false -> USB.update_needed u' = false) ->
        usb_mode_check H usb is_update w = (Ok u', w'))
  /\ (forall u w',
        usb_mode_check H usb is_update w = (Ok u, w') ->
        USB.update_mode u = is_update).
Proof.
  destruct (USB.update_mode usb) eqn:Um, is_update eqn:Iu.
  - (* update mode, update operation *)
    rewrite usb_mode_check_update_update by exact Um.
    repeat match goal with |- _ /\ _ => split end;
      solve [intros; congruence].
  - (* update mode, normal operation *)
    rewrite usb_mode_check_update_normal by exact Um.
    repeat match goal with |- _ /\ _ => split end;
      try solve [intros; congruence].
    + intros _ ->. apply fail_in_update_mode_exits.
    + intros _ _ -> u' w' -> ->. apply fail_in_update_mode_exits.
    + intros _ -> u' w' -> -> _. reflexivity.
    + intros u w'. destruct (USB.can_mode_switch usb).
      * destruct (usb_reopen H usb false w) as [[u'|e] w1];
          [|discriminate].
        destruct (USB.update_mode u') eqn:M.
        -- intro E. exfalso.
           exact (exits_not_ok _ _ _ _ (fail_in_update_mode_exits _ _) E).
        -- intro E. now injection E as <- _.
      * intro E. exfalso.
           exact (exits_not_ok _ _ _ _ (fail_in_update_mode_exits _ _) E).
  - (* normal mode, update operation *)
    rewrite usb_mode_check_normal_update by exact Um.
    repeat match goal with |- _ /\ _ => split end;
      try solve [intros; congruence].
    + intros _ ->. apply fail_not_in_update_mode_exits.
    + intros _ _ -> u' w' -> ->. reflexivity.
    + intros _ -> u' w' -> -> _. reflexivity.
    + intros u w'. destruct (USB.can_mode_switch usb).
      * destruct (usb_reopen H usb true w) as [[u'|e] w1];
          [|discriminate].
        destruct (USB.update_mode u') eqn:M; [|discriminate].
        intro E. now injection E as <- _.
      * intro E. exfalso.
           exact (exits_not_ok _ _ _ _ (fail_not_in_update_mode_exits _ _) E).
  - (* normal mode, normal operation *)
    rewrite usb_mode_check_normal_normal by exact Um.
    repeat match goal with |- _ /\ _ => split end;
      try solve [intros; congruence].
    + intros _ N. now rewrite (N eq_refl).
    + intros _ _ ->. apply fail_unsupported_exits.
    + intros u w'. destruct (USB.update_needed usb).
      * intro E. exfalso.
           exact (exits_not_ok _ _ _ _ (fail_unsupported_exits _ _) E).
      * intro E. now injection E as <- _.
Qed.

End ModeCheck.

Lemma usb_mode_check_table_witness :
  usb_mode_check (sim_host false true 2) unit_in_normal_mode false []
  = (Ok unit_in_normal_mode, [])
  /\ exits_with_diagnostic
       (usb_mode_check (sim_host true true 2) unit_jumpered false []) []
  /\ exits_with_diagnostic
       (usb_mode_check (sim_host false true 2) unit_outdated false []) []
  /\ USB.update_mode unit_in_update_mode = true
  /\ (exists u w,
         usb_mode_check (sim_host true true 2) unit_in_update_mode false []
         = (Ok u, w)
         /\ USB.update_mode u = false
         /\ USB.ser u = mkSerial "/dev/ttyACM1").
Proof.
  split.
  { destruct (usb_mode_check_table (sim_host false true 2)
                unit_in_normal_mode false []) as (Agree & _).
    apply Agree; reflexivity. }
  split.
  { destruct (usb_mode_check_table (sim_host true true 2) unit_jumpered
                false []) as (_ & NoSwitch & _).
    apply NoSwitch; [discriminate | reflexivity]. }
  split.
  { destruct (usb_mode_check_table (sim_host false true 2) unit_outdated
                false []) as (_ & _ & _ & _ & Unsupported & _).
    apply Unsupported; reflexivity. }
  split; [reflexivity|].
  destruct (usb_mode_check_table (sim_host true true 2) unit_in_update_mode
              false []) as (_ & _ & _ & _ & _ & Switched & _).
  eexists. eexists. split.
  - apply Switched; [discriminate | reflexivity | | | ].
    + vm_compute. reflexivity.
    + reflexivity.
    + reflexivity.
  - split; reflexivity.
Defined.

(** C5, as the claim states it, fails in two places.  Where a switch
    towards update mode leaves the device in normal mode, [usb_mode_check]
    neither prints nor calls [sys.exit(1)]: it fails through
    [error.check].  And where a normal operation finds the device in update
    mode and the switch lands in normal mode, the new session is returned
    without a word although its firmware needs an update, as the firmware
    of the session passed in did. *)
Lemma usb_mode_check_counterexample :
  (USB.update_mode unit_in_normal_mode = false
   /\ USB.can_mode_switch unit_in_normal_mode = true
   /\ (exists u' w',
          usb_reopen (sim_host false false 0) unit_in_normal_mode true []
          = (Ok u', w')
          /\ USB.update_mode u' = false)
   /\ fst (usb_mode_check (sim_host false false 0) unit_in_normal_mode
             true [])
      = Raise (Fatal not_switched_msg)
   /\ fst (usb_mode_check (sim_host false false 0) unit_in_normal_mode
             true [])
      <> Raise (SystemExit 1)
   /\ printed
        (snd (usb_mode_check (sim_host false false 0) unit_in_normal_mode
                true []))
      = [])
  /\ (USB.update_needed unit_outdated_in_update_mode = true
      /\ exists u w',
           usb_mode_check outdated_host unit_outdated_in_update_mode
             false []
           = (Ok u, w')
           /\ USB.update_mode u = false
           /\ USB.update_needed u = true
           /\ printed w' = []).
Proof.
  split.
  - split; [reflexivity|]. split; [reflexivity|]. split.
    + eexists. eexists. split; [vm_compute; reflexivity | reflexivity].
    + split; [vm_compute; reflexivity|].
      split; [vm_compute; discriminate | vm_compute; reflexivity].
  - split; [reflexivity|].
    eexists. eexists. split; [vm_compute; reflexivity|].
    repeat split; reflexivity.
Qed.

(** ** The initial open *)

Lemma usb_mode_check_flags (H : Host) (usb u : USB.Unit) (is_update : bool)
    (w w' : World) :
  usb_mode_check H usb is_update w = (Ok u, w') ->
  USB.jumperless_update u = USB.jumperless_update usb
  /\ USB.can_mode_switch u = USB.can_mode_switch usb.
Proof.
  destruct (USB.update_mode usb) eqn:Um, is_update.
  - rewrite usb_mode_check_update_update by exact Um.
    intro E. injection E as <- _. now split.
  - rewrite usb_mode_check_update_normal by exact Um.
    destruct (USB.can_mode_switch usb) eqn:Cs.
    + destruct (usb_reopen H usb false w) as [[u'|e] w1] eqn:R;
        [|discriminate].
      destruct (USB.update_mode u').
      * intro E. exfalso.
        exact (exits_not_ok _ _ _ _ (fail_in_update_mode_exits _ _) E).
      * intro E. injection E as <- _. rewrite <- Cs.
        exact (usb_reopen_flags H usb u' false w w1 R).
    + intro E. exfalso.
      exact (exits_not_ok _ _ _ _ (fail_in_update_mode_exits _ _) E).
  - rewrite usb_mode_check_normal_update by exact Um.
    destruct (USB.can_mode_switch usb) eqn:Cs.
    + destruct (usb_reopen H usb true w) as [[u'|e] w1] eqn:R;
        [|discriminate].
      destruct (USB.update_mode u'); [|discriminate].
      intro E. injection E as <- _. rewrite <- Cs.
      exact (usb_reopen_flags H usb u' true w w1 R).
    + intro E. exfalso.
      exact (exits_not_ok _ _ _ _ (fail_not_in_update_mode_exits _ _) E).
  - rewrite usb_mode_check_normal_normal by exact Um.
    destruct (USB.update_needed usb).
    + intro E. exfalso.
      exact (exits_not_ok _ _ _ _ (fail_unsupported_exits _ _) E).
    + intro E. injection E as <- _. now split.
Qed.

(** The session built by the first lines of [usb_open]. *)
Lemma open_unit_flags (H : Host) (devicename : option string)
    (u0 : USB.Unit) (w w0 : World) :
  open_unit H devicename w = (Ok u0, w0) ->
  USB.jumperless_update u0
  = negb ((USB.hw_model u0 =? 1) && (USB.hw_submodel u0 =? 0))
    && negb (is_win7 H)
  /\ USB.can_mode_switch u0
     = USB.jumperless_update u0
       && negb (USB.update_mode u0 && USB.update_jumpered u0).
Proof.
  unfold open_unit, bind.
  destruct (match devicename with
            | Some d => ret d
            | None => find_port H None
            end w) as [[d|e] w1]; [|discriminate].
  destruct (serial_Serial H d w1) as [[s|e] w2]; [|discriminate].
  destruct (USB_Unit H s w2) as [[i|e] w3]; [|discriminate].
  destruct (port_info H d w3) as [[p|e] w4]; [|discriminate].
  unfold ret. intro E. injection E as <- _. now split.
Qed.

Lemma is_win7_iff (H : Host) :
  is_win7 H = true
  <-> platform_system H = "Windows" /\ platform_release H = "7".
Proof.
  unfold is_win7. rewrite andb_true_iff, !String.eqb_eq. reflexivity.
Qed.

(** What the first lines of [usb_open] did when they built a session: the
    device path was given or found, the channel opened, and the device
    answered the query of [USB.Unit] on that channel; the session holds
    that answer. *)
Lemma open_unit_queries (H : Host) (devicename : option string)
    (u0 : USB.Unit) (w w0 : World) :
  open_unit H devicename w = (Ok u0, w0) ->
  exists d w1 i,
    ((devicename = Some d /\ w1 = w)
     \/ (devicename = None /\ find_port H None w = (Ok d, w1)))
    /\ host_can_open H w1 d = true
    /\ host_query H (EvOpen d :: w1) (mkSerial d) = Ok i
    /\ u0 = make_unit (mkSerial d) i (USB.port_info u0)
              (USB.jumperless_update u0) (USB.can_mode_switch u0).
Proof.
  unfold open_unit, bind.
  destruct (match devicename with
            | Some d => ret d
            | None => find_port H None
            end w) as [[d|e] w1] eqn:F; [|discriminate].
  unfold serial_Serial, USB_Unit.
  destruct (host_can_open H w1 d) eqn:O; [|discriminate].
  destruct (host_query H (EvOpen d :: w1) (mkSerial d)) as [i|e] eqn:Q;
    [|discriminate].
  unfold port_info, bind, comports, ret. intro E. injection E as <- _.
  exists d, w1, i. split.
  - destruct devicename as [d'|].
    + left. unfold ret in F. injection F as -> ->. now split.
    + right. now split.
  - split; [exact O|]. split; [exact Q | reflexivity].
Qed.

(** C9: whenever [usb_open] returns a session, the device path was given
    or found by [find_port], the channel on it opened and the device
    answered the query of [USB.Unit]; the session first built holds that
    answer, with [jumperless_update] set exactly when the answer is not
    hardware model 1 submodel 0 and the host is not Windows 7, and
    [can_mode_switch] set exactly when [jumperless_update] holds and the
    answer is not update mode with the update jumper present; the returned
    session carries these two flags, and is that first session when no
    mode check is asked for. *)
Theorem usb_open_capability_flags (H : Host) (devicename : option string)
    (is_update mode_check : bool) (w w' : World) (u : USB.Unit) :
  usb_open H devicename is_update mode_check w = (Ok u, w') ->
  exists d w1 i u0 w0,
    ((devicename = Some d /\ w1 = w)
     \/ (devicename = None /\ find_port H None w = (Ok d, w1)))
    /\ host_can_open H w1 d = true
    /\ host_query H (EvOpen d :: w1) (mkSerial d) = Ok i
    /\ open_unit H devicename w = (Ok u0, w0)
    /\ u0 = make_unit (mkSerial d) i (USB.port_info u0)
              (USB.jumperless_update u0) (USB.can_mode_switch u0)
    /\ (USB.jumperless_update u0 = true
        <-> (i_hw_model i, i_hw_submodel i) <> (1, 0)
            /\ ~ (platform_system H = "Windows" /\ platform_release H = "7"))
    /\ (USB.can_mode_switch u0 = true
        <-> USB.jumperless_update u0 = true
            /\ ~ (i_update_mode i = true /\ i_update_jumpered i = true))
    /\ USB.jumperless_update u = USB.jumperless_update u0
    /\ USB.can_mode_switch u = USB.can_mode_switch u0
    /\ (mode_check = false -> u = u0).
Proof.
  unfold usb_open. unfold bind at 1.
  destruct (open_unit H devicename w) as [[u0|e] w0] eqn:O; [|discriminate].
  intro E.
  destruct (open_unit_queries H devicename u0 w w0 O)
    as (d & w1 & i & P & Op & Q & U).
  exists d, w1, i, u0, w0.
  split; [exact P|]. split; [exact Op|]. split; [exact Q|].
  split; [reflexivity|]. split; [exact U|].
  destruct (open_unit_flags H devicename u0 w w0 O) as [J C].
  assert (Hm : USB.hw_model u0 = i_hw_model i) by (rewrite U; reflexivity).
  assert (Hs : USB.hw_submodel u0 = i_hw_submodel i)
    by (rewrite U; reflexivity).
  assert (Um : USB.update_mode u0 = i_update_mode i)
    by (rewrite U; reflexivity).
  assert (Uj : USB.update_jumpered u0 = i_update_jumpered i)
    by (rewrite U; reflexivity).
  rewrite Hm, Hs in J. rewrite Um, Uj in C. clear U Hm Hs Um Uj.
  split.
  { rewrite J. pose proof (is_win7_iff H) as WI.
    destruct (Z.eqb_spec (i_hw_model i) 1) as [Em | Nm],
      (Z.eqb_spec (i_hw_submodel i) 0) as [Es | Ns],
      (is_win7 H); cbn [andb negb]; intuition congruence. }
  split.
  { rewrite C.
    destruct (USB.jumperless_update u0), (i_update_mode i),
      (i_update_jumpered i); cbn [andb negb]; intuition congruence. }
  destruct mode_check.
  - destruct (usb_mode_check_flags H u0 u is_update w0 w' E) as [Ju Cu].
    repeat split; try assumption. discriminate.
  - injection E as <- _. repeat split; reflexivity.
Qed.

Lemma usb_open_capability_flags_witness :
  exists u w',
    usb_open (sim_host true true 2) None false true [] = (Ok u, w')
    /\ USB.update_mode u = false
    /\ USB.jumperless_update u = true
    /\ USB.can_mode_switch u = true.
Proof.
  destruct (usb_open (sim_host true true 2) None false true [])
    as [[u|e] w'] eqn:E; [|vm_compute in E; discriminate E].
  destruct (usb_open_capability_flags _ _ _ _ _ _ _ E)
    as (d & w1 & i & u0 & w0 & _ & _ & _ & O & _ & _ & _ & Ju & Cu & _).
  exists u, w'. split; [reflexivity|].
  vm_compute in O. injection O as <- <-.
  vm_compute in E. injection E as <- <-.
  repeat split; reflexivity.
Defined.

(** * Further properties of the connection code *)

(** ** [valid_ser_id] *)

Lemma cont_bits_bound (b : ascii) (x : N) :
  cont_bits b = Some x -> (x < 0x40)%N.
Proof.
  unfold cont_bits. cbv zeta.
  destruct ((0x80 <=? N_of_ascii b) && (N_of_ascii b <? 0xC0))%N eqn:C;
    [|discriminate].
  apply andb_true_iff in C as [C1 C2].
  apply N.leb_le in C1. apply N.ltb_lt in C2.
  intro E. injection E as <-. lia.
Qed.

Lemma first_cp_bound (b : ascii) (r : string) :
  (fst (first_cp b r) < 0x110000)%N.
Proof.
  unfold first_cp. cbv zeta.
  pose proof (N_ascii_bounded b) as B.
  repeat match goal with
         | |- context [if ?c then _ else _] => destruct c eqn:?
         | |- context [match ?x with _ => _ end] => destruct x eqn:?
         end;
    cbn [fst];
    repeat match goal with
           | E : (_ && _)%bool = true |- _ =>
               apply andb_true_iff in E as [? ?]
           | E : (_ <? _)%N = true |- _ => apply N.ltb_lt in E
           | E : (_ <? _)%N = false |- _ => apply N.ltb_ge in E
           | E : cont_bits _ = Some _ |- _ => apply cont_bits_bound in E
           end;
    try lia.
Qed.

Lemma decode_from_bound (s : string) :
  forall skip, Forall (fun c => (c < 0x110000)%N) (decode_from skip s).
Proof.
  induction s as [|b r IH]; intro skip; cbn [decode_from]; [constructor|].
  destruct skip as [|k]; [|apply IH].
  pose proof (first_cp_bound b r) as B.
  destruct (first_cp b r) as [c n]. constructor; [exact B | apply IH].
Qed.

Lemma upper_special_bound :
  forallb (fun e : N * list N => forallb (fun c => (c <? 0x110000)%N) (snd e))
          upper_special = true.
Proof. vm_compute. reflexivity. Qed.

Lemma upper_runs_bound :
  forallb (fun e : N * N * N * N =>
             let '(lo, hi, _, image) := e in
             ((lo <=? hi) && (image + (hi - lo) <? 0x110000))%N)
          upper_runs = true.
Proof. vm_compute. reflexivity. Qed.

Lemma upper_cp_bound (c : N) :
  (c < 0x110000)%N -> Forall (fun u => (u < 0x110000)%N) (upper_cp c).
Proof.
  intro B. unfold upper_cp. destruct (c <? 0x80)%N.
  - destruct ((0x61 <=? c) && (c <=? 0x7A))%N; repeat constructor; lia.
  - destruct (find (fun e => (fst e =? c)%N) upper_special) as [[k l]|] eqn:F.
    + apply find_some in F as [I _].
      pose proof upper_special_bound as T. rewrite forallb_forall in T.
      specialize (T _ I). cbn [snd] in *. rewrite forallb_forall in T.
      apply Forall_forall. intros u Iu. now apply N.ltb_lt, T.
    + destruct (find _ upper_runs) as [[[[lo hi] st] image]|] eqn:R;
        [|repeat constructor; exact B].
      apply find_some in R as [I C].
      pose proof upper_runs_bound as T. rewrite forallb_forall in T.
      specialize (T _ I). cbn in T.
      apply andb_true_iff in T as [T1 T2].
      apply N.leb_le in T1. apply N.ltb_lt in T2.
      apply andb_true_iff in C as [C _].
      apply andb_true_iff in C as [C1 C2].
      apply N.leb_le in C1, C2.
      repeat constructor. lia.
Qed.

Lemma upper_points_bound (s : string) :
  Forall (fun u => (u < 0x110000)%N) (flat_map upper_cp (decode s)).
Proof.
  unfold decode. pose proof (decode_from_bound s O) as D.
  induction D as [|c l Bc Bl IH]; cbn [flat_map]; [constructor|].
  apply Forall_app. split; [now apply upper_cp_bound | exact IH].
Qed.

(** The encoding of a code point outside ASCII starts with a byte from
    [0xC0] on. *)
Lemma encode_cp_lead (c : N) :
  (0x80 <= c < 0x110000)%N ->
  exists b r, encode_cp c = String b r /\ (0xC0 <= N_of_ascii b)%N.
Proof.
  intros [L U]. unfold encode_cp.
  destruct (N.ltb_spec c 0x80); [lia|].
  destruct (N.ltb_spec c 0x800).
  { eexists. eexists. split; [reflexivity|].
    assert (c / 0x40 < 0x20)%N by (apply N.Div0.div_lt_upper_bound; lia).
    pose proof (N.le_0_l (c / 0x40)).
    rewrite N_ascii_embedding; lia. }
  destruct (N.ltb_spec c 0x10000).
  { eexists. eexists. split; [reflexivity|].
    assert (c / 0x1000 < 0x10)%N by (apply N.Div0.div_lt_upper_bound; lia).
    pose proof (N.le_0_l (c / 0x1000)).
    rewrite N_ascii_embedding; lia. }
  eexists. eexists. split; [reflexivity|].
  assert (c / 0x40000 < 0x5)%N by (apply N.Div0.div_lt_upper_bound; lia).
  pose proof (N.le_0_l (c / 0x40000)).
  rewrite N_ascii_embedding; lia.
Qed.

(** A text that starts with an ASCII byte starts with that code point. *)
Lemma encode_head_ascii (l : list N) (k : ascii) (rest : string) :
  Forall (fun u => (u < 0x110000)%N) l ->
  (N_of_ascii k < 0x80)%N ->
  encode l = String k rest ->
  exists l', l = N_of_ascii k :: l' /\ encode l' = rest.
Proof.
  intros F K E. destruct l as [|c r]; [discriminate|].
  inversion F as [|? ? Bc Br]; subst. cbn [encode] in E.
  destruct (N.ltb_spec c 0x80) as [A | A].
  - destruct (encode_cp_cases c) as [[_ Ec] | (b1 & b2 & t & Ec)].
    + rewrite Ec in E. cbn [append] in E. injection E as <- <-.
      exists r. rewrite N_ascii_embedding by lia. now split.
    + exfalso. unfold encode_cp in Ec.
      destruct (N.ltb_spec c 0x80); [discriminate Ec | lia].
  - exfalso. destruct (encode_cp_lead c (conj A Bc)) as (b & t & Ec & Lb).
    rewrite Ec in E. cbn [append] in E. injection E as -> _. lia.
Qed.

Lemma upper_special_heads :
  forallb (fun e : N * list N =>
             match snd e with
             | [] => false
             | u :: _ =>
                 (negb (u =? 0x47) && (negb (u =? 0x57) || (fst e =? 0x1E98)))%N
             end) upper_special = true.
Proof. vm_compute. reflexivity. Qed.

(** The code points whose uppercase form begins with G are g and G, whose
    form is G alone; those whose form begins with W are w, W and U+1E98. *)
Lemma upper_cp_head (c u : N) (t : list N) :
  upper_cp c = u :: t ->
  (u = 0x47%N -> t = [] /\ (c = 0x47 \/ c = 0x67)%N)
  /\ (u = 0x57%N -> (c = 0x57 \/ c = 0x77 \/ c = 0x1E98)%N).
Proof.
  intro E.
  destruct (upper_cp_cases c)
    as [[L U] | [G [(l & T & U) | (u' & Gu & U)]]]; rewrite U in E.
  - injection E as E <-.
    destruct ((0x61 <=? c) && (c <=? 0x7A))%N eqn:C.
    + apply andb_true_iff in C as [C1 C2]. apply N.leb_le in C1, C2.
      split; intro; [split; [reflexivity|]|]; lia.
    + split; intro; [split; [reflexivity|]|]; lia.
  - subst l. pose proof upper_special_heads as F.
    rewrite forallb_forall in F. specialize (F _ T). cbn [fst snd] in F.
    apply andb_true_iff in F as [F1 F2].
    apply negb_true_iff, N.eqb_neq in F1.
    split; [intro; contradiction|]. intros ->.
    cbn in F2. apply N.eqb_eq in F2. auto.
  - injection E as <- <-. split; intro; lia.
Qed.

(** [valid_ser_id] accepts exactly the identifiers whose first code point
    is g or G and whose second is w, W or U+1E98, the small w with a ring
    above, whose uppercase form is W followed by a combining ring; [None]
    and the empty string are not valid. *)
Theorem valid_ser_id_accepts (ser_id : option string) :
  valid_ser_id ser_id = true
  <-> exists s c0 c1 rest,
        ser_id = Some s /\ decode s = c0 :: c1 :: rest
        /\ (c0 = 0x47 \/ c0 = 0x67)%N
        /\ (c1 = 0x57 \/ c1 = 0x77 \/ c1 = 0x1E98)%N.
Proof.
  unfold valid_ser_id, startswith, upper. split.
  - destruct ser_id as [s|]; [|discriminate]. intro V.
    apply andb_true_iff in V as [_ P].
    pose proof (upper_points_bound s) as B.
    destruct (encode (flat_map upper_cp (decode s))) as [|k1 t1] eqn:E;
      [discriminate P|].
    cbn [String.prefix] in P.
    destruct (ascii_dec "G" k1) as [<- |]; [|discriminate P].
    destruct t1 as [|k2 t]; [discriminate P|].
    cbn [String.prefix] in P.
    destruct (ascii_dec "W" k2) as [<- |]; [|discriminate P].
    destruct (encode_head_ascii _ "G" _ B (eq_refl : _ = Lt) E)
      as (l1 & L1 & E1).
    assert (B1 : Forall (fun u => (u < 0x110000)%N) l1).
    { rewrite L1 in B. now inversion B. }
    destruct (encode_head_ascii _ "W" _ B1 (eq_refl : _ = Lt) E1)
      as (l2 & -> & _).
    clear E E1 B B1 P.
    destruct (decode s) as [|c0 d1] eqn:D; [discriminate L1|].
    cbn [flat_map] in L1.
    destruct (upper_cp c0) as [|u0 t0] eqn:U0;
      [now destruct (upper_cp_nonempty c0)|].
    injection L1 as -> L1.
    destruct (proj1 (upper_cp_head c0 _ t0 U0) eq_refl) as [-> C0].
    cbn [app] in L1.
    destruct d1 as [|c1 d2]; [discriminate L1|].
    cbn [flat_map] in L1.
    destruct (upper_cp c1) as [|u1 t1] eqn:U1;
      [now destruct (upper_cp_nonempty c1)|].
    injection L1 as -> _.
    exists s, c0, c1, d2. split; [reflexivity|]. split; [exact D|].
    split; [exact C0|]. exact (proj2 (upper_cp_head c1 _ t1 U1) eq_refl).
  - intros (s & c0 & c1 & rest & -> & D & C0 & C1).
    apply andb_true_iff. split.
    + destruct s; [discriminate D | reflexivity].
    + rewrite D. cbn [flat_map].
      assert (U0 : upper_cp c0 = [0x47%N])
        by (destruct C0 as [-> | ->]; reflexivity).
      assert (U1 : exists t, upper_cp c1 = 0x57%N :: t)
        by (destruct C1 as [-> | [-> | ->]]; eexists; vm_compute;
            reflexivity).
      destruct U1 as [t U1]. rewrite U0, U1. cbn [app encode].
      change (encode_cp 0x47) with "G". change (encode_cp 0x57) with "W".
      cbn [append]. now destruct (encode (t ++ flat_map upper_cp rest)).
Qed.

(** The serial identifier with the ringed w is valid, so that a candidate
    with another valid serial identifier scores 0 against a previous port
    that carries it. *)
Lemma valid_ser_id_ringed_serial :
  valid_ser_id (Some ringed_serial) = true
  /\ valid_ser_id (Some "gw1") = true
  /\ valid_ser_id (Some "G") = false
  /\ valid_ser_id (Some "AGW1") = false
  /\ score_port gw_port (Some ringed_port) = 0.
Proof. repeat split; reflexivity. Qed.

(** ** What the scorer never does *)

Lemma serial_rule_values (x : ListPortInfo) (old : option ListPortInfo) :
  let s := serial_rule x old (base_score x) in
  s = 0 \/ s = 5 \/ s = 10 \/ s = 20 \/ s = 30.
Proof.
  unfold serial_rule.
  destruct (base_score_values x) as [E | [E | [E | E]]]; rewrite E; cbn;
    destruct (valid_ser_id (serial_number x)); auto;
    destruct old as [o|]; auto;
    destruct (valid_ser_id (serial_number o)); cbn; auto;
    destruct (attr_eqb (serial_number x) (serial_number o)); auto 6.
Qed.

Lemma location_rule_cases (x : ListPortInfo) (old : option ListPortInfo)
    (s : Z) :
  location_rule x old s = s
  \/ (location_rule x old s = 0
      /\ exists o, old = Some o /\ location_passes x o = false).
Proof.
  destruct old as [o|]; [|now left].
  destruct (location_passes x o) eqn:L.
  - left. now apply location_rule_passes.
  - right. split; [now apply location_rule_rejects | eauto].
Qed.

(** A positive score means a positive score before the location filter,
    and a candidate the filter let through. *)
Lemma score_port_positive (x : ListPortInfo) (old : option ListPortInfo) :
  0 < score_port x old ->
  score_port x old = serial_rule x old (base_score x)
  /\ forall o, old = Some o -> location_passes x o = true.
Proof.
  unfold score_port. intro P.
  destruct (location_rule_cases x old (serial_rule x old (base_score x)))
    as [E | [E _]]; [|lia].
  split; [exact E|]. intros o ->.
  destruct (location_passes x o) eqn:L; [reflexivity|].
  rewrite (location_rule_rejects x o _ L) in P. lia.
Qed.

(** What a positive score tells about a candidate. *)
Lemma score_port_positive_facts (x : ListPortInfo)
    (old : option ListPortInfo) :
  0 < score_port x old ->
  recognized x = true
  /\ forall o, old = Some o ->
       location_passes x o = true
       /\ (valid_ser_id (serial_number x) = true ->
           valid_ser_id (serial_number o) = true ->
           serial_number x = serial_number o).
Proof.
  intro P. destruct (score_port_positive x old P) as [E L].
  assert (B : 0 < base_score x).
  { rewrite E in P. unfold serial_rule in P.
    destruct (0 <? base_score x) eqn:B; [now apply Z.ltb_lt|].
    cbn in P. apply Z.ltb_ge in B. lia. }
  split; [now apply base_score_recognized|].
  intros o ->. split; [exact (L o eq_refl)|]. intros V Vo.
  rewrite E in P. unfold serial_rule in P. rewrite V, Vo in P.
  apply Z.ltb_lt in B. rewrite B in P. cbn in P.
  destruct (attr_eqb (serial_number x) (serial_number o)) eqn:A;
    [now apply attr_eqb_eq | lia].
Qed.

(** The scorer only ever answers 0, 5, 10, 20 or 30.  A positive score
    goes to recognized candidates only, and on a reopen only to candidates
    the location filter lets through; 30 is reserved for a reopen whose
    anchor and candidate carry the same valid serial identifier; and
    against an anchor with a valid serial identifier no candidate with
    another valid serial identifier scores above 0. *)
Theorem score_port_values (x : ListPortInfo) (old : option ListPortInfo) :
  (score_port x old = 0 \/ score_port x old = 5 \/ score_port x old = 10
   \/ score_port x old = 20 \/ score_port x old = 30)
  /\ (0 < score_port x old -> recognized x = true)
  /\ (0 < score_port x old ->
      forall o, old = Some o -> location_passes x o = true)
  /\ (score_port x old = 30 ->
      exists o, old = Some o
                /\ valid_ser_id (serial_number x) = true
                /\ serial_number x = serial_number o)
  /\ (0 < score_port x old ->
      forall o, old = Some o ->
                valid_ser_id (serial_number x) = true ->
                valid_ser_id (serial_number o) = true ->
                serial_number x = serial_number o).
Proof.
  split.
  { unfold score_port.
    destruct (location_rule_cases x old (serial_rule x old (base_score x)))
      as [-> | [-> _]]; [apply serial_rule_values | now left]. }
  split.
  { intro P. destruct (score_port_positive x old P) as [E _].
    rewrite E in P. apply base_score_recognized.
    unfold serial_rule in P.
    destruct (0 <? base_score x) eqn:B; [now apply Z.ltb_lt|].
    cbn in P. apply Z.ltb_ge in B. lia. }
  split.
  { intro P. apply (score_port_positive x old P). }
  split.
  { intro T. assert (P : 0 < score_port x old) by lia.
    destruct (score_port_positive x old P) as [E _].
    rewrite E in T. unfold serial_rule in T.
    destruct (valid_ser_id (serial_number x)) eqn:V.
    - destruct (0 <? base_score x); cbn in T.
      + destruct old as [o|]; [|discriminate].
        exists o. split; [reflexivity|]. split; [reflexivity|].
        destruct (valid_ser_id (serial_number o)); cbn in T;
          [|discriminate].
        destruct (attr_eqb (serial_number x) (serial_number o)) eqn:A;
          [now apply attr_eqb_eq | discriminate].
      + destruct (base_score_values x) as [B | [B | [B | B]]]; lia.
    - rewrite andb_false_r in T.
      destruct (base_score_values x) as [B | [B | [B | B]]]; lia. }
  intros P o -> V Vo.
  destruct (score_port_positive x (Some o) P) as [E _].
  rewrite E in P. unfold serial_rule in P. rewrite V, Vo in P.
  destruct (0 <? base_score x) eqn:B0; cbn in P.
  - destruct (attr_eqb (serial_number x) (serial_number o)) eqn:A;
      [now apply attr_eqb_eq | lia].
  - apply Z.ltb_ge in B0. lia.
Qed.

Lemma score_port_values_witness :
  recognized gw_port = true
  /\ location_passes gw_port gw_port_renamed = true
  /\ serial_number gw_port_renamed = serial_number gw_port.
Proof.
  assert (P : 0 < score_port gw_port (Some gw_port_renamed))
    by (vm_compute; reflexivity).
  destruct (score_port_values gw_port (Some gw_port_renamed))
    as (_ & R & L & _ & S).
  split; [exact (R P)|]. split; [exact (L P _ eq_refl)|].
  symmetry. apply (S P _ eq_refl); reflexivity.
Defined.

(** ** What the locator answers *)

Lemma find_port_loop_sound (old : option ListPortInfo)
    (ports : list ListPortInfo) :
  forall best_score best_port best_score' best_port',
    find_port_loop old ports best_score best_port
    = Ok (best_score', best_port') ->
    (best_score' = best_score /\ best_port' = best_port)
    \/ (exists p, In p ports /\ best_port' = Some p
                  /\ best_score' = score_port p old
                  /\ best_score < best_score').
Proof.
  induction ports as [|x rest IH]; intros bs bp bs' bp' E.
  - injection E as <- <-. now left.
  - cbn [find_port_loop] in E.
    destruct (debug_line x (score_port x old)); [|discriminate].
    destruct (bs <? score_port x old) eqn:C.
    + apply Z.ltb_lt in C.
      destruct (IH _ _ _ _ E) as [[-> ->] | (p & I & -> & -> & L)].
      * right. exists x. repeat split; auto. now left.
      * right. exists p. repeat split; auto; [now right | lia].
    + destruct (IH _ _ _ _ E) as [[-> ->] | (p & I & -> & -> & L)].
      * now left.
      * right. exists p. repeat split; auto. now right.
Qed.

(** Whatever [find_port] returns is the device path of an enumerated port
    that scored above 0; on a reopen that port passed the location filter
    of the anchor, and does not carry a valid serial identifier other than
    the anchor's valid one. *)
Theorem select_port_sound (old : option ListPortInfo)
    (ports : list ListPortInfo) (d : string) :
  select_port old ports = Ok d ->
  exists p,
    In p ports /\ device p = d /\ 0 < score_port p old
    /\ recognized p = true
    /\ (forall o, old = Some o ->
          location_passes p o = true
          /\ (valid_ser_id (serial_number p) = true ->
              valid_ser_id (serial_number o) = true ->
              serial_number p = serial_number o)).
Proof.
  unfold select_port. intro E.
  destruct (find_port_loop old ports 0 None) as [[bs [bp|]]|e] eqn:L;
    try discriminate.
  injection E as <-.
  destruct (find_port_loop_sound old ports _ _ _ _ L)
    as [[_ N] | (p & I & S & -> & P)]; [discriminate|].
  injection S as ->. exists p.
  destruct (score_port_positive_facts p old P) as [R A].
  split; [exact I|]. split; [reflexivity|]. split; [exact P|].
  split; [exact R|]. exact A.
Qed.

Lemma select_port_sound_witness :
  exists p,
    In p [ftdi_port; other_gw_port; gw_port_renamed]
    /\ device p = "/dev/ttyACM1"
    /\ serial_number p = serial_number gw_port.
Proof.
  destruct (select_port_sound (Some gw_port)
              [ftdi_port; other_gw_port; gw_port_renamed] "/dev/ttyACM1"
              eq_refl) as (p & I & D & _ & _ & A).
  exists p. split; [exact I|]. split; [exact D|].
  destruct (A gw_port eq_refl) as [_ S].
  destruct I as [<- | [<- | [<- | []]]]; try discriminate D.
  reflexivity.
Defined.

Lemma select_port_usb_witness :
  select_port None [ftdi_port]
  = Raise (SerialException "Cannot find the Greaseweazle device")
  /\ exists l1 p l2,
       [pico_port; gw_port; other_gw_port] = (l1 ++ p :: l2)%list
       /\ select_port None [pico_port; gw_port; other_gw_port]
          = Ok (device p)
       /\ (forall y, In y l1 -> score_port y None < score_port p None).
Proof.
  split.
  - destruct (select_port_usb None [ftdi_port])
      as [[_ E] | (l1 & p & l2 & _ & E & _)].
    + repeat constructor.
    + exact E.
    + vm_compute in E. discriminate E.
  - destruct (select_port_usb None [pico_port; gw_port; other_gw_port])
      as [[_ E] | (l1 & p & l2 & Eq & E & _ & B1 & _)].
    + repeat constructor.
    + vm_compute in E. discriminate E.
    + exists l1, p, l2. repeat split; assumption.
Defined.

Lemma select_port_non_usb_witness :
  select_port (Some gw_port) [ftdi_port; builtin_port; gw_port]
  = Raise (TypeError "%X format: an integer is required, not NoneType").
Proof.
  apply (select_port_non_usb (Some gw_port)
           [ftdi_port; builtin_port; gw_port]).
  apply Exists_cons_tl. apply Exists_cons_hd. reflexivity.
Defined.

Lemma find_first_match {A} (f : A -> bool) (l : list A) :
  match List.find f l with
  | Some x =>
      f x = true
      /\ exists l1 l2, l = (l1 ++ x :: l2)%list
                       /\ forall y, In y l1 -> f y = false
  | None => forall y, In y l -> f y = false
  end.
Proof.
  induction l as [|a l IH]; cbn [List.find].
  - intros y [].
  - destruct (f a) eqn:F.
    + split; [exact F|]. exists [], l. split; [reflexivity | intros y []].
    + destruct (List.find f l) as [x|].
      * destruct IH as (Fx & l1 & l2 & -> & N). split; [exact Fx|].
        exists (a :: l1), l2. split; [reflexivity|].
        intros y [<- | I]; [exact F | now apply N].
      * intros y [<- | I]; [exact F | now apply IH].
Qed.

(** [port_info] enumerates the ports once and answers the first one whose
    device path is the one asked for; it answers [None] exactly when no
    enumerated port has that path. *)
Theorem port_info_first_match (H : Host) (devname : string) (w : World) :
  exists r,
    port_info H devname w = (Ok r, EvComports :: w)
    /\ match r with
       | Some x =>
           device x = devname
           /\ exists l1 l2,
               host_comports H w = (l1 ++ x :: l2)%list
               /\ forall y, In y l1 -> device y <> devname
       | None => forall y, In y (host_comports H w) -> device y <> devname
       end.
Proof.
  unfold port_info, bind, comports, ret.
  eexists. split; [reflexivity|].
  pose proof (find_first_match (fun x => (device x =? devname)%string)
                (host_comports H w)) as F.
  destruct (List.find _ (host_comports H w)) as [x|].
  - destruct F as (Fx & l1 & l2 & E & N). split; [now apply String.eqb_eq|].
    exists l1, l2. split; [exact E|].
    intros y I. apply String.eqb_neq. now apply N.
  - intros y I. apply String.eqb_neq. now apply F.
Qed.

(** ** What the mode check and the open guarantee *)

Lemma usb_mode_check_returns_requested_mode (H : Host) (usb u : USB.Unit)
    (is_update : bool) (w w' : World) :
  usb_mode_check H usb is_update w = (Ok u, w') ->
  USB.update_mode u = is_update.
Proof.
  destruct (USB.update_mode usb) eqn:Um, is_update.
  - rewrite usb_mode_check_update_update by exact Um.
    intro E. now injection E as <- _.
  - rewrite usb_mode_check_update_normal by exact Um.
    destruct (USB.can_mode_switch usb).
    + destruct (usb_reopen H usb false w) as [[u'|e] w1]; [|discriminate].
      destruct (USB.update_mode u') eqn:M.
      * intro E. exfalso.
        exact (exits_not_ok _ _ _ _ (fail_in_update_mode_exits _ _) E).
      * intro E. now injection E as <- _.
    + intro E. exfalso.
      exact (exits_not_ok _ _ _ _ (fail_in_update_mode_exits _ _) E).
  - rewrite usb_mode_check_normal_update by exact Um.
    destruct (USB.can_mode_switch usb).
    + destruct (usb_reopen H usb true w) as [[u'|e] w1]; [|discriminate].
      destruct (USB.update_mode u') eqn:M; [|discriminate].
      intro E. now injection E as <- _.
    + intro E. exfalso.
      exact (exits_not_ok _ _ _ _ (fail_not_in_update_mode_exits _ _) E).
  - rewrite usb_mode_check_normal_normal by exact Um.
    destruct (USB.update_needed usb).
    + intro E. exfalso.
      exact (exits_not_ok _ _ _ _ (fail_unsupported_exits _ _) E).
    + intro E. now injection E as <- _.
Qed.

(** With the mode check on, a session returned by [usb_open] is in the
    mode of the requested operation, and when the operation is a normal
    one and no mode switch was needed its firmware does not need an
    update. *)
Theorem usb_open_returns_requested_mode (H : Host)
    (devicename : option string) (is_update : bool) (w w' : World)
    (u : USB.Unit) :
  usb_open H devicename is_update true w = (Ok u, w') ->
  USB.update_mode u = is_update
  /\ (forall u0 w0,
        open_unit H devicename w = (Ok u0, w0) ->
        USB.update_mode u0 = false -> is_update = false ->
        u = u0 /\ w' = w0 /\ USB.update_needed u = false).
Proof.
  unfold usb_open. unfold bind at 1.
  destruct (open_unit H devicename w) as [[u0|e] w0] eqn:O; [|discriminate].
  intro E. split.
  - exact (usb_mode_check_returns_requested_mode H u0 u is_update w0 w' E).
  - intros u1 w1 Eq Um ->. injection Eq as <- <-.
    rewrite usb_mode_check_normal_normal in E by exact Um.
    destruct (USB.update_needed u0) eqn:N.
    + exfalso.
      exact (exits_not_ok _ _ _ _ (fail_unsupported_exits _ _) E).
    + injection E as <- <-. now repeat split.
Qed.

Lemma usb_open_returns_requested_mode_witness :
  exists u w',
    usb_open (sim_host true true 2) None false true [] = (Ok u, w')
    /\ USB.update_mode u = false.
Proof.
  destruct (usb_open (sim_host true true 2) None false true [])
    as [[u|e] w'] eqn:E; [|vm_compute in E; discriminate E].
  exists u, w'. split; [reflexivity|].
  exact (proj1 (usb_open_returns_requested_mode _ _ _ _ _ _ E)).
Defined.

(** When the device cannot switch mode, or is already in the mode of the
    requested operation, [usb_mode_check] leaves the device alone: it
    issues no mode change, closes and opens no channel, does not sleep and
    does not enumerate; all it may do is print. *)
Theorem usb_mode_check_leaves_device_alone (H : Host) (usb : USB.Unit)
    (is_update : bool) (w : World) :
  USB.can_mode_switch usb = false \/ USB.update_mode usb = is_update ->
  exists lines,
    snd (usb_mode_check H usb is_update w) = (map EvPrint lines ++ w)%list.
Proof.
  intro C.
  assert (X : forall (m : result USB.Unit * World),
             exits_with_diagnostic m w ->
             exists lines, snd m = (map EvPrint lines ++ w)%list).
  { intros m [_ (lines & _ & E)]. now exists lines. }
  destruct (USB.update_mode usb) eqn:Um, is_update.
  - rewrite usb_mode_check_update_update by exact Um. now exists [].
  - rewrite usb_mode_check_update_normal by exact Um.
    destruct C as [-> | C]; [|discriminate].
    apply X, fail_in_update_mode_exits.
  - rewrite usb_mode_check_normal_update by exact Um.
    destruct C as [-> | C]; [|discriminate].
    apply X, fail_not_in_update_mode_exits.
  - rewrite usb_mode_check_normal_normal by exact Um.
    destruct (USB.update_needed usb).
    + apply X, fail_unsupported_exits.
    + now exists [].
Qed.

Lemma usb_mode_check_leaves_device_alone_witness :
  exists lines,
    snd (usb_mode_check (sim_host true true 2) unit_jumpered false [])
    = (map EvPrint lines ++ [])%list.
Proof.
  apply (usb_mode_check_leaves_device_alone (sim_host true true 2)
           unit_jumpered false []).
  left. reflexivity.
Defined.

(** * The command-line helpers *)

(** ** Strings *)

Lemma append_assoc (a b c : string) : ((a ++ b) ++ c = a ++ (b ++ c))%string.
Proof. induction a as [|x a IH]; cbn; [reflexivity | now rewrite IH]. Qed.

Lemma append_nil_r (a : string) : (a ++ EmptyString)%string = a.
Proof. induction a as [|x a IH]; cbn; [reflexivity | now rewrite IH]. Qed.

(** ** [drive_letter] *)

(** A code point whose uppercase form is one of the keys of the table is
    that key, or the small letter of the key A or B. *)
Lemma upper_cp_drive (c k : N) :
  upper_cp c = [k] -> In k [0x41; 0x42; 0x30; 0x31; 0x32]%N ->
  c = k \/ (c = (k + 0x20)%N /\ (k = 0x41 \/ k = 0x42)%N).
Proof.
  intros E I. cbn [In] in I.
  destruct (upper_cp_cases c)
    as [[L U] | [G [(l & T & U) | (u & Gu & U)]]]; rewrite U in E.
  - destruct ((0x61 <=? c) && (c <=? 0x7A))%N eqn:C; injection E as E.
    + apply andb_true_iff in C as [C1 C2]. apply N.leb_le in C1, C2. lia.
    + now left.
  - subst l. pose proof upper_special_forms as F.
    rewrite forallb_forall in F. specialize (F _ T). cbn [snd] in F.
    apply orb_true_iff in F as [F | F]; apply N.eqb_eq in F; lia.
  - injection E as E. lia.
Qed.

Lemma upper_single_byte (s : string) (k : ascii) :
  upper s = String k EmptyString ->
  In (N_of_ascii k) [0x41; 0x42; 0x30; 0x31; 0x32]%N ->
  s = String k EmptyString
  \/ (s = String (ascii_of_N (N_of_ascii k + 0x20)) EmptyString
      /\ (N_of_ascii k = 0x41 \/ N_of_ascii k = 0x42)%N).
Proof.
  unfold upper. intros E I.
  destruct (encode_single_byte _ _ E) as (c0 & F & L & ->).
  rewrite N_ascii_embedding in * by lia.
  destruct (flat_map_single upper_cp (decode s) c0 upper_cp_nonempty F)
    as (c & D & U).
  destruct (upper_cp_drive c c0 U I) as [-> | [-> K]].
  - left. now apply decode_single_ascii.
  - right. split; [|exact K]. apply decode_single_ascii; [exact D|].
    cbn [In] in I. lia.
Qed.

(** [drive_letter] accepts exactly the letters A and B in either case and
    the digits 0, 1 and 2; it answers an IBM PC unit 0 or 1 or a Shugart
    unit 0 to 2, and rejects everything else, the empty string and longer
    strings included, with a message that quotes the argument as given. *)
Theorem drive_letter_accepts (letter : string) :
  match drive_letter letter with
  | inl (bus, unit) =>
      In letter ["A"; "a"; "B"; "b"; "0"; "1"; "2"]
      /\ ((bus = IBMPC /\ 0 <= unit <= 1)
          \/ (bus = Shugart /\ 0 <= unit <= 2))
  | inr msg =>
      ~ In letter ["A"; "a"; "B"; "b"; "0"; "1"; "2"]
      /\ msg = "invalid drive letter: '" ++ letter ++ "'"
  end.
Proof.
  unfold drive_letter.
  destruct (dict_get drive_types (upper letter)) as [[bus unit]|] eqn:G.
  - cbn [dict_get drive_types] in G.
    repeat match type of G with
           | context [String.eqb ?k (upper letter)] =>
               destruct (String.eqb_spec k (upper letter)) as [E | _];
               [injection G as <- <-;
                destruct (upper_single_byte letter _ (eq_sym E))
                  as [-> | [-> K]];
                [cbn; lia | | vm_compute in K; try (exfalso; intuition congruence)];
                (split; [cbn; auto 8 | first [left; split; [reflexivity | lia]
                                             | right; split; [reflexivity | lia]]])
               |]
           end.
    discriminate G.
  - split; [|reflexivity]. intro I. cbn [In] in I.
    repeat (destruct I as [<- | I]; [vm_compute in G; discriminate G|]).
    exact I.
Qed.

(** ** [range_str] *)

Lemma range_str_loop_app (l1 l2 : list Z) :
  forall p str,
    range_str_loop (l1 ++ l2)%list p str
    = let (p1, s1) := range_str_loop l1 p str in range_str_loop l2 p1 s1.
Proof.
  induction l1 as [|i l1 IH]; intros p str; [reflexivity|].
  cbn [app range_str_loop].
  destruct p as [[a b]|]; [destruct (i =? b + 1)|]; apply IH.
Qed.

(** Text already written stays in front of what the loop adds. *)
Lemma range_str_loop_prefix (l : list Z) :
  forall p pre str,
    range_str_loop l p (pre ++ str)
    = let (p', s') := range_str_loop l p str in (p', pre ++ s').
Proof.
  induction l as [|i l IH]; intros p pre str; [reflexivity|].
  cbn [range_str_loop].
  destruct p as [[a b]|]; [destruct (i =? b + 1)|]; try apply IH.
  rewrite <- IH. now rewrite append_assoc.
Qed.

Lemma range_str_loop_cons (i : Z) (r : list Z) (p : option (Z * Z))
    (str : string) :
  range_str_loop (i :: r) p str
  = match p with
    | Some (a, b) =>
        if i =? b + 1 then range_str_loop r (Some (a, i)) str
        else range_str_loop r (Some (i, i)) (str ++ fmt_run (a, b) ++ ",")
    | None => range_str_loop r (Some (i, i)) str
    end.
Proof. reflexivity. Qed.

(** After a non-empty list the pair ends on the last element. *)
Lemma range_str_loop_last (l : list Z) :
  forall p str i,
    exists a s',
      range_str_loop (i :: l) p str = (Some (a, last (i :: l) 0), s').
Proof.
  induction l as [|j l IH]; intros p str i.
  - cbn. destruct p as [[a b]|]; [destruct (i =? b + 1)|]; eauto.
  - change (last (i :: j :: l) 0) with (last (j :: l) 0).
    rewrite range_str_loop_cons.
    destruct p as [[a b]|]; [destruct (i =? b + 1)|]; apply IH.
Qed.

Lemma range_str_loop_run (n : nat) :
  forall a b str,
    range_str_loop (zrun (b + 1) n) (Some (a, b)) str
    = (Some (a, b + Z.of_nat n), str).
Proof.
  induction n as [|n IH]; intros a b str.
  - cbn. now rewrite Z.add_0_r.
  - cbn [zrun range_str_loop]. rewrite Z.eqb_refl, IH.
    now replace (b + Z.of_nat (S n)) with (b + 1 + Z.of_nat n) by lia.
Qed.

(** A run of consecutive integers is printed as its two ends joined by a
    dash, and a single integer as itself. *)
Theorem range_str_run (a : Z) (n : nat) :
  range_str (zrun a (S n))
  = match n with
    | O => str_of_int a
    | S _ => str_of_int a ++ "-" ++ str_of_int (a + Z.of_nat n)
    end.
Proof.
  unfold range_str. cbn [zrun range_str_loop].
  rewrite range_str_loop_run. unfold fmt_run. cbn [fst snd append].
  destruct n as [|n].
  - now rewrite Z.add_0_r, Z.eqb_refl.
  - destruct (Z.eqb_spec a (a + Z.of_nat (S n))) as [E|_]; [lia|reflexivity].
Qed.

(** Where the second list does not continue the first (its head is not
    the successor of the first list's last element), the text of the
    concatenation is the two texts joined by a comma. *)
Theorem range_str_app (l1 l2 : list Z) :
  l1 <> [] -> l2 <> [] ->
  hd 0 l2 <> last l1 0 + 1 ->
  range_str (l1 ++ l2) = range_str l1 ++ "," ++ range_str l2.
Proof.
  intros N1 N2 G.
  destruct l1 as [|i l1]; [contradiction|].
  destruct l2 as [|j l2]; [contradiction|].
  cbn [hd] in G.
  unfold range_str. cbn [app].
  change (i :: (l1 ++ j :: l2)%list) with ((i :: l1) ++ j :: l2)%list.
  rewrite range_str_loop_app.
  destruct (range_str_loop_last l1 None EmptyString i) as (a & s1 & E1).
  rewrite E1. cbn [range_str_loop].
  destruct (Z.eqb_spec j (last (i :: l1) 0 + 1)) as [E|_]; [contradiction|].
  destruct (range_str_loop_last l2 None EmptyString j) as (a2 & s2 & E2).
  cbn [range_str_loop] in E2.
  replace (s1 ++ fmt_run (a, last (i :: l1) 0) ++ ",")
    with ((s1 ++ fmt_run (a, last (i :: l1) 0) ++ ",") ++ EmptyString)
    by apply append_nil_r.
  rewrite range_str_loop_prefix, E2.
  now rewrite !append_assoc.
Qed.

Lemma range_str_app_witness :
  range_str [0; 1; 2; 3; 5; 7; 8; 9] = "0-3,5,7-9".
Proof.
  change [0; 1; 2; 3; 5; 7; 8; 9] with ([0; 1; 2; 3] ++ [5; 7; 8; 9])%list.
  rewrite (range_str_app [0; 1; 2; 3] [5; 7; 8; 9]);
    [|discriminate | discriminate | cbn; lia].
  change [5; 7; 8; 9] with ([5] ++ [7; 8; 9])%list.
  rewrite (range_str_app [5] [7; 8; 9]);
    [|discriminate | discriminate | cbn; lia].
  reflexivity.
Defined.

(** ** [str.split] *)

Lemma split_char_cons (sep c : ascii) (r : string) :
  split_char sep (String c r)
  = if Ascii.eqb c sep
    then (EmptyString, fst (split_char sep r) :: snd (split_char sep r))
    else (String c (fst (split_char sep r)), snd (split_char sep r)).
Proof. cbn [split_char]. now destruct (split_char sep r). Qed.

Lemma split_eq (sep : ascii) (s : string) :
  split sep s = fst (split_char sep s) :: snd (split_char sep s).
Proof. unfold split. now destruct (split_char sep s). Qed.

Lemma concat_cons2 (sep a b : string) (l : list string) :
  String.concat sep (a :: b :: l) = a ++ sep ++ String.concat sep (b :: l).
Proof. reflexivity. Qed.

Lemma concat_cons_head (sep : string) (c : ascii) (a : string)
    (l : list string) :
  String.concat sep (String c a :: l) = String c (String.concat sep (a :: l)).
Proof. destruct l; reflexivity. Qed.

(** Joining the pieces with the separator gives the string back. *)
Lemma split_join (sep : ascii) (s : string) :
  String.concat (String sep EmptyString) (split sep s) = s.
Proof.
  rewrite split_eq. induction s as [|c r IH]; [reflexivity|].
  rewrite split_char_cons.
  destruct (Ascii.eqb_spec c sep) as [-> | N]; cbn [fst snd].
  - rewrite concat_cons2, IH. reflexivity.
  - now rewrite concat_cons_head, IH.
Qed.

(** There is one piece more than there are separators, and no piece
    contains the separator. *)
Lemma split_pieces (sep : ascii) (s : string) :
  List.length (split sep s) = S (count_char sep s)
  /\ Forall (fun p => count_char sep p = O) (split sep s).
Proof.
  rewrite split_eq. induction s as [|c r [IL IF]].
  - split; [reflexivity|]. now repeat constructor.
  - rewrite split_char_cons. cbn [count_char].
    destruct (Ascii.eqb_spec c sep) as [-> | N]; cbn [fst snd].
    + split; [cbn [List.length] in *; lia|].
      constructor; [reflexivity | exact IF].
    + split; [cbn [List.length] in *; lia|].
      inversion IF as [|p ps Hp Hps]; subst. constructor; [|exact Hps].
      cbn [count_char]. destruct (Ascii.eqb_spec c sep); [contradiction|].
      exact Hp.
Qed.

(** ** [split_opts] *)

Lemma count_char_prefix (c : ascii) (a b : string) :
  count_char c (a ++ b) = O -> count_char c a = O.
Proof.
  induction a as [|x a IH]; [reflexivity|]. cbn [append count_char].
  destruct (Ascii.eqb x c); [discriminate|]. exact IH.
Qed.

(** The name under which an option text is entered has no [':'] when the
    text has none. *)
Lemma split_opt_key_colons (y : string) :
  count_char ":" y = O -> count_char ":" (fst (split_opt y)) = O.
Proof.
  intro C. unfold split_opt. pose proof (split_join "=" y) as J.
  destruct (split "=" y) as [|a [|b [|c r]]]; cbn [fst]; try exact C.
  rewrite concat_cons2 in J. rewrite <- J in C.
  exact (count_char_prefix ":" a _ C).
Qed.

(** An option text with exactly one ['='] is a name and a value; any other
    text, without ['='] or with several, is kept whole as a flag set to
    [True]. *)
Theorem split_opt_cases (y : string) :
  (count_char "=" y = 1%nat ->
   exists opt val,
     y = opt ++ "=" ++ val
     /\ count_char "=" opt = O /\ count_char "=" val = O
     /\ split_opt y = (opt, OptStr val))
  /\ (count_char "=" y <> 1%nat -> split_opt y = (y, OptTrue)).
Proof.
  unfold split_opt.
  destruct (split_pieces "=" y) as [L F].
  pose proof (split_join "=" y) as J.
  destruct (split "=" y) as [|a [|b [|c r]]]; cbn [List.length] in L.
  - discriminate L.
  - split; [intro C; rewrite C in L; discriminate L | reflexivity].
  - split; [|intro C; exfalso; apply C; congruence].
    intros _. exists a, b. rewrite concat_cons2 in J. cbn [String.concat] in J.
    inversion F as [|? ? Fa F']; subst. inversion F' as [|? ? Fb _]; subst.
    repeat split; auto.
  - split; [intro C; rewrite C in L; discriminate L | reflexivity].
Qed.

Lemma split_opt_cases_witness :
  split_opt "bitrate=250" = ("bitrate", OptStr "250")
  /\ split_opt "a=b=c" = ("a=b=c", OptTrue)
  /\ split_opt "hard" = ("hard", OptTrue).
Proof.
  destruct (split_opt_cases "bitrate=250") as [One _].
  destruct (One eq_refl) as (opt & val & E & Co & Cv & S).
  split.
  - rewrite S. vm_compute in S. exact (eq_sym S).
  - split; [apply (split_opt_cases "a=b=c") | apply (split_opt_cases "hard")];
      discriminate.
Defined.

Lemma split_dcolon_cons2 (c c' : ascii) (r' : string) :
  split_dcolon_pieces (String c (String c' r'))
  = if Ascii.eqb c ":" && Ascii.eqb c' ":"
    then (EmptyString,
          fst (split_dcolon_pieces r') :: snd (split_dcolon_pieces r'))
    else (String c (fst (split_dcolon_pieces (String c' r'))),
          snd (split_dcolon_pieces (String c' r'))).
Proof.
  cbn [split_dcolon_pieces].
  destruct (Ascii.eqb c ":" && Ascii.eqb c' ":").
  - now destruct (split_dcolon_pieces r').
  - now destruct r' as [|c'' r'']; [|destruct (_ && _);
      [destruct (split_dcolon_pieces r'') | destruct (split_dcolon_pieces _)]].
Qed.

(** Facts on [seq.split('::')], for a string and for the string with one
    more character in front: the first piece has no ['::'], the pieces
    joined by ['::'] are the string, and a string without ['::'] is its
    own single piece. *)
Lemma split_dcolon_facts (s : string) :
  let P s :=
    has_dcolon (fst (split_dcolon_pieces s)) = false
    /\ String.concat "::" (fst (split_dcolon_pieces s)
                           :: snd (split_dcolon_pieces s)) = s
    /\ (has_dcolon s = false -> split_dcolon_pieces s = (s, [])) in
  P s /\ forall c, P (String c s).
Proof.
  induction s as [|c' r' [IH1 IH2]]; cbn zeta in *.
  - split; [now repeat split|]. intro c. now repeat split.
  - split; [apply IH2|]. intro c.
    rewrite split_dcolon_cons2.
    destruct (IH2 c') as (A2 & B2 & C2).
    destruct IH1 as (A1 & B1 & C1).
    destruct (Ascii.eqb c ":" && Ascii.eqb c' ":") eqn:DC; cbn [fst snd].
    + apply andb_true_iff in DC as [Ec Ec'].
      apply Ascii.eqb_eq in Ec, Ec'. subst c c'.
      split; [reflexivity|]. split.
      * rewrite concat_cons2, B1. reflexivity.
      * cbn [has_dcolon]. cbn. discriminate.
    + split; [|split].
      * cbn [has_dcolon].
        destruct (fst (split_dcolon_pieces (String c' r'))) as [|d q] eqn:F;
          [reflexivity|].
        rewrite A2, orb_false_r.
        destruct r' as [|c'' r''].
        -- cbn in F. injection F as <- <-. exact DC.
        -- rewrite split_dcolon_cons2 in F.
           destruct (Ascii.eqb c' ":" && Ascii.eqb c'' ":") eqn:D2;
             cbn [fst] in F; [discriminate F|].
           injection F as <- _. exact DC.
      * now rewrite concat_cons_head, B2.
      * cbn [has_dcolon]. rewrite DC. cbn [orb]. intro Hd.
        now rewrite (C2 Hd).
Qed.

Lemma In_dict_set {V} (d : list (string * V)) (k k' : string) (v v' : V) :
  In (k', v') (dict_set d k v) -> (k' = k /\ v' = v) \/ In (k', v') d.
Proof.
  induction d as [|[a b] d IH]; cbn [dict_set].
  - intros [E | []]. injection E as <- <-. now left.
  - destruct (String.eqb_spec a k) as [-> | N].
    + intros [E | I]; [injection E as <- <-; now left | right; now right].
    + intros [E | I]; [right; now left|].
      destruct (IH I) as [X | X]; [now left | right; now right].
Qed.

(** [split_opts] answers as name everything before the first ['::'], so
    the name never contains ['::'] and is the whole argument when that has
    none, in which case there are no options; and no option is ever
    entered under an empty name or under a name containing [':']. *)
Theorem split_opts_shape (seq : string) :
  has_dcolon (fst (split_opts seq)) = false
  /\ (seq = fst (split_opts seq)
      \/ exists rest, seq = fst (split_opts seq) ++ "::" ++ rest)
  /\ (has_dcolon seq = false -> split_opts seq = (seq, []))
  /\ (forall k v, In (k, v) (snd (split_opts seq)) ->
                  k <> EmptyString /\ count_char ":" k = O).
Proof.
  destruct (split_dcolon_facts seq) as [(A & B & C) _].
  unfold split_opts.
  destruct (split_dcolon_pieces seq) as [name parts] eqn:S.
  cbn [fst snd] in *.
  split; [exact A|]. split.
  { destruct parts as [|p ps]; [left; now rewrite <- B|].
    right. rewrite concat_cons2 in B.
    exists (String.concat "::" (p :: ps)). symmetry. exact B. }
  split.
  { intro Hd. specialize (C Hd). injection C as -> ->. reflexivity. }
  assert (K : forall (xs : list (list string)) opts,
             Forall (Forall (fun y => count_char ":" y = O)) xs ->
             (forall k v, In (k, v) opts ->
                          k <> EmptyString /\ count_char ":" k = O) ->
             forall k v, In (k, v) (fold_left add_opts xs opts) ->
                         k <> EmptyString /\ count_char ":" k = O).
  { induction xs as [|x xs IHx]; intros opts Fx Ho; [exact Ho|].
    cbn [fold_left]. inversion Fx as [|? ? F1 F2]; subst.
    refine (IHx _ F2 _). clear IHx F2 Fx.
    unfold add_opts. revert opts Ho.
    induction x as [|y ys IHy]; intros opts Ho; [exact Ho|].
    cbn [fold_left]. inversion F1 as [|? ? Fy Fys]; subst.
    refine (IHy Fys _ _).
    destruct (split_opt y) as [opt val] eqn:SO.
    destruct (truthy (Some opt)) eqn:T; [|exact Ho].
    intros k v I. destruct (In_dict_set _ _ _ _ _ I) as [[-> ->] | I'];
      [|exact (Ho _ _ I')].
    split.
    - intros ->. discriminate T.
    - pose proof (split_opt_key_colons y Fy) as Ck.
      rewrite SO in Ck. exact Ck. }
  apply K; [|intros k v []].
  clear. induction parts as [|p ps IH]; constructor; [|exact IH].
  apply split_pieces.
Qed.

Lemma split_opts_shape_witness :
  split_opts "image.hfe" = ("image.hfe", [])
  /\ fst (split_opts "image.hfe::bitrate=250:x") = "image.hfe".
Proof.
  split.
  - apply (split_opts_shape "image.hfe"). reflexivity.
  - destruct (split_opts_shape "image.hfe::bitrate=250:x")
      as (_ & _ & _ & _).
    reflexivity.
Defined.

(** ** [with_drive_selected] *)

Section DriveSelected.

Variable D : Drive.Device.
Variable fn : Drive.Cmd.
Variable bus : BusType.
Variable unit : Z.
Variable motor : option bool.

Lemma with_drive_selected_unfold (w : Drive.World) :
  Drive.with_drive_selected D fn (bus, unit) motor w
  = match Drive.answer D w (Drive.SetBusType bus) with
    | Some e => (Some e, Drive.SetBusType bus :: w)
    | None =>
        let (r, wb) := Drive.body D fn unit motor (Drive.SetBusType bus :: w) in
        let (pending, wh) := Drive.handled D r wb in
        match Drive.answer D wh (Drive.Motor unit false) with
        | Some e => (Some e, Drive.Motor unit false :: wh)
        | None =>
            match Drive.answer D (Drive.Motor unit false :: wh)
                    Drive.Deselect with
            | Some e =>
                (Some e, Drive.Deselect :: Drive.Motor unit false :: wh)
            | None =>
                (pending, Drive.Deselect :: Drive.Motor unit false :: wh)
            end
        end
    end.
Proof.
  unfold Drive.with_drive_selected. cbn [fst snd].
  unfold Drive.seq at 1. unfold Drive.call at 1.
  destruct (Drive.answer D w (Drive.SetBusType bus)); [reflexivity|].
  unfold Drive.try_interrupt_finally.
  destruct (Drive.body D fn unit motor (Drive.SetBusType bus :: w)) as [[[|n]|] wb];
    unfold Drive.handled, Drive.seq, Drive.call.
  - destruct (Drive.answer D (Drive.PrintNewline :: wb) Drive.Reset);
      destruct (Drive.answer D (Drive.Reset :: Drive.PrintNewline :: wb)
                  (Drive.Motor unit false));
      try reflexivity;
      destruct (Drive.answer D _ Drive.Deselect); reflexivity.
  - destruct (Drive.answer D wb (Drive.Motor unit false)); [reflexivity|].
    destruct (Drive.answer D _ Drive.Deselect); reflexivity.
  - destruct (Drive.answer D wb (Drive.Motor unit false)); [reflexivity|].
    destruct (Drive.answer D _ Drive.Deselect); reflexivity.
Qed.

(** Once the bus type is set, the motor-off command is issued on every
    path, whatever the drive commands and the callee did; the deselect
    command follows it unless motor-off itself raised.  When setting the
    bus type raises, no other command is issued. *)
Theorem with_drive_selected_cleanup (w : Drive.World) :
  match Drive.answer D w (Drive.SetBusType bus) with
  | Some e =>
      Drive.with_drive_selected D fn (bus, unit) motor w
      = (Some e, Drive.SetBusType bus :: w)
  | None =>
      exists wh,
        match Drive.answer D wh (Drive.Motor unit false) with
        | Some e =>
            Drive.with_drive_selected D fn (bus, unit) motor w
            = (Some e, Drive.Motor unit false :: wh)
        | None =>
            snd (Drive.with_drive_selected D fn (bus, unit) motor w)
            = Drive.Deselect :: Drive.Motor unit false :: wh
        end
  end.
Proof.
  rewrite with_drive_selected_unfold.
  destruct (Drive.answer D w (Drive.SetBusType bus)); [reflexivity|].
  destruct (Drive.body D fn unit motor (Drive.SetBusType bus :: w)) as [r wb].
  destruct (Drive.handled D r wb) as [pending wh]. exists wh.
  destruct (Drive.answer D wh (Drive.Motor unit false)); [reflexivity|].
  destruct (Drive.answer D _ Drive.Deselect); reflexivity.
Qed.

(** A [KeyboardInterrupt] out of the drive selection, the motor start or
    the callee makes [with_drive_selected] print an empty line and reset
    the device before it switches the motor off and deselects; when these
    commands all return, the interrupt is raised again to the caller. *)
Theorem with_drive_selected_interrupt (w wb : Drive.World) :
  Drive.answer D w (Drive.SetBusType bus) = None ->
  Drive.body D fn unit motor (Drive.SetBusType bus :: w) = (Some Drive.KeyboardInterrupt, wb) ->
  let wh := Drive.Reset :: Drive.PrintNewline :: wb in
  (exists delta,
      snd (Drive.with_drive_selected D fn (bus, unit) motor w)
      = (delta ++ Drive.Motor unit false :: wh)%list)
  /\ fst (Drive.with_drive_selected D fn (bus, unit) motor w) <> None
  /\ (Drive.answer D (Drive.PrintNewline :: wb) Drive.Reset = None ->
      Drive.answer D wh (Drive.Motor unit false) = None ->
      Drive.answer D (Drive.Motor unit false :: wh) Drive.Deselect = None ->
      Drive.with_drive_selected D fn (bus, unit) motor w
      = (Some Drive.KeyboardInterrupt,
         Drive.Deselect :: Drive.Motor unit false :: wh)).
Proof.
  intros B E wh. rewrite with_drive_selected_unfold, B, E.
  unfold Drive.handled. fold wh.
  destruct (Drive.answer D wh (Drive.Motor unit false)) as [e1|].
  - split; [now exists []|]. split; [discriminate|]. discriminate.
  - destruct (Drive.answer D (Drive.Motor unit false :: wh) Drive.Deselect)
      as [e2|].
    + split; [now exists [Drive.Deselect]|]. split; [discriminate|].
      discriminate.
    + split; [now exists [Drive.Deselect]|].
      split; [now destruct (Drive.answer D _ Drive.Reset)|].
      now intros ->.
Qed.

(** [with_drive_selected] returns normally only when the callee did: an
    exception of the drive selection, of the motor start or of the callee
    is never swallowed, and neither is one of the cleanup. *)
Theorem with_drive_selected_returns (w w' : Drive.World) :
  Drive.with_drive_selected D fn (bus, unit) motor w = (None, w') ->
  exists wb,
    Drive.body D fn unit motor (Drive.SetBusType bus :: w) = (None, wb)
    /\ w' = Drive.Deselect :: Drive.Motor unit false :: wb
    /\ Drive.answer D w (Drive.SetBusType bus) = None
    /\ Drive.answer D wb (Drive.Motor unit false) = None
    /\ Drive.answer D (Drive.Motor unit false :: wb) Drive.Deselect = None.
Proof.
  rewrite with_drive_selected_unfold.
  destruct (Drive.answer D w (Drive.SetBusType bus)); [discriminate|].
  destruct (Drive.body D fn unit motor (Drive.SetBusType bus :: w)) as [r wb].
  assert (X : forall pending wh,
             Drive.handled D r wb = (pending, wh) -> pending = None ->
             r = None /\ wh = wb).
  { unfold Drive.handled. intros pending wh Eh ->.
    destruct r as [[|n]|].
    - destruct (Drive.answer D _ Drive.Reset); discriminate Eh.
    - discriminate Eh.
    - injection Eh as <-. now split. }
  destruct (Drive.handled D r wb) as [pending wh] eqn:Eh.
  destruct (Drive.answer D wh (Drive.Motor unit false)) eqn:M;
    [discriminate|].
  destruct (Drive.answer D (Drive.Motor unit false :: wh) Drive.Deselect)
    eqn:S; [discriminate|].
  intro E. injection E as -> <-.
  destruct (X None wh eq_refl eq_refl) as [-> ->].
  exists wb. now repeat split.
Qed.

End DriveSelected.

Lemma with_drive_selected_interrupt_witness :
  Drive.with_drive_selected Drive.steady Drive.read_interrupted (IBMPC, 0)
    None []
  = (Some Drive.KeyboardInterrupt,
     [Drive.Deselect; Drive.Motor 0 false; Drive.Reset; Drive.PrintNewline;
      Drive.Callee "read"; Drive.Motor 0 true; Drive.Select 0;
      Drive.SetBusType IBMPC]).
Proof.
  apply (with_drive_selected_interrupt Drive.steady Drive.read_interrupted
           IBMPC 0 None []); reflexivity.
Defined.

Lemma with_drive_selected_returns_witness :
  exists wb,
    Drive.body Drive.steady Drive.read_track 1 (Some false)
      [Drive.SetBusType Shugart]
    = (None, wb)
    /\ wb = [Drive.Callee "read"; Drive.Motor 1 false; Drive.Select 1;
             Drive.SetBusType Shugart].
Proof.
  destruct (with_drive_selected_returns Drive.steady Drive.read_track
              Shugart 1 (Some false) [] _ eq_refl) as (wb & B & _).
  exists wb. split; [exact B|].
  vm_compute in B. now injection B as <-.
Defined.

(** * [TrackSet] *)

(** ** Flags and the lists read from them *)

Lemma mark_length (flags : list bool) :
  forall i s e, List.length (mark flags i s e) = List.length flags.
Proof.
  induction flags as [|b r IH]; intros i s e; cbn; [reflexivity|].
  now rewrite IH.
Qed.

Lemma mark_ranges_length (take : list N -> option (Z * list N))
    (texts : list string) :
  forall flags flags',
    mark_ranges take texts flags = Some flags' ->
    List.length flags' = List.length flags.
Proof.
  induction texts as [|t r IH]; intros flags flags' E; cbn in E.
  - now injection E as <-.
  - destruct (match_range take t) as [[s e]|]; [|discriminate].
    rewrite (IH _ _ E). apply mark_length.
Qed.

(** The indices read from the flags are in increasing order and within
    the flags. *)
Lemma marked_sorted (flags : list bool) :
  forall i,
    Forall (fun c => i <= c < i + Z.of_nat (List.length flags))
           (marked flags i)
    /\ StronglySorted Z.lt (marked flags i).
Proof.
  induction flags as [|b r IH]; intro i; cbn [marked].
  - split; constructor.
  - destruct (IH (i + 1)) as [F Srt].
    assert (F' : Forall (fun c => i <= c < i + Z.of_nat (List.length (b :: r)))
                        (marked r (i + 1))).
    { eapply Forall_impl; [|exact F]. cbn [List.length].
      intros c Hc. cbv beta in Hc. lia. }
    destruct b.
    + split.
      * constructor; [cbn [List.length]; lia | exact F'].
      * constructor; [exact Srt|].
        eapply Forall_impl; [|exact F]. intros c Hc. cbv beta in Hc. lia.
    + now split.
Qed.

Lemma In_marked_mark (flags : list bool) :
  forall i s e c,
    In c (marked (mark flags i s e) i)
    <-> In c (marked flags i)
        \/ (i <= c < i + Z.of_nat (List.length flags) /\ s <= c <= e).
Proof.
  induction flags as [|b r IH]; intros i s e c; cbn [mark marked].
  - cbn. split; [intros [] | intros [[] | [H _]]]. lia.
  - specialize (IH (i + 1) s e c). cbn [List.length].
    pose proof (proj1 (marked_sorted r (i + 1))) as R.
    assert (Rc : In c (marked r (i + 1)) -> i + 1 <= c).
    { intro I. rewrite Forall_forall in R. specialize (R c I).
      cbv beta in R. lia. }
    destruct ((s <=? i) && (i <=? e)) eqn:M; cbn [orb].
    + apply andb_true_iff in M as [M1 M2].
      apply Z.leb_le in M1, M2. cbn [In]. rewrite IH.
      destruct b; cbn [In]; split; intro K.
      * destruct K as [K | [K | K]]; auto. right. split; lia.
      * destruct K as [[K | K] | K]; auto.
        destruct (Z.eq_dec i c); [now left|]. right. right. split; lia.
      * destruct K as [K | [K | K]]; auto.
        -- right. split; lia.
        -- right. split; lia.
      * destruct K as [K | K]; auto.
        destruct (Z.eq_dec i c); [now left|]. right. right. split; lia.
    + assert (N : ~ (s <= i <= e)).
      { intros [A B]. apply Z.leb_le in A, B. rewrite A, B in M.
        discriminate M. }
      destruct b; cbn [In]; rewrite IH; split; intro K.
      * destruct K as [K | [K | K]]; auto. right. split; lia.
      * destruct K as [[K | K] | K]; auto.
        destruct (Z.eq_dec i c); [now left|]. right. right. split; lia.
      * destruct K as [K | K]; auto. right. split; lia.
      * destruct K as [K | K]; auto.
        destruct (Z.eq_dec i c) as [<- | Ne]; [lia|]. right. split; lia.
Qed.

Lemma marked_repeat_false (n : nat) : forall i, marked (repeat false n) i = [].
Proof. induction n as [|n IH]; intro i; cbn; [reflexivity | apply IH]. Qed.

(** The flags set by the ranges of a list of texts. *)
Lemma In_marked_mark_ranges (take : list N -> option (Z * list N))
    (texts : list string) :
  forall flags flags' c,
    mark_ranges take texts flags = Some flags' ->
    (In c (marked flags' 0)
     <-> In c (marked flags 0)
         \/ (0 <= c < Z.of_nat (List.length flags)
             /\ exists t s e,
                 In t texts /\ match_range take t = Some (s, e)
                 /\ s <= c <= e)).
Proof.
  induction texts as [|t r IH]; intros flags flags' c E; cbn in E.
  - injection E as <-. split; [now left|].
    intros [K | (_ & t & s & e & [] & _)]. exact K.
  - destruct (match_range take t) as [[s e]|] eqn:Mt; [|discriminate].
    rewrite (IH _ _ c E), mark_length, In_marked_mark. cbn [In].
    split.
    + intros [[K | [K1 K2]] | (K1 & t' & s' & e' & I & M' & K2)]; auto.
      * right. split; [lia|]. exists t, s, e. auto.
      * right. split; [exact K1|]. exists t', s', e'. auto.
    + intros [K | (K1 & t' & s' & e' & [<- | I] & M' & K2)]; auto.
      * rewrite Mt in M'. injection M' as <- <-. left. right. split; lia.
      * right. split; [exact K1|]. exists t', s', e'. auto.
Qed.

(** ** The patterns *)

Lemma decimal_value_range (c : N) (d : Z) :
  decimal_value c = Some d -> 0 <= d <= 9.
Proof.
  unfold decimal_value.
  destruct (find _ decimal_zeros) as [z|] eqn:F; [|discriminate].
  apply find_some in F as [_ B]. apply andb_true_iff in B as [B1 B2].
  apply N.leb_le in B1. apply N.ltb_lt in B2.
  intro E. injection E as <-. lia.
Qed.

Lemma take_cyl_range (l r : list N) (n : Z) :
  take_cyl l = Some (n, r) -> 0 <= n <= 99.
Proof.
  unfold take_cyl. destruct l as [|a l']; [discriminate|].
  destruct (decimal_value a) as [da|] eqn:Da; [|discriminate].
  pose proof (decimal_value_range a da Da).
  destruct l' as [|b l''].
  - intro E. injection E as <- _. lia.
  - destruct (decimal_value b) as [db|] eqn:Db; intro E.
    + assert (En : n = 10 * da + db) by congruence.
      pose proof (decimal_value_range b db Db). lia.
    + assert (En : n = da) by congruence. lia.
Qed.

Lemma take_head_range (l r : list N) (n : Z) :
  take_head l = Some (n, r) -> 0 <= n <= 1.
Proof.
  unfold take_head. destruct l as [|a l']; [discriminate|].
  destruct (N.eqb_spec a 0x30) as [-> |];
    [|destruct (N.eqb_spec a 0x31) as [-> |]]; cbn [orb];
    intro E; try discriminate E; injection E as <- _; vm_compute;
    split; discriminate.
Qed.

Lemma match_range_bounds (take : list N -> option (Z * list N)) (hi : Z)
    (t : string) (s e : Z) :
  (forall x r n, take x = Some (n, r) -> 0 <= n <= hi) ->
  match_range take t = Some (s, e) -> 0 <= s <= hi /\ 0 <= e <= hi.
Proof.
  intros B. unfold match_range.
  destruct (take (decode (chop_newline t))) as [[n [|c r]]|] eqn:T;
    [| |discriminate].
  - intro E. injection E as <- <-. split; exact (B _ _ _ T).
  - destruct (c =? 0x2D)%N; [|discriminate].
    destruct (take r) as [[m [|]]|] eqn:T2; try discriminate.
    intro E. injection E as <- <-.
    split; [exact (B _ _ _ T) | exact (B _ _ _ T2)].
Qed.

Lemma match_hoff_head (k : string) (h : Z) :
  match_hoff k = Some h -> h = 0 \/ h = 1.
Proof.
  unfold match_hoff.
  destruct (decode (chop_newline k)) as [|c0 [|d [|x [|o [|f [|f' [|]]]]]]];
    try discriminate.
  destruct (c0 =? 0x68)%N; [|discriminate]. cbn [andb].
  destruct (N.eqb_spec d 0x30) as [-> |].
  - cbn [orb andb]. destruct (_ && _ && _ && _); [|discriminate].
    intro E. injection E as <-. now left.
  - destruct (N.eqb_spec d 0x31) as [-> |]; [|discriminate].
    cbn [orb andb]. destruct (_ && _ && _ && _); [|discriminate].
    intro E. injection E as <-. now right.
Qed.

Lemma match_offset_range (v : string) (off : Z) :
  match_offset v = Some off -> -9 <= off <= 9.
Proof.
  unfold match_offset.
  destruct (decode (chop_newline v)) as [|sg [|d [|]]]; try discriminate.
  destruct (decimal_value d) as [n|] eqn:D; [|discriminate].
  pose proof (decimal_value_range d n D).
  destruct (sg =? 0x2B)%N; [intro E; injection E as <-; lia|].
  destruct (sg =? 0x2D)%N; [intro E; injection E as <-; lia|].
  discriminate.
Qed.

Lemma replace_nth_shape (l : list Z) (P : Z -> Prop) (v : Z) :
  forall n,
    P v -> Forall P l ->
    List.length (replace_nth l n v) = List.length l
    /\ Forall P (replace_nth l n v).
Proof.
  induction l as [|a r IH]; intros n Pv F; [now split|].
  inversion F as [|? ? Pa Fr]; subst.
  destruct n as [|n]; cbn [replace_nth List.length].
  - split; [reflexivity | now constructor].
  - destruct (IH n Pv Fr) as [L F']. split; [now rewrite L | now constructor].
Qed.

(** ** [update_from_trackspec] *)

Section TrackspecFacts.

Variable int_of_str : string -> option Z.

Lemma update_part_shape (ts ts' : TrackSet) (x : string)
    (r : option track_exn) :
  good_geometry ts ->
  update_part int_of_str ts x = (r, ts') ->
  good_geometry ts'
  /\ r <> Some IndexError
  /\ (r = None -> 1 <= step ts -> 1 <= step ts')
  /\ trackspec ts' = trackspec ts.
Proof.
  intros (G1 & G2 & G3 & G4 & G5 & G6). unfold update_part.
  assert (Same : good_geometry ts) by (repeat split; assumption).
  destruct (split "=" x) as [|k [|v [|]]];
    try (intro E; injection E as <- <-;
         repeat split; auto; discriminate).
  destruct (k =? "c")%string.
  { destruct (mark_ranges take_cyl (split "," v) (repeat false 100))
      as [flags|] eqn:M; intro E; injection E as <- <-;
      [|repeat split; auto; discriminate].
    pose proof (mark_ranges_length _ _ _ _ M) as L.
    rewrite repeat_length in L.
    destruct (marked_sorted flags 0) as [F Srt]. rewrite L in F.
    repeat split; auto; try discriminate.
    cbn [cyls set_cyls].
    eapply Forall_impl; [|exact F]. intros c Hc. cbv beta in Hc. lia. }
  destruct (k =? "h")%string.
  { destruct (mark_ranges take_head (split "," v) (repeat false 2))
      as [flags|] eqn:M; intro E; injection E as <- <-;
      [|repeat split; auto; discriminate].
    pose proof (mark_ranges_length _ _ _ _ M) as L.
    rewrite repeat_length in L.
    destruct (marked_sorted flags 0) as [F Srt]. rewrite L in F.
    repeat split; auto; try discriminate.
    cbn [heads set_heads].
    eapply Forall_impl; [|exact F]. intros c Hc. cbv beta in Hc. lia. }
  destruct (match_hoff k) as [h|] eqn:Mh.
  { destruct (match_offset v) as [off|] eqn:Mo;
      [|intro E; injection E as <- <-; repeat split; auto; discriminate].
    unfold list_set. rewrite G5.
    assert (X : exists n, list_index 2 h = Some n).
    { destruct (match_hoff_head k h Mh) as [-> | ->]; eexists; reflexivity. }
    destruct X as [n ->].
    destruct (replace_nth_shape (h_off ts) (fun x => -9 <= x <= 9) off n
                (match_offset_range v off Mo) G6) as [L6 F6].
    intro E. injection E as <- <-.
    cbn [cyls heads h_off step trackspec set_h_off].
    repeat split; auto; try discriminate.
    cbn [h_off set_h_off]. congruence. }
  destruct (k =? "step")%string;
    [|intro E; injection E as <- <-; repeat split; auto; discriminate].
  destruct (int_of_str v) as [n|];
    [|intro E; injection E as <- <-; repeat split; auto; discriminate].
  destruct (Z.leb_spec n 0); intro E; injection E as <- <-;
    repeat split; auto; try discriminate.
  cbn [step set_step]. lia.
Qed.

Lemma update_parts_shape (parts : list string) :
  forall ts ts' r,
    good_geometry ts ->
    update_parts int_of_str ts parts = (r, ts') ->
    good_geometry ts'
    /\ r <> Some IndexError
    /\ (r = None -> 1 <= step ts -> 1 <= step ts')
    /\ trackspec ts' = trackspec ts.
Proof.
  induction parts as [|x parts IH]; intros ts ts' r G E; cbn in E.
  - injection E as <- <-.
    split; [exact G|]. split; [discriminate|]. now split.
  - destruct (update_part int_of_str ts x) as [[ex|] ts1] eqn:P.
    + injection E as <- <-.
      destruct (update_part_shape ts ts1 x _ G P) as (A & B & C & T).
      split; [exact A|]. split; [exact B|]. split; [discriminate | exact T].
    + destruct (update_part_shape ts ts1 x _ G P) as (A & B & C & T).
      destruct (IH ts1 ts' r A E) as (A' & B' & C' & T').
      split; [exact A'|]. split; [exact B'|]. split; [|congruence].
      intros N S1. apply C'; [exact N|]. now apply C.
Qed.

(** Whatever the trackspec, and whether the update succeeds or raises, a
    [TrackSet] comes out of [update_from_trackspec] with its cylinders in
    increasing order between 0 and 99, its heads in increasing order among
    0 and 1, and two head offsets between -9 and 9; the update never
    raises [IndexError]; a successful update leaves a positive [step]
    positive; and the trackspec text is appended to in every case. *)
Theorem update_from_trackspec_shape (ts : TrackSet) (spec : string) :
  good_geometry ts ->
  good_geometry (snd (update_from_trackspec int_of_str ts spec))
  /\ fst (update_from_trackspec int_of_str ts spec) <> Some IndexError
  /\ (fst (update_from_trackspec int_of_str ts spec) = None ->
      1 <= step ts ->
      1 <= step (snd (update_from_trackspec int_of_str ts spec)))
  /\ trackspec (snd (update_from_trackspec int_of_str ts spec))
     = trackspec ts ++ spec.
Proof.
  intro G. unfold update_from_trackspec.
  destruct (update_parts int_of_str
              (set_trackspec ts (trackspec ts ++ spec)) (split ":" spec))
    as [r ts'] eqn:E.
  exact (update_parts_shape _ (set_trackspec ts (trackspec ts ++ spec)) _ _
           G E).
Qed.

End TrackspecFacts.

Lemma good_geometry_empty : good_geometry empty_trackset.
Proof.
  repeat split; try constructor; cbn; try lia; repeat constructor; lia.
Qed.

Lemma update_from_trackspec_shape_witness :
  good_geometry
    (snd (new_TrackSet int_of_digits "c=0-39,79:h=0-1:h1.off=-2:step=2"))
  /\ 1 <= step (snd (new_TrackSet int_of_digits
                       "c=0-39,79:h=0-1:h1.off=-2:step=2")).
Proof.
  destruct (update_from_trackspec_shape int_of_digits empty_trackset
              "c=0-39,79:h=0-1:h1.off=-2:step=2" good_geometry_empty)
    as (G & _ & P & _).
  split; [exact G|]. apply P; [reflexivity | cbn; lia].
Defined.

Lemma split_none (sep : ascii) (s : string) :
  count_char sep s = O -> split sep s = [s].
Proof.
  rewrite split_eq. induction s as [|c r IH]; [reflexivity|].
  rewrite split_char_cons. cbn [count_char].
  destruct (Ascii.eqb c sep); [discriminate|]. cbn [Nat.add fst snd].
  intro Z0. specialize (IH Z0). now injection IH as -> ->.
Qed.

Lemma split_app (sep : ascii) (a b : string) :
  split sep (a ++ String sep b) = (split sep a ++ split sep b)%list.
Proof.
  rewrite !split_eq. induction a as [|c r IH]; cbn [append].
  - rewrite split_char_cons, Ascii.eqb_refl. reflexivity.
  - rewrite !split_char_cons.
    destruct (Ascii.eqb c sep); cbn [fst snd app] in *.
    + now rewrite IH.
    + now injection IH as -> ->.
Qed.

Lemma mark_ranges_none (take : list N -> option (Z * list N))
    (texts : list string) :
  forall flags,
    mark_ranges take texts flags = None ->
    exists t, In t texts /\ match_range take t = None.
Proof.
  induction texts as [|t r IH]; intros flags E; cbn in E; [discriminate|].
  destruct (match_range take t) as [[s e]|] eqn:M.
  - destruct (IH _ E) as (t' & I & N). exists t'. split; [now right | exact N].
  - exists t. split; [now left | exact M].
Qed.

Lemma mark_ranges_raises (take : list N -> option (Z * list N))
    (texts : list string) :
  (exists t, In t texts /\ match_range take t = None) ->
  forall flags, mark_ranges take texts flags = None.
Proof.
  induction texts as [|t r IH]; intros (t' & I & M) flags; [destruct I|].
  cbn [mark_ranges]. destruct (match_range take t) as [[s e]|] eqn:Mt;
    [|reflexivity].
  destruct I as [<- | I]; [congruence|]. apply IH. eauto.
Qed.

Lemma mark_ranges_none_iff (take : list N -> option (Z * list N))
    (texts : list string) (flags : list bool) :
  mark_ranges take texts flags = None
  <-> exists t, In t texts /\ match_range take t = None.
Proof.
  split; [apply mark_ranges_none | intro E; now apply mark_ranges_raises].
Qed.

(** What a run of ranges marks on fresh flags: the integers of the
    ranges, provided the ranges end within the flags. *)
Lemma In_marked_fresh (take : list N -> option (Z * list N)) (n : nat)
    (texts : list string) (flags : list bool) (c : Z) :
  (forall x r m, take x = Some (m, r) -> 0 <= m <= Z.of_nat n - 1) ->
  mark_ranges take texts (repeat false n) = Some flags ->
  (In c (marked flags 0)
   <-> exists t s e,
        In t texts /\ match_range take t = Some (s, e) /\ s <= c <= e).
Proof.
  intros B M. rewrite (In_marked_mark_ranges take texts _ _ c M).
  rewrite marked_repeat_false, repeat_length. split.
  - intros [[] | [_ K]]. exact K.
  - intros (t & s & e & I & Mt & K). right. split; [|eauto 6].
    destruct (match_range_bounds take (Z.of_nat n - 1) t s e B Mt). lia.
Qed.

Section TrackspecMeaning.

Variable int_of_str : string -> option Z.

(** What [update_part] makes of a piece [k=v] whose key is [c] or [h]:
    the ranges of [v] are marked on fresh flags, and the attribute becomes
    the marked indices, or [ValueError] is raised and nothing changes. *)
Lemma update_part_cyls (ts : TrackSet) (v : string) :
  count_char "=" v = O ->
  update_part int_of_str ts ("c=" ++ v)
  = match mark_ranges take_cyl (split "," v) (repeat false 100) with
    | None => (Some ValueError, ts)
    | Some flags => (None, set_cyls ts (marked flags 0))
    end.
Proof.
  intro Ne. unfold update_part.
  assert (Sp : split "=" ("c=" ++ v) = ["c"; v]).
  { change ("c=" ++ v) with ("c" ++ String "=" v).
    rewrite split_app, (split_none "=" v) by exact Ne. reflexivity. }
  rewrite Sp. reflexivity.
Qed.

Lemma update_part_heads (ts : TrackSet) (v : string) :
  count_char "=" v = O ->
  update_part int_of_str ts ("h=" ++ v)
  = match mark_ranges take_head (split "," v) (repeat false 2) with
    | None => (Some ValueError, ts)
    | Some flags => (None, set_heads ts (marked flags 0))
    end.
Proof.
  intro Ne. unfold update_part.
  assert (Sp : split "=" ("h=" ++ v) = ["h"; v]).
  { change ("h=" ++ v) with ("h" ++ String "=" v).
    rewrite split_app, (split_none "=" v) by exact Ne. reflexivity. }
  rewrite Sp. reflexivity.
Qed.

(** A trackspec [c=] followed by comma-separated ranges raises
    [ValueError] exactly when one of the comma-separated texts is not a
    range, and then changes nothing but the trackspec text; otherwise it
    succeeds and replaces the cylinders of the [TrackSet] by the union of
    the ranges, whatever the cylinders were before, leaving the other
    attributes alone; a range written backwards contributes nothing. *)
Theorem update_from_trackspec_cylinders (ts : TrackSet) (v : string) :
  count_char ":" v = O -> count_char "=" v = O ->
  let r := update_from_trackspec int_of_str ts ("c=" ++ v) in
  (fst r = Some ValueError
   <-> exists t, In t (split "," v) /\ match_range take_cyl t = None)
  /\ (fst r = None
      <-> forall t, In t (split "," v) -> match_range take_cyl t <> None)
  /\ (fst r = None ->
      (forall c,
          In c (cyls (snd r))
          <-> exists t s e,
               In t (split "," v)
               /\ match_range take_cyl t = Some (s, e) /\ s <= c <= e)
      /\ heads (snd r) = heads ts /\ h_off (snd r) = h_off ts
      /\ step (snd r) = step ts
      /\ trackspec (snd r) = trackspec ts ++ "c=" ++ v)
  /\ (fst r <> None ->
      snd r = set_trackspec ts (trackspec ts ++ "c=" ++ v)).
Proof.
  intros Nc Ne. unfold update_from_trackspec.
  rewrite (split_none ":" ("c=" ++ v)) by exact Nc.
  cbn [update_parts]. rewrite (update_part_cyls _ v Ne).
  pose proof (mark_ranges_none_iff take_cyl (split "," v) (repeat false 100))
    as Raises.
  destruct (mark_ranges take_cyl (split "," v) (repeat false 100))
    as [flags|] eqn:M; cbv zeta; cbn [fst snd].
  - assert (Good : forall t, In t (split "," v) ->
                     match_range take_cyl t <> None).
    { intros t I Mt.
      assert (X : Some flags = None) by (apply Raises; eauto).
      discriminate X. }
    split.
    { split; [discriminate|]. intros (t & I & Mt). now destruct (Good t I). }
    split; [now split|]. split; [|congruence].
    intros _. split; [|now repeat split]. intro c. cbn [cyls set_cyls].
    apply (In_marked_fresh take_cyl 100 _ _ c); [|exact M].
    intros x r m T. pose proof (take_cyl_range x r m T). lia.
  - destruct (proj1 Raises eq_refl) as (t & I & Mt).
    split; [split; eauto|].
    split; [|split; [discriminate | reflexivity]].
    split; [discriminate|]. intro Good. now destruct (Good t I).
Qed.

(** The same for a trackspec [h=]: [ValueError] exactly when one of the
    texts is not a range over the heads 0 and 1; otherwise the heads
    become the union of the ranges. *)
Theorem update_from_trackspec_heads (ts : TrackSet) (v : string) :
  count_char ":" v = O -> count_char "=" v = O ->
  let r := update_from_trackspec int_of_str ts ("h=" ++ v) in
  (fst r = Some ValueError
   <-> exists t, In t (split "," v) /\ match_range take_head t = None)
  /\ (fst r = None
      <-> forall t, In t (split "," v) -> match_range take_head t <> None)
  /\ (fst r = None ->
      (forall h,
          In h (heads (snd r))
          <-> exists t s e,
               In t (split "," v)
               /\ match_range take_head t = Some (s, e) /\ s <= h <= e)
      /\ cyls (snd r) = cyls ts /\ h_off (snd r) = h_off ts
      /\ step (snd r) = step ts
      /\ trackspec (snd r) = trackspec ts ++ "h=" ++ v)
  /\ (fst r <> None ->
      snd r = set_trackspec ts (trackspec ts ++ "h=" ++ v)).
Proof.
  intros Nc Ne. unfold update_from_trackspec.
  rewrite (split_none ":" ("h=" ++ v)) by exact Nc.
  cbn [update_parts]. rewrite (update_part_heads _ v Ne).
  pose proof (mark_ranges_none_iff take_head (split "," v) (repeat false 2))
    as Raises.
  destruct (mark_ranges take_head (split "," v) (repeat false 2))
    as [flags|] eqn:M; cbv zeta; cbn [fst snd].
  - assert (Good : forall t, In t (split "," v) ->
                     match_range take_head t <> None).
    { intros t I Mt.
      assert (X : Some flags = None) by (apply Raises; eauto).
      discriminate X. }
    split.
    { split; [discriminate|]. intros (t & I & Mt). now destruct (Good t I). }
    split; [now split|]. split; [|congruence].
    intros _. split; [|now repeat split]. intro c. cbn [heads set_heads].
    apply (In_marked_fresh take_head 2 _ _ c); [|exact M].
    intros x r m T. pose proof (take_head_range x r m T). lia.
  - destruct (proj1 Raises eq_refl) as (t & I & Mt).
    split; [split; eauto|].
    split; [|split; [discriminate | reflexivity]].
    split; [discriminate|]. intro Good. now destruct (Good t I).
Qed.

Lemma update_part_trackspec (ts : TrackSet) (s x : string) :
  update_part int_of_str (set_trackspec ts s) x
  = (fst (update_part int_of_str ts x),
     set_trackspec (snd (update_part int_of_str ts x)) s).
Proof.
  unfold update_part.
  destruct (split "=" x) as [|k [|v [|]]]; try reflexivity.
  destruct (k =? "c")%string;
    [destruct (mark_ranges take_cyl _ _); reflexivity|].
  destruct (k =? "h")%string;
    [destruct (mark_ranges take_head _ _); reflexivity|].
  destruct (match_hoff k) as [h|].
  - destruct (match_offset v) as [off|]; [|reflexivity].
    cbn [h_off set_trackspec].
    destruct (list_set (h_off ts) h off); reflexivity.
  - destruct (k =? "step")%string; [|reflexivity].
    destruct (int_of_str v) as [n|]; [|reflexivity].
    destruct (n <=? 0); reflexivity.
Qed.

Lemma update_parts_trackspec (parts : list string) :
  forall ts s,
    update_parts int_of_str (set_trackspec ts s) parts
    = (fst (update_parts int_of_str ts parts),
       set_trackspec (snd (update_parts int_of_str ts parts)) s).
Proof.
  induction parts as [|x parts IH]; intros ts s; [reflexivity|].
  cbn [update_parts]. rewrite update_part_trackspec.
  destruct (update_part int_of_str ts x) as [[ex|] ts1]; cbn [fst snd].
  - reflexivity.
  - apply IH.
Qed.

Lemma update_parts_app (l1 l2 : list string) :
  forall ts,
    update_parts int_of_str ts (l1 ++ l2)
    = match update_parts int_of_str ts l1 with
      | (None, ts1) => update_parts int_of_str ts1 l2
      | raised => raised
      end.
Proof.
  induction l1 as [|x l1 IH]; intro ts; [reflexivity|].
  cbn [app update_parts].
  destruct (update_part int_of_str ts x) as [[ex|] ts1]; [reflexivity|].
  apply IH.
Qed.

(** Reading [a:b] in one go is reading [a] and, if that succeeds, reading
    [b]: same exception, same cylinders, heads, offsets and step.  Only
    the trackspec text differs, since two successive updates append their
    texts without the colon. *)
Theorem update_from_trackspec_colon (ts : TrackSet) (a b : string) :
  update_from_trackspec int_of_str ts (a ++ ":" ++ b)
  = match update_from_trackspec int_of_str ts a with
    | (None, ts1) =>
        (fst (update_from_trackspec int_of_str ts1 b),
         set_trackspec (snd (update_from_trackspec int_of_str ts1 b))
                       (trackspec ts ++ a ++ ":" ++ b))
    | (Some ex, ts1) =>
        (Some ex, set_trackspec ts1 (trackspec ts ++ a ++ ":" ++ b))
    end.
Proof.
  unfold update_from_trackspec.
  change (a ++ ":" ++ b) with (a ++ String ":" b).
  rewrite split_app, update_parts_app.
  rewrite !(update_parts_trackspec (split ":" a) ts).
  destruct (update_parts int_of_str ts (split ":" a)) as [[ex|] ts1];
    cbn [fst snd]; [reflexivity|].
  rewrite !update_parts_trackspec. reflexivity.
Qed.

End TrackspecMeaning.

Lemma update_from_trackspec_cylinders_witness :
  In 20 (cyls (snd (update_from_trackspec int_of_digits empty_trackset
                      ("c=" ++ "0-39,79"))))
  /\ ~ In 40 (cyls (snd (update_from_trackspec int_of_digits empty_trackset
                           ("c=" ++ "0-39,79"))))
  /\ In 3 (cyls (snd (update_from_trackspec int_of_digits empty_trackset
                        ("c=" ++ arabic_three))))
  /\ fst (update_from_trackspec int_of_digits empty_trackset
            ("c=" ++ "0-39,x"))
     = Some ValueError.
Proof.
  destruct (update_from_trackspec_cylinders int_of_digits empty_trackset
              "0-39,79" eq_refl eq_refl) as (_ & _ & C & _).
  destruct (C eq_refl) as (C' & _).
  split; [|split; [|split]].
  - apply C'. exists "0-39", 0, 39.
    split; [left; reflexivity|]. split; [reflexivity | lia].
  - intro I. apply C' in I. destruct I as (t & s & e & I & M & K).
    destruct I as [<- | [<- | []]]; vm_compute in M;
      injection M as <- <-; lia.
  - destruct (update_from_trackspec_cylinders int_of_digits empty_trackset
                arabic_three eq_refl eq_refl) as (_ & _ & A & _).
    apply (A eq_refl). exists arabic_three, 3, 3.
    split; [left; reflexivity|]. split; [reflexivity | lia].
  - destruct (update_from_trackspec_cylinders int_of_digits empty_trackset
                "0-39,x" eq_refl eq_refl) as (R & _).
    apply R. exists "x". split; [right; left; reflexivity | reflexivity].
Defined.

Lemma update_from_trackspec_heads_witness :
  fst (update_from_trackspec int_of_digits empty_trackset ("h=" ++ "0-2"))
  = Some ValueError
  /\ heads (snd (update_from_trackspec int_of_digits empty_trackset
                   ("h=" ++ "1,0")))
     = [0; 1].
Proof.
  split.
  - destruct (update_from_trackspec_heads int_of_digits empty_trackset
                "0-2" eq_refl eq_refl) as (R & _).
    apply R. exists "0-2". split; [left; reflexivity | reflexivity].
  - destruct (update_from_trackspec_heads int_of_digits empty_trackset
                "1,0" eq_refl eq_refl) as (_ & G & _).
    assert (E : fst (update_from_trackspec int_of_digits empty_trackset
                       ("h=" ++ "1,0")) = None).
    { apply G. intros t [<- | [<- | []]]; discriminate. }
    clear G. vm_compute in E |- *. reflexivity.
Defined.

(** ** [TrackIter] *)

Lemma track_leb_iff (a b : Z * Z * Z) :
  track_leb a b = true
  <-> (let '(pa, ha, ca) := a in
       let '(pb, hb, cb) := b in
       pa < pb \/ (pa = pb /\ (ha < hb \/ (ha = hb /\ ca <= cb)))).
Proof.
  destruct a as [[pa ha] ca], b as [[pb hb] cb]. unfold track_leb.
  rewrite !orb_true_iff, !andb_true_iff, !orb_true_iff, !andb_true_iff,
    !Z.ltb_lt, !Z.eqb_eq, Z.leb_le.
  reflexivity.
Qed.

Lemma track_leb_total (a b : Z * Z * Z) :
  track_leb a b = false -> track_leb b a = true.
Proof.
  intro F. apply track_leb_iff.
  assert (N : ~ track_leb a b = true) by (rewrite F; discriminate).
  rewrite track_leb_iff in N.
  destruct a as [[pa ha] ca], b as [[pb hb] cb]. lia.
Qed.

Lemma track_leb_trans (a b c : Z * Z * Z) :
  track_leb a b = true -> track_leb b c = true -> track_leb a c = true.
Proof.
  rewrite !track_leb_iff.
  destruct a as [[pa ha] ca], b as [[pb hb] cb], c as [[pc hc] cc]. lia.
Qed.

Lemma insert_track_perm (a : Z * Z * Z) (l : list (Z * Z * Z)) :
  Permutation (a :: l) (insert_track a l).
Proof.
  induction l as [|b r IH]; cbn [insert_track]; [reflexivity|].
  destruct (track_leb a b); [reflexivity|].
  rewrite perm_swap. now constructor.
Qed.

Lemma sort_tracks_perm (l : list (Z * Z * Z)) :
  Permutation l (sort_tracks l).
Proof.
  induction l as [|a r IH]; cbn [sort_tracks]; [reflexivity|].
  rewrite <- insert_track_perm. now constructor.
Qed.

Lemma insert_track_sorted (a : Z * Z * Z) (l : list (Z * Z * Z)) :
  StronglySorted (fun x y => track_leb x y = true) l ->
  StronglySorted (fun x y => track_leb x y = true) (insert_track a l).
Proof.
  induction 1 as [|b r Sr IH Fb]; cbn [insert_track].
  - repeat constructor.
  - destruct (track_leb a b) eqn:C.
    + constructor; [now constructor|].
      constructor; [exact C|].
      eapply Forall_impl; [|exact Fb].
      intros x Hx. exact (track_leb_trans a b x C Hx).
    + constructor; [exact IH|].
      apply (Permutation_Forall (insert_track_perm a r)).
      constructor; [now apply track_leb_total | exact Fb].
Qed.

Lemma sort_tracks_sorted (l : list (Z * Z * Z)) :
  StronglySorted (fun x y => track_leb x y = true) (sort_tracks l).
Proof.
  induction l as [|a r IH]; cbn [sort_tracks]; [constructor|].
  now apply insert_track_sorted.
Qed.

Lemma list_get_some (l : list Z) (h : Z) :
  0 <= h < Z.of_nat (List.length l) -> exists off, list_get l h = Some off.
Proof.
  intro B. unfold list_get, list_index.
  destruct (Z.leb_spec 0 h); [|lia]. destruct (Z.ltb_spec h (Z.of_nat (List.length l))); [|lia].
  cbn [andb].
  destruct (nth_error l (Z.to_nat h)) as [off|] eqn:N; [eauto|].
  apply nth_error_None in N. lia.
Qed.

Lemma tracks_of_cyl_spec (ts : TrackSet) (c : Z) (hs : list Z) :
  Forall (fun h => 0 <= h < Z.of_nat (List.length (h_off ts))) hs ->
  exists l,
    tracks_of_cyl ts c hs = Some l
    /\ List.length l = List.length hs
    /\ forall pc h c',
        In (pc, h, c') l
        <-> c' = c /\ In h hs
            /\ exists off, list_get (h_off ts) h = Some off
                           /\ pc = c * step ts + off.
Proof.
  induction 1 as [|h r Bh Fr (l & E & L & I)]; cbn [tracks_of_cyl].
  - exists []. split; [reflexivity|]. split; [reflexivity|].
    intros pc h c'. split; [intros [] | intros (_ & [] & _)].
  - destruct (list_get_some _ _ Bh) as [off O]. rewrite O, E.
    eexists. split; [reflexivity|]. split; [cbn; now rewrite L|].
    intros pc h' c'. cbn [In]. rewrite I. split.
    + intros [Eq | (-> & Ih & off' & O' & ->)].
      * injection Eq as <- <- <-. split; [reflexivity|].
        split; [now left | eauto].
      * split; [reflexivity|]. split; [now right | eauto].
    + intros (-> & [<- | Ih] & off' & O' & ->).
      * left. rewrite O in O'. now injection O' as <-.
      * right. split; [reflexivity|]. split; [exact Ih | eauto].
Qed.

Lemma tracks_of_spec (ts : TrackSet) (cs : list Z) :
  Forall (fun h => 0 <= h < Z.of_nat (List.length (h_off ts))) (heads ts) ->
  exists l,
    tracks_of ts cs = Some l
    /\ List.length l = (List.length cs * List.length (heads ts))%nat
    /\ forall pc h c,
        In (pc, h, c) l
        <-> In c cs /\ In h (heads ts)
            /\ exists off, list_get (h_off ts) h = Some off
                           /\ pc = c * step ts + off.
Proof.
  intro F. induction cs as [|c r (l2 & E2 & L2 & I2)]; cbn [tracks_of].
  - exists []. split; [reflexivity|]. split; [reflexivity|].
    intros pc h c. split; [intros [] | intros ([] & _)].
  - destruct (tracks_of_cyl_spec ts c (heads ts) F) as (l1 & E1 & L1 & I1).
    rewrite E1, E2. eexists. split; [reflexivity|].
    split; [rewrite length_app, L1, L2; cbn; lia|].
    intros pc h c'. rewrite in_app_iff, I1, I2. cbn [In]. split.
    + intros [(-> & Ih & K) | (Ic & Ih & K)]; auto.
    + intros ([<- | Ic] & Ih & K); auto.
Qed.

(** When every head of the set has an offset, which [update_from_trackspec]
    ensures, [TrackIter] hands out each pair of a cylinder and a head of
    the set exactly once, with the physical cylinder [c*step + h_off[h]],
    in increasing order of physical cylinder, then head, then cylinder. *)
Theorem TrackIter_order (ts : TrackSet) :
  Forall (fun h => 0 <= h < Z.of_nat (List.length (h_off ts))) (heads ts) ->
  exists l,
    TrackIter ts = Some l
    /\ StronglySorted (fun x y => track_leb x y = true) l
    /\ List.length l
       = (List.length (cyls ts) * List.length (heads ts))%nat
    /\ forall pc h c,
        In (pc, h, c) l
        <-> In c (cyls ts) /\ In h (heads ts)
            /\ exists off, list_get (h_off ts) h = Some off
                           /\ pc = c * step ts + off.
Proof.
  intro F. unfold TrackIter.
  destruct (tracks_of_spec ts (cyls ts) F) as (l & E & L & I). rewrite E.
  exists (sort_tracks l). split; [reflexivity|].
  split; [apply sort_tracks_sorted|].
  pose proof (sort_tracks_perm l) as P.
  split; [now rewrite <- (Permutation_length P)|].
  intros pc h c. rewrite <- I. split; apply Permutation_in;
    [now symmetry | exact P].
Qed.

Lemma TrackIter_order_witness :
  exists l,
    TrackIter (snd (new_TrackSet int_of_digits "c=0-1:h=0-1:h1.off=-2"))
    = Some l
    /\ l = [(-2, 1, 0); (-1, 1, 1); (0, 0, 0); (1, 0, 1)].
Proof.
  destruct (TrackIter_order
              (snd (new_TrackSet int_of_digits "c=0-1:h=0-1:h1.off=-2")))
    as (l & E & _).
  - vm_compute. repeat constructor; discriminate.
  - exists l. split; [exact E|].
    vm_compute in E. now injection E as <-.
Defined.

(** ** Printing and reading back *)

Lemma runs_from_nonempty (l : list Z) :
  forall a b, runs_from a b l <> [].
Proof.
  induction l as [|i r IH]; intros a b; cbn [runs_from]; [discriminate|].
  destruct (i =? b + 1); [apply IH | discriminate].
Qed.

(** The text of [range_str] is the runs of the list, each printed by
    [fmt_run], joined by commas. *)
Lemma range_str_loop_runs (l : list Z) :
  forall a b str,
    exists q s,
      range_str_loop l (Some (a, b)) str = (Some q, s)
      /\ s ++ fmt_run q
         = str ++ String.concat "," (map fmt_run (runs_from a b l)).
Proof.
  induction l as [|i r IH]; intros a b str.
  - exists (a, b), str. split; reflexivity.
  - rewrite range_str_loop_cons. cbn [runs_from].
    destruct (i =? b + 1); [apply IH|].
    destruct (IH i i (str ++ fmt_run (a, b) ++ ",")) as (q & s & E & Es).
    exists q, s. split; [exact E|]. rewrite Es. cbn [map].
    destruct (map fmt_run (runs_from i i r)) as [|x xs] eqn:M.
    { apply map_eq_nil in M. now apply runs_from_nonempty in M. }
    rewrite concat_cons2, !append_assoc. reflexivity.
Qed.

Lemma range_str_runs (i : Z) (r : list Z) :
  range_str (i :: r) = String.concat "," (map fmt_run (runs_from i i r)).
Proof.
  unfold range_str. rewrite range_str_loop_cons.
  destruct (range_str_loop_runs r i i EmptyString) as (q & s & E & Es).
  rewrite E. exact Es.
Qed.

(** An integer is in one of the runs exactly when it is in the list. *)
Lemma runs_from_spec (l : list Z) :
  forall a b c,
    a <= b ->
    ((exists rn, In rn (runs_from a b l) /\ fst rn <= c <= snd rn)
     <-> a <= c <= b \/ In c l).
Proof.
  induction l as [|i r IH]; intros a b c AB; cbn [runs_from].
  - split.
    + intros (rn & [<- | []] & K). now left.
    + intros [K | []]. exists (a, b). split; [now left | exact K].
  - destruct (Z.eqb_spec i (b + 1)) as [-> | N].
    + rewrite IH by lia. cbn [In]. split.
      * intros [K | K]; [|auto]. destruct (Z.eq_dec c (b + 1)); [auto|].
        left. lia.
      * intros [K | [K | K]]; [left; lia | left; lia | auto].
    + split.
      * intros (rn & [<- | I] & K); [now left|].
        assert (X : i <= c <= i \/ In c r).
        { apply IH; [lia|]. now exists rn. }
        cbn [In]. destruct X as [X | X]; [right; left; lia | auto].
      * intros [K | [K | K]].
        -- exists (a, b). split; [now left | exact K].
        -- destruct (proj2 (IH i i c (Z.le_refl i))) as (rn & I & K');
             [left; lia|]. exists rn. split; [now right | exact K'].
        -- destruct (proj2 (IH i i c (Z.le_refl i))) as (rn & I & K');
             [now right|]. exists rn. split; [now right | exact K'].
Qed.

Lemma runs_from_bounds (P : Z -> Prop) (l : list Z) :
  forall a b,
    a <= b -> P a -> P b -> Forall P l ->
    Forall (fun rn => fst rn <= snd rn /\ P (fst rn) /\ P (snd rn))
           (runs_from a b l).
Proof.
  induction l as [|i r IH]; intros a b AB Pa Pb F; cbn [runs_from].
  - now repeat constructor.
  - inversion F as [|? ? Pi Fr]; subst.
    destruct (Z.eqb_spec i (b + 1)) as [-> | N].
    + apply IH; auto. lia.
    + constructor; [now repeat split|]. apply IH; auto. lia.
Qed.

(** Two increasing lists with the same elements are the same list. *)
Lemma sorted_ext (l1 : list Z) :
  forall l2,
    StronglySorted Z.lt l1 -> StronglySorted Z.lt l2 ->
    (forall c, In c l1 <-> In c l2) -> l1 = l2.
Proof.
  induction l1 as [|a r1 IH]; intros l2 S1 S2 E.
  - destruct l2 as [|b r2]; [reflexivity|].
    destruct (proj2 (E b)). now left.
  - destruct l2 as [|b r2]; [destruct (proj1 (E a)); now left|].
    inversion S1 as [|? ? S1' F1]; subst.
    inversion S2 as [|? ? S2' F2]; subst.
    rewrite Forall_forall in F1, F2.
    assert (a = b).
    { destruct (proj1 (E a)) as [<- | Ia]; [now left | reflexivity|].
      destruct (proj2 (E b)) as [<- | Ib]; [now left | reflexivity|].
      specialize (F1 b Ib). specialize (F2 a Ia). lia. }
    subst b. f_equal. apply IH; auto.
    intro c. split; intro I.
    + destruct (proj1 (E c)) as [<- | K]; [now right| |exact K].
      specialize (F1 a I). lia.
    + destruct (proj2 (E c)) as [<- | K]; [now right| |exact K].
      specialize (F2 a I). lia.
Qed.

Lemma split_concat (sep : ascii) (pieces : list string) :
  pieces <> [] ->
  Forall (fun p => count_char sep p = O) pieces ->
  split sep (String.concat (String sep EmptyString) pieces) = pieces.
Proof.
  induction pieces as [|a r IH]; intros N F; [contradiction|].
  inversion F as [|? ? Fa Fr]; subst.
  destruct r as [|b r'].
  - cbn [String.concat]. now apply split_none.
  - rewrite concat_cons2.
    change (a ++ String sep EmptyString ++ String.concat (String sep EmptyString) (b :: r'))
      with (a ++ String sep (String.concat (String sep EmptyString) (b :: r'))).
    rewrite split_app, (split_none sep a Fa), IH; [reflexivity | discriminate | exact Fr].
Qed.

Lemma split_colon_join (pieces : list string) :
  forall x,
    count_char ":" x = O ->
    Forall (fun p => count_char ":" p = O) pieces ->
    split ":" (colon_join x pieces) = x :: pieces.
Proof.
  induction pieces as [|p r IH]; intros x Cx F; cbn [colon_join].
  - now apply split_none.
  - inversion F as [|? ? Fp Fr]; subst.
    change (x ++ ":" ++ colon_join p r) with (x ++ String ":" (colon_join p r)).
    rewrite split_app, (split_none ":" x Cx), (IH p Fp Fr). reflexivity.
Qed.

Lemma count_char_app (c : ascii) (a b : string) :
  count_char c (a ++ b) = (count_char c a + count_char c b)%nat.
Proof.
  induction a as [|x a IH]; cbn [append count_char]; [reflexivity|].
  rewrite IH. lia.
Qed.

Lemma chop_newline_id (s : string) :
  count_char (ascii_of_nat 10) s = O -> chop_newline s = s.
Proof.
  induction s as [|c r IH]; [reflexivity|]. cbn [count_char chop_newline].
  destruct (Ascii.eqb c (ascii_of_nat 10)); [discriminate|].
  cbn [Nat.add]. intro Z0. destruct r as [|c' r']; [reflexivity|].
  now rewrite (IH Z0).
Qed.

(** The characters of a printed natural number are digits. *)
Lemma string_of_uint_digits (d : Decimal.uint) (c : ascii) :
  ascii_digit c = false -> count_char c (NilEmpty.string_of_uint d) = O.
Proof.
  intro N. induction d; cbn [NilEmpty.string_of_uint count_char];
    try reflexivity;
    match goal with
    | |- context [Ascii.eqb ?a c] =>
        destruct (Ascii.eqb_spec a c) as [<- | _];
        [vm_compute in N; discriminate N | exact IHd]
    end.
Qed.

Lemma str_of_int_digits (n : Z) (c : ascii) :
  0 <= n -> ascii_digit c = false -> count_char c (str_of_int n) = O.
Proof.
  intros P N.
  assert (Z0 : count_char c "0" = O).
  { cbn [count_char]. destruct (Ascii.eqb_spec "0" c) as [<- | _];
      [vm_compute in N; discriminate N | reflexivity]. }
  destruct n as [|p|p]; [exact Z0 | |lia].
  change (str_of_int (Z.pos p))
    with (NilZero.string_of_uint (Pos.to_uint p)).
  unfold NilZero.string_of_uint.
  pose proof (string_of_uint_digits (Pos.to_uint p) c N) as D.
  destruct (Pos.to_uint p); solve [exact D | exact Z0].
Qed.

(** The numbers from 0 to 99 are printed with one or two digits, which
    read back as the number. *)
Lemma str_of_int_small (n : Z) :
  0 <= n <= 99 ->
  (exists d,
      str_of_int n = String d EmptyString
      /\ ascii_digit d = true /\ digit_value d = n)
  \/ (exists d1 d2,
         str_of_int n = String d1 (String d2 EmptyString)
         /\ ascii_digit d1 = true /\ ascii_digit d2 = true
         /\ 10 * digit_value d1 + digit_value d2 = n).
Proof.
  intro B.
  assert (E : n = Z.of_nat (Z.to_nat n)) by lia.
  assert (L : (Z.to_nat n < 100)%nat) by lia.
  revert E L. generalize (Z.to_nat n) as k. intros k -> L. clear B.
  do 100 (destruct k as [|k];
          [first [ left; eexists; repeat split; reflexivity
                 | right; do 2 eexists; repeat split; reflexivity ]|]).
  lia.
Qed.

Lemma ascii_digit_decode (d : ascii) (r : string) :
  ascii_digit d = true ->
  decode (String d r) = N_of_ascii d :: decode r
  /\ decimal_value (N_of_ascii d) = Some (digit_value d).
Proof.
  destruct d as [[] [] [] [] [] [] [] []]; intro D; vm_compute in D;
    try discriminate D;
    (split; [apply decode_cons_ascii; reflexivity | reflexivity]).
Qed.

Lemma take_cyl_str (n : Z) (rest : string) :
  0 <= n <= 99 ->
  rest = EmptyString \/ (exists r, rest = String "-" r) ->
  take_cyl (decode (str_of_int n ++ rest)) = Some (n, decode rest).
Proof.
  intros B R.
  assert (Rd : decode rest = []
               \/ exists l, decode rest = 0x2D%N :: l).
  { destruct R as [-> | [r ->]]; [now left | right].
    exists (decode r). now apply decode_cons_ascii. }
  destruct (str_of_int_small n B)
    as [(d & -> & D & <-) | (d1 & d2 & -> & D1 & D2 & <-)];
    cbn [append].
  - destruct (ascii_digit_decode d rest D) as [-> V].
    unfold take_cyl. rewrite V.
    destruct Rd as [-> | [l ->]]; reflexivity.
  - destruct (ascii_digit_decode d1 (String d2 rest) D1) as [-> V1].
    destruct (ascii_digit_decode d2 rest D2) as [-> V2].
    unfold take_cyl. now rewrite V1, V2.
Qed.

Lemma match_range_fmt_run (a b : Z) :
  0 <= a <= 99 -> 0 <= b <= 99 -> a <= b ->
  match_range take_cyl (fmt_run (a, b)) = Some (a, b).
Proof.
  intros Ba Bb AB. unfold match_range.
  assert (Nl : count_char (ascii_of_nat 10) (fmt_run (a, b)) = O).
  { unfold fmt_run. cbn [fst snd]. destruct (a =? b).
    - apply str_of_int_digits; [lia | reflexivity].
    - rewrite !count_char_app, !str_of_int_digits by (lia || reflexivity).
      reflexivity. }
  rewrite (chop_newline_id _ Nl). unfold fmt_run. cbn [fst snd].
  assert (Last : forall n, 0 <= n <= 99 ->
                   take_cyl (decode (str_of_int n)) = Some (n, [])).
  { intros n Bn. rewrite <- (append_nil_r (str_of_int n)).
    rewrite take_cyl_str; [reflexivity | exact Bn | now left]. }
  destruct (Z.eqb_spec a b) as [<- | Ne].
  - now rewrite (Last a Ba).
  - rewrite take_cyl_str; [|exact Ba | right; eexists; reflexivity].
    cbn [append]. rewrite decode_cons_ascii by reflexivity.
    change (N_of_ascii "-" =? 0x2D)%N with true. cbv iota.
    now rewrite (Last b Bb).
Qed.

Lemma fmt_run_plain (a b : Z) (c : ascii) :
  0 <= a -> 0 <= b -> ascii_digit c = false -> Ascii.eqb "-" c = false ->
  count_char c (fmt_run (a, b)) = O.
Proof.
  intros Pa Pb N M. unfold fmt_run. cbn [fst snd]. destruct (a =? b).
  - now apply str_of_int_digits.
  - rewrite !count_char_app, !str_of_int_digits by assumption.
    cbn [count_char]. now rewrite M.
Qed.

Lemma count_char_concat (sep : string) (c : ascii) (pieces : list string) :
  count_char c sep = O ->
  Forall (fun p => count_char c p = O) pieces ->
  count_char c (String.concat sep pieces) = O.
Proof.
  intros Cs F. induction F as [|p r Fp Fr IH]; [reflexivity|].
  destruct r as [|q r']; [exact Fp|].
  rewrite concat_cons2, !count_char_app, Fp, Cs, IH. reflexivity.
Qed.

(** The runs of a list of cylinders, and the texts they are printed as. *)
Lemma runs_texts (i : Z) (r : list Z) (c : ascii) :
  Forall (fun x => 0 <= x <= 99) (i :: r) ->
  ascii_digit c = false -> Ascii.eqb "-" c = false ->
  Forall (fun rn => 0 <= fst rn <= 99 /\ 0 <= snd rn <= 99
                    /\ fst rn <= snd rn)
         (runs_from i i r)
  /\ Forall (fun p => count_char c p = O) (map fmt_run (runs_from i i r)).
Proof.
  intros F N M. inversion F as [|? ? Fi Fr]; subst.
  pose proof (runs_from_bounds (fun x => 0 <= x <= 99) r i i
                (Z.le_refl i) Fi Fi Fr) as B.
  split.
  - eapply Forall_impl; [|exact B]. intros rn (A1 & A2 & A3). auto.
  - apply Forall_map. eapply Forall_impl; [|exact B].
    intros [a b] (A1 & A2 & A3). cbn [fst snd] in *.
    apply fmt_run_plain; auto; lia.
Qed.

Lemma mark_ranges_runs (rs : list (Z * Z)) :
  forall flags,
    Forall (fun rn => 0 <= fst rn <= 99 /\ 0 <= snd rn <= 99
                      /\ fst rn <= snd rn) rs ->
    exists flags',
      mark_ranges take_cyl (map fmt_run rs) flags = Some flags'.
Proof.
  induction rs as [|[a b] rs IH]; intros flags F; cbn [map mark_ranges].
  - eauto.
  - inversion F as [|? ? (A1 & A2 & A3) Fr]; subst. cbn [fst snd] in *.
    rewrite (match_range_fmt_run a b A1 A2 A3). apply IH. exact Fr.
Qed.

(** Reading back the text [range_str] prints for a non-empty increasing
    list of cylinders marks exactly the cylinders of the list. *)
Lemma read_range_str_cyls (l : list Z) :
  l <> [] ->
  StronglySorted Z.lt l ->
  Forall (fun x => 0 <= x <= 99) l ->
  exists flags,
    mark_ranges take_cyl (split "," (range_str l)) (repeat false 100)
    = Some flags
    /\ marked flags 0 = l.
Proof.
  intros N Srt F. destruct l as [|i r]; [contradiction|].
  rewrite range_str_runs.
  destruct (runs_texts i r "," F eq_refl eq_refl) as [B P].
  rewrite split_concat;
    [|intro E; apply map_eq_nil in E; now apply runs_from_nonempty in E
     |exact P].
  destruct (mark_ranges_runs (runs_from i i r) (repeat false 100) B)
    as [flags M].
  exists flags. split; [exact M|].
  apply sorted_ext; [apply marked_sorted | exact Srt|].
  intro c.
  rewrite (In_marked_fresh take_cyl 100 (map fmt_run (runs_from i i r))
             flags c);
    [|intros x r' m T; pose proof (take_cyl_range x r' m T); lia | exact M].
  assert (X : (i <= c <= i \/ In c r) <-> In c (i :: r)).
  { cbn [In]. split; intros [K | K]; auto; left; lia. }
  rewrite <- X, <- (runs_from_spec r i i c (Z.le_refl i)).
  split.
  - intros (t & s & e & I & Mt & K). apply in_map_iff in I.
    destruct I as ([a b] & <- & I).
    rewrite Forall_forall in B. destruct (B _ I) as (A1 & A2 & A3).
    cbn [fst snd] in *.
    rewrite (match_range_fmt_run a b A1 A2 A3) in Mt.
    injection Mt as <- <-. exists (a, b). now split.
  - intros ([a b] & I & K). cbn [fst snd] in K.
    rewrite Forall_forall in B. destruct (B _ I) as (A1 & A2 & A3).
    cbn [fst snd] in *.
    exists (fmt_run (a, b)), a, b. split; [now apply in_map|].
    split; [now apply match_range_fmt_run | exact K].
Qed.

Lemma range_str_plain (l : list Z) (c : ascii) :
  l <> [] -> Forall (fun x => 0 <= x <= 99) l ->
  ascii_digit c = false -> Ascii.eqb "-" c = false -> Ascii.eqb "," c = false ->
  count_char c (range_str l) = O.
Proof.
  intros N F D M K. destruct l as [|i r]; [contradiction|].
  rewrite range_str_runs. apply count_char_concat.
  - cbn [count_char]. now rewrite K.
  - apply (runs_texts i r c F D M).
Qed.

Lemma heads_cases (hs : list Z) :
  hs <> [] -> StronglySorted Z.lt hs -> Forall (fun h => 0 <= h <= 1) hs ->
  hs = [0] \/ hs = [1] \/ hs = [0; 1].
Proof.
  intros N Srt F. destruct hs as [|a [|b r]]; [contradiction | |].
  - inversion F as [|? ? Fa _]; subst.
    assert (a = 0 \/ a = 1) as [-> | ->] by lia; auto.
  - inversion F as [|? ? Fa F']; subst. inversion F' as [|? ? Fb F'']; subst.
    inversion Srt as [|? ? Srt' Lt]; subst.
    inversion Lt as [|? ? Lab Lt']; subst.
    destruct r as [|c r'].
    + assert (a = 0) by lia. assert (b = 1) by lia. subst. auto.
    + inversion Srt' as [|? ? _ Lt2]; subst.
      inversion Lt2 as [|? ? Lbc _]; subst.
      inversion F'' as [|? ? Fc _]; subst. lia.
Qed.

Section ReadBack.

Variable int_of_str : string -> option Z.

Lemma update_part_printed_cyls (ts : TrackSet) (l : list Z) :
  l <> [] -> StronglySorted Z.lt l -> Forall (fun x => 0 <= x <= 99) l ->
  update_part int_of_str ts ("c=" ++ range_str l) = (None, set_cyls ts l).
Proof.
  intros N Srt F. unfold update_part.
  assert (Sp : split "=" ("c=" ++ range_str l) = ["c"; range_str l]).
  { change ("c=" ++ range_str l) with ("c" ++ String "=" (range_str l)).
    rewrite split_app, (split_none "=" (range_str l)); [reflexivity|].
    now apply range_str_plain. }
  rewrite Sp. cbn [String.eqb Ascii.eqb Bool.eqb].
  destruct (read_range_str_cyls l N Srt F) as (flags & M & E).
  now rewrite M, E.
Qed.

Lemma update_part_printed_heads (ts : TrackSet) (hs : list Z) :
  hs <> [] -> StronglySorted Z.lt hs -> Forall (fun h => 0 <= h <= 1) hs ->
  update_part int_of_str ts ("h=" ++ range_str hs) = (None, set_heads ts hs).
Proof.
  intros N Srt F.
  destruct (heads_cases hs N Srt F) as [-> | [-> | ->]]; reflexivity.
Qed.

Lemma update_part_printed_offset (ts : TrackSet) (i x : Z) :
  i = 0 \/ i = 1 -> -9 <= x <= 9 -> x <> 0 ->
  List.length (h_off ts) = 2%nat ->
  update_part int_of_str ts
    ("h" ++ str_of_int i ++ ".off=" ++ plus_sign x ++ str_of_int x)
  = (None, set_h_off ts (replace_nth (h_off ts) (Z.to_nat i) x)).
Proof.
  intros I B N L.
  assert (X : x = -9 \/ x = -8 \/ x = -7 \/ x = -6 \/ x = -5 \/ x = -4
              \/ x = -3 \/ x = -2 \/ x = -1 \/ x = 1 \/ x = 2 \/ x = 3
              \/ x = 4 \/ x = 5 \/ x = 6 \/ x = 7 \/ x = 8 \/ x = 9) by lia.
  unfold update_part, list_set.
  destruct I as [-> | ->];
    repeat (destruct X as [-> | X]; [rewrite L; reflexivity|]);
    subst x; rewrite L; reflexivity.
Qed.

Lemma update_part_printed_step (ts : TrackSet) (n : Z) :
  1 <= n -> int_of_str (str_of_int n) = Some n ->
  update_part int_of_str ts ("step=" ++ str_of_int n) = (None, set_step ts n).
Proof.
  intros P E. unfold update_part.
  assert (Sp : split "=" ("step=" ++ str_of_int n) = ["step"; str_of_int n]).
  { change ("step=" ++ str_of_int n)
      with ("step" ++ String "=" (str_of_int n)).
    rewrite split_app, (split_none "=" (str_of_int n)); [reflexivity|].
    apply str_of_int_digits; [lia | reflexivity]. }
  rewrite Sp.
  change (("step" =? "c")%string) with false.
  change (("step" =? "h")%string) with false.
  change (match_hoff "step") with (@None Z).
  change (("step" =? "step")%string) with true.
  cbv iota. rewrite E.
  destruct (Z.leb_spec n 0); [lia | reflexivity].
Qed.

End ReadBack.

Lemma TrackSet_str_pieces (cs hs : list Z) (x0 x1 st : Z) (sp : string) :
  TrackSet_str (mkTrackSet cs hs [x0; x1] st sp)
  = colon_join ("c=" ++ range_str cs)
      (("h=" ++ range_str hs) :: extra_pieces x0 x1 st).
Proof.
  unfold TrackSet_str, extra_pieces, offset_piece.
  cbn [cyls heads h_off step str_h_off].
  change (0 + 1) with 1.
  destruct (x0 =? 0), (x1 =? 0), (st =? 1);
    cbn [negb app colon_join];
    repeat first [ rewrite append_assoc | rewrite append_nil_r
                 | progress cbn [append] ];
    reflexivity.
Qed.

Lemma offset_piece_plain (i x : Z) :
  i = 0 \/ i = 1 -> -9 <= x <= 9 -> count_char ":" (offset_piece i x) = O.
Proof.
  intros I B.
  assert (X : x = -9 \/ x = -8 \/ x = -7 \/ x = -6 \/ x = -5 \/ x = -4
              \/ x = -3 \/ x = -2 \/ x = -1 \/ x = 0 \/ x = 1 \/ x = 2
              \/ x = 3 \/ x = 4 \/ x = 5 \/ x = 6 \/ x = 7 \/ x = 8
              \/ x = 9) by lia.
  destruct I as [-> | ->];
    repeat (destruct X as [-> | X]; [vm_compute; reflexivity|]);
    subst x; vm_compute; reflexivity.
Qed.

Lemma extra_pieces_plain (x0 x1 st : Z) :
  -9 <= x0 <= 9 -> -9 <= x1 <= 9 -> 1 <= st ->
  Forall (fun p => count_char ":" p = O) (extra_pieces x0 x1 st).
Proof.
  intros B0 B1 P. unfold extra_pieces.
  apply Forall_app; split; [|apply Forall_app; split].
  - destruct (x0 =? 0); repeat constructor.
    apply offset_piece_plain; [now left | exact B0].
  - destruct (x1 =? 0); repeat constructor.
    apply offset_piece_plain; [now right | exact B1].
  - destruct (st =? 1); repeat constructor.
    rewrite count_char_app. apply str_of_int_digits; [lia | reflexivity].
Qed.

Section ReadBackAll.

Variable int_of_str : string -> option Z.

Lemma update_parts_extra (cs hs : list Z) (x0 x1 st : Z) (sp : string) :
  -9 <= x0 <= 9 -> -9 <= x1 <= 9 -> 1 <= st ->
  int_of_str (str_of_int st) = Some st ->
  update_parts int_of_str (mkTrackSet cs hs [0; 0] 1 sp)
    (extra_pieces x0 x1 st)
  = (None, mkTrackSet cs hs [x0; x1] st sp).
Proof.
  intros B0 B1 P E. unfold extra_pieces.
  assert (S0 : update_parts int_of_str (mkTrackSet cs hs [0; 0] 1 sp)
                 (if x0 =? 0 then [] else [offset_piece 0 x0])
               = (None, mkTrackSet cs hs [x0; 0] 1 sp)).
  { destruct (Z.eqb_spec x0 0) as [-> | N]; [reflexivity|].
    cbn [update_parts]. unfold offset_piece.
    rewrite update_part_printed_offset;
      [reflexivity | now left | exact B0 | exact N | reflexivity]. }
  rewrite update_parts_app, S0. cbv iota.
  assert (S1 : update_parts int_of_str (mkTrackSet cs hs [x0; 0] 1 sp)
                 (if x1 =? 0 then [] else [offset_piece 1 x1])
               = (None, mkTrackSet cs hs [x0; x1] 1 sp)).
  { destruct (Z.eqb_spec x1 0) as [-> | N]; [reflexivity|].
    cbn [update_parts]. unfold offset_piece.
    rewrite update_part_printed_offset;
      [reflexivity | now right | exact B1 | exact N | reflexivity]. }
  rewrite update_parts_app, S1. cbv iota.
  destruct (Z.eqb_spec st 1) as [-> | N]; [reflexivity|].
  cbn [update_parts].
  rewrite update_part_printed_step; [reflexivity | exact P | exact E].
Qed.

(** X21.  What [TrackSet.__str__] prints is a trackspec that
    [TrackSet(...)] reads back without an exception into the same
    cylinders, heads, head offsets and step, whenever the set has at least
    one cylinder and one head, is in the shape [update_from_trackspec]
    keeps, has a positive step, and [int] reads the printed step. *)
Theorem TrackSet_str_read_back (ts : TrackSet) :
  good_geometry ts ->
  cyls ts <> [] -> heads ts <> [] -> 1 <= step ts ->
  int_of_str (str_of_int (step ts)) = Some (step ts) ->
  new_TrackSet int_of_str (TrackSet_str ts)
  = (None, set_trackspec ts (TrackSet_str ts)).
Proof.
  intros (Sc & Fc & Sh & Fh & L & Fo) Nc Nh P E.
  destruct ts as [cs hs ho st sp].
  cbn [cyls heads h_off step] in *.
  destruct ho as [|x0 [|x1 [|]]]; try discriminate L.
  inversion Fo as [|? ? B0 Fo']; subst.
  inversion Fo' as [|? ? B1 _]; subst.
  cbv beta in B0, B1.
  unfold new_TrackSet, update_from_trackspec.
  rewrite update_parts_trackspec.
  rewrite TrackSet_str_pieces.
  rewrite split_colon_join.
  - cbn [update_parts].
    rewrite (update_part_printed_cyls int_of_str empty_trackset cs Nc Sc Fc).
    rewrite (update_part_printed_heads int_of_str _ hs Nh Sh Fh).
    unfold set_heads, set_cyls, empty_trackset.
    cbn [cyls heads h_off step trackspec repeat].
    rewrite (update_parts_extra cs hs x0 x1 st EmptyString B0 B1 P E).
    reflexivity.
  - rewrite count_char_app.
    rewrite (range_str_plain cs ":" Nc Fc); reflexivity.
  - constructor.
    + rewrite count_char_app.
      rewrite (range_str_plain hs ":" Nh); [reflexivity | | reflexivity ..].
      eapply Forall_impl; [|exact Fh]. cbv beta. intros a Ha. lia.
    + now apply extra_pieces_plain.
Qed.

End ReadBackAll.

Lemma TrackSet_str_read_back_witness :
  TrackSet_str (mkTrackSet [0; 1; 2; 79] [0; 1] [0; -2] 2 "c=0-79")
  = "c=0-2,79:h=0-1:h1.off=-2:step=2"
  /\ new_TrackSet int_of_digits "c=0-2,79:h=0-1:h1.off=-2:step=2"
     = (None, mkTrackSet [0; 1; 2; 79] [0; 1] [0; -2] 2
                "c=0-2,79:h=0-1:h1.off=-2:step=2").
Proof.
  split; [reflexivity|].
  refine (TrackSet_str_read_back int_of_digits
            (mkTrackSet [0; 1; 2; 79] [0; 1] [0; -2] 2 "c=0-79")
            _ _ _ _ _).
  - unfold good_geometry. cbn [cyls heads h_off].
    split; [repeat constructor|].
    split; [repeat constructor; lia|].
    split; [repeat constructor|].
    split; [repeat constructor; lia|].
    split; [reflexivity | repeat constructor; lia].
  - discriminate.
  - discriminate.
  - cbn [step]. lia.
  - reflexivity.
Defined.
